(** * pxr::sfx -- the sound-effects module of pixiretro (pxr_sfx.cpp)

    A shallow embedding of the module data and functions of [pxr_sfx.cpp]:
    the resource table [sounds], the channel tracker [channelPlayback] /
    [channelVolume], the deferred [unloadQueue], and the functions that act on
    them.  Module functions are written in a small state-and-fault monad over a
    [World] made of the module data, the part of the SDL_mixer state the module
    reads back, and a trace of the log lines and backend calls issued.

    Conventions.
    - [int] values are modelled on [Z].  The only arithmetic the module does on
      them is [++]; signed overflow is undefined in C++ and would need 2^31
      calls, so increments are plain [+ 1].
    - assertions are compiled in (no [NDEBUG]): a failed [assert] ends the
      run with [AssertionFailed].
    - reading or writing a [std::vector] outside its bounds ends the run with
      [UndefinedBehaviour].
    - [std::unordered_map] is a [gmap]; its iteration order is unspecified in
      C++ and is the order of [map_to_list] here.  The one loop that iterates
      (the search by name in [loadSoundWAV]) is shown independent of that
      order on tables whose names are pairwise distinct.
    - what the backend answers ([Mix_OpenAudio], [Mix_LoadWAV], the four
      play calls, and [Mix_GetError] after a call that failed) is an argument
      of the function that makes the call.
    - [float] and [double] arithmetic is IEEE 754 binary32 and binary64, every
      operation rounded to nearest; a division by zero gives an infinity.  The
      conversion of a [float] to an integer type discards the fractional part
      and is undefined when the result does not fit the type.  [sinf] is the
      C library's and a parameter of the development.
    - [new T[n]] succeeds for every [n >= 0].
    - [shutdown], [freeErrorSound], [logSpec] and the stop, pause, resume and
      query functions, which only forward to the backend, are not modelled.

    The play scene of the snake game (source/play_scene.cpp) is embedded after
    the module, with its own conventions. *)

From Stdlib Require Import ZArith QArith Qround Floats.SpecFloat.
From stdpp Require Import gmap strings list fin_maps pretty.

#[local] Open Scope Z_scope.

(* ===================================================================== *)
(** ** What the module takes from headers and libraries that are not part
       of the translation unit *)
(* ===================================================================== *)

(** [SampleFormat] (pxr_sfx.h).  The five cases [generateErrorSound] switches
    on, a floating-point format (refused by the assertion in [initialize]) and
    any other value (the [default] branch). *)
Inductive SampleFormat :=
| SAMPLE_FORMAT_U8
| SAMPLE_FORMAT_S8
| SAMPLE_FORMAT_U16LSB
| SAMPLE_FORMAT_S16LSB
| SAMPLE_FORMAT_S32LSB
| SAMPLE_FORMAT_FLOAT
| SAMPLE_FORMAT_OTHER.

Definition SDL_AUDIO_ISFLOAT (f : SampleFormat) : bool :=
  match f with SAMPLE_FORMAT_FLOAT => true | _ => false end.

(** ** Single-precision arithmetic (IEEE 754 binary32), from the Standard
       Library's executable specification. *)
Definition float := spec_float.
Definition f32_prec : Z := 24.
Definition f32_emax : Z := 128.

(** The constants of pxr_sfx.h, pxr_wav.h and the resource paths, and [sinf]
    of the C library.  They are parameters of the whole development. *)
Class Platform := {
  MAX_VOLUME : Z;
  MIN_VOLUME : Z;
  NULL_CHANNEL : Z;
  ALL_CHANNELS : Z;
  RESOURCE_PATH_SOUNDS : string;
  FILE_EXTENSION : string;
  sinf : float -> float
}.

(** [int] to [float]: round to nearest, ties to even. *)
Definition float_of_int (n : Z) : float := binary_normalize f32_prec f32_emax n 0 false.

Definition fmul (x y : float) : float := SFmul f32_prec f32_emax x y.

(** [0.f], [1.f] and [2.f]; [+], [/], [<], [>=] and [>] on [float]. *)
Definition fzero : float := S754_zero false.
Definition fone : float := S754_finite false 8388608 (-23).
Definition ftwo : float := S754_finite false 8388608 (-22).
Definition fadd (x y : float) : float := SFadd f32_prec f32_emax x y.
Definition fdiv (x y : float) : float := SFdiv f32_prec f32_emax x y.
Definition flt (x y : float) : bool := SFltb x y.
Definition fge (x y : float) : bool := SFleb y x.
Definition fgt (x y : float) : bool := SFltb y x.

(** Double precision (binary64): a [float] is a [double] as it stands; a
    [double] becomes a [float] by rounding to nearest. *)
Definition double := spec_float.
Definition f64_prec : Z := 53.
Definition f64_emax : Z := 1024.
Definition dmul (x y : double) : double := SFmul f64_prec f64_emax x y.
Definition float_of_double (x : double) : float :=
  match x with
  | S754_finite s m e =>
      binary_normalize f32_prec f32_emax (if s then Z.neg m else Z.pos m) e s
  | _ => x
  end.
(** [M_PI], the [double] nearest to pi: 0x400921FB54442D18. *)
Definition M_PI : double := S754_finite false 7074237752028440 (-51).

Definition INT_MIN : Z := - 2 ^ 31.
Definition INT_MAX : Z := 2 ^ 31 - 1.

(** The magnitude [m * 2^e] with its fractional part discarded. *)
Definition trunc_magnitude (m : positive) (e : Z) : Z :=
  if 0 <=? e then Z.pos m * 2 ^ e else Z.pos m / 2 ^ (- e).

(** [float] to [int]: the fractional part is discarded (truncation toward
    zero); the conversion is undefined when the truncated value does not fit
    an [int], and for NaN and the infinities. *)
Definition int_of_float (x : float) : option Z :=
  match x with
  | S754_zero _ => Some 0
  | S754_finite s m e =>
      let t := if s then - trunc_magnitude m e else trunc_magnitude m e in
      if (INT_MIN <=? t) && (t <=? INT_MAX) then Some t else None
  | _ => None
  end.

(** [static_cast<T>(x)] for an integer type [T] of the range [lo .. hi]:
    the same conversion, undefined when the truncated value is outside the
    range. *)
Definition cast_float (lo hi : Z) (x : float) : option Z :=
  match x with
  | S754_zero _ => Some 0
  | S754_finite s m e =>
      let t := if s then - trunc_magnitude m e else trunc_magnitude m e in
      if (lo <=? t) && (t <=? hi) then Some t else None
  | _ => None
  end.

(** The rational a float denotes ([None] for NaN and the infinities). *)
Definition float_value (x : float) : option Q :=
  match x with
  | S754_zero _ => Some 0%Q
  | S754_finite s m e =>
      let q := if 0 <=? e then inject_Z (Z.pos m * 2 ^ e)
               else Qmake (Z.pos m) (Z.to_pos (2 ^ (- e))) in
      Some (if s then Qopp q else q)
  | _ => None
  end.

(* ===================================================================== *)
(** ** Module data *)
(* ===================================================================== *)

(** [Mix_Chunk]; [abuf] holds the samples, [alen] its length in bytes.  A
    sample that was never written (its value is indeterminate) is [None]. *)
Record Mix_Chunk := {
  allocated : Z;
  abuf : list (option Z);
  alen : Z;
  volume : Z
}.

(** [struct SoundResource]; [_chunk] is a [Mix_Chunk*], [None] is [nullptr]. *)
Record SoundResource := {
  _name : string;
  _chunk : option Mix_Chunk;
  _referenceCount : Z
}.

Record SFXConfiguration := {
  _samplingFreq_hz : Z;
  _sampleFormat : SampleFormat;
  _outputMode : Z;
  _numMixChannels : Z;
  _chunkSize : Z
}.

Definition errorSoundFreq_hz : Z := 200.
(** [0.5f] *)
Definition errorSoundDuration_s : float := S754_finite false 8388608 (-24).
Definition errorSoundVolume `{Platform} : Z := MAX_VOLUME.
Definition errorSoundName : string := "sfxerror".
Definition nullResourceKey : Z := -1.

(** The globals of the translation unit. *)
Record Sfx := {
  errorSoundKey : Z;
  nextResourceKey : Z;
  sounds : gmap Z SoundResource;
  sfxconfiguration : SFXConfiguration;
  channelPlayback : list Z;
  channelVolume : list Z;
  unloadQueue : list Z
}.

(** The state at program start: the globals' initialisers. *)
Definition static_init : Sfx := {|
  errorSoundKey := 0;
  nextResourceKey := 0;
  sounds := ∅;
  sfxconfiguration := {| _samplingFreq_hz := 0; _sampleFormat := SAMPLE_FORMAT_OTHER;
                         _outputMode := 0; _numMixChannels := 0; _chunkSize := 0 |};
  channelPlayback := [];
  channelVolume := [];
  unloadQueue := []
|}.

(** ** The backend (SDL_mixer) as the module sees it *)

(** SDL_mixer keeps a volume per mix channel ([mix_channel[i].volume]). *)
Record Mixer := {
  mix_channel_volume : list Z
}.

Definition MIX_MAX_VOLUME : Z := 128.
(** [Mix_OpenAudio] starts with [MIX_CHANNELS] channels. *)
Definition MIX_CHANNELS : Z := 8.

Inductive Level := INFO | WARN | ERROR.

(** The message constants of pxr_log.h the module uses. *)
Inductive LogMsg :=
| msg_sfx_initializing
| msg_sfx_fail_open_audio
| msg_sfx_error_sound_usage
| msg_sfx_loading_sound
| msg_sfx_sound_already_loaded
| msg_sfx_fail_load_sound
| msg_sfx_using_error_sound
| msg_sfx_load_sound_success
| msg_sfx_unloading_nonexistent_sound
| msg_sfx_already_unloading_sound
| msg_sfx_playing_nonexistent_sound
| msg_sfx_fail_play_sound.

(** The four backend calls that start playback. *)
Inductive PlayCall :=
| Mix_PlayChannel (loops : Z)
| Mix_PlayChannelTimed (loops ticks : Z)
| Mix_FadeInChannel (loops ms : Z)
| Mix_FadeInChannelTimed (loops ms ticks : Z).

(** What the module does to the outside: log lines and backend calls, in
    order. *)
Inductive Event :=
| Logged (lvl : Level) (msg : LogMsg) (addendum : string)
| Called_Mix_OpenAudio (freq : Z) (fmt : SampleFormat) (mode chunksize : Z)
| Called_Mix_AllocateChannels (n : Z)
| Called_Mix_LoadWAV (path : string)
| Called_Mix_FreeChunk (chunk : option Mix_Chunk)
| Called_Mix_Play (call : PlayCall) (chunk : Mix_Chunk)
| Called_Mix_Volume (channel vol : Z).

Record World := {
  sfx : Sfx;
  mixer : Mixer;
  trace : list Event
}.

(** ** The monad of module functions *)

Inductive Fault := AssertionFailed | UndefinedBehaviour | UncaughtException.

Inductive Result (A : Type) :=
| Done (a : A) (w : World)
| Stopped (f : Fault).
Arguments Done {A} a w.
Arguments Stopped {A} f.

Definition M (A : Type) : Type := World -> Result A.

Definition ret {A} (a : A) : M A := fun w => Done a w.

Definition bind {A B} (m : M A) (k : A -> M B) : M B :=
  fun w => match m w with
           | Done a w' => k a w'
           | Stopped f => Stopped f
           end.

Notation "x <- m ;; k" := (bind m (fun x => k))
  (at level 100, m at next level, right associativity).
Notation "m ;;; k" := (bind m (fun _ => k))
  (at level 100, right associativity).

Definition stop {A} (f : Fault) : M A := fun _ => Stopped f.

Definition assert (b : bool) : M unit :=
  if b then ret tt else stop AssertionFailed.

Definition get : M Sfx := fun w => Done (sfx w) w.

Definition put (s : Sfx) : M unit :=
  fun w => Done tt {| sfx := s; mixer := mixer w; trace := trace w |}.

Definition get_mixer : M Mixer := fun w => Done (mixer w) w.

Definition put_mixer (m : Mixer) : M unit :=
  fun w => Done tt {| sfx := sfx w; mixer := m; trace := trace w |}.

Definition emit (e : Event) : M unit :=
  fun w => Done tt {| sfx := sfx w; mixer := mixer w; trace := trace w ++ [e] |}.

(** [log::log(level, msg, addendum)] *)
Definition log (lvl : Level) (msg : LogMsg) (addendum : string) : M unit :=
  emit (Logged lvl msg addendum).

(** [std::to_string(int)] *)
Definition to_string (n : Z) : string := pretty n.

(* ===================================================================== *)
(** ** Containers and algorithms of the C++ standard library *)
(* ===================================================================== *)

(** [v[i]] on a [std::vector<int>]: defined inside the bounds only. *)
Definition vec_get (v : list Z) (i : Z) : M Z :=
  if i <? 0 then stop UndefinedBehaviour
  else match v !! Z.to_nat i with
       | Some x => ret x
       | None => stop UndefinedBehaviour
       end.

(** [v[i] = x] *)
Definition vec_set (v : list Z) (i : Z) (x : Z) : M (list Z) :=
  if i <? 0 then stop UndefinedBehaviour
  else if (Z.to_nat i <? length v)%nat then ret (<[Z.to_nat i := x]> v)
  else stop UndefinedBehaviour.

(** [v.resize(n, x)]; the count is a [size_t], so a negative [int] asks for
    more than [max_size()] elements and [std::length_error] is thrown. *)
Definition vec_resize (v : list Z) (n : Z) (x : Z) : M (list Z) :=
  if n <? 0 then stop UncaughtException
  else ret (take (Z.to_nat n) v ++ replicate (Z.to_nat n - length v)%nat x).

(** [std::find_if(first, last, p) - first]: the index of the first element
    that satisfies [p], the length when there is none. *)
Fixpoint find_if {A} (p : A -> bool) (l : list A) : nat :=
  match l with
  | [] => O
  | x :: l' => if p x then O else S (find_if p l')
  end.

(** [std::find(first, last, key) - first] *)
Definition find (l : list Z) (key : Z) : nat := find_if (Z.eqb key) l.

(** The loop of [std::remove_if]: [first] reads, [result] writes, [n] elements
    are left to read. *)
Fixpoint remove_if_loop {A} (p : A -> bool) (n first result : nat) (a : list A)
  : list A * nat :=
  match n with
  | O => (a, result)
  | S n' =>
      match a !! first with
      | None => (a, result)
      | Some x =>
          if p x then remove_if_loop p n' (S first) result a
          else remove_if_loop p n' (S first) (S result) (<[result := x]> a)
      end
  end.

(** [std::remove_if(begin, end, p)] on the array [a]: the array as the
    algorithm leaves it, and the index of the iterator it returns.  The
    elements that do not satisfy [p] are moved to the front in order; the
    algorithm writes nowhere else, so from the returned index on the array
    holds whatever it held before (for [int], a move is a copy). *)
Definition remove_if {A} (p : A -> bool) (a : list A) : list A * nat :=
  let first := find_if p a in
  if (first =? length a)%nat then (a, first)
  else remove_if_loop p (length a - S first)%nat (S first) first a.

(** [m.emplace(k, v)]: inserts unless the key is already there. *)
Definition emplace (k : Z) (v : SoundResource) (m : gmap Z SoundResource)
  : gmap Z SoundResource :=
  match m !! k with
  | Some _ => m
  | None => <[k := v]> m
  end.

(** [std::clamp(v, lo, hi)] *)
Definition clamp (v lo hi : Z) : Z :=
  if v <? lo then lo else if hi <? v then hi else v.

(* ===================================================================== *)
(** ** Field updates *)
(* ===================================================================== *)

Definition set_errorSoundKey (k : Z) (s : Sfx) : Sfx :=
  {| errorSoundKey := k; nextResourceKey := nextResourceKey s; sounds := sounds s;
     sfxconfiguration := sfxconfiguration s; channelPlayback := channelPlayback s;
     channelVolume := channelVolume s; unloadQueue := unloadQueue s |}.

Definition set_nextResourceKey (k : Z) (s : Sfx) : Sfx :=
  {| errorSoundKey := errorSoundKey s; nextResourceKey := k; sounds := sounds s;
     sfxconfiguration := sfxconfiguration s; channelPlayback := channelPlayback s;
     channelVolume := channelVolume s; unloadQueue := unloadQueue s |}.

Definition set_sounds (m : gmap Z SoundResource) (s : Sfx) : Sfx :=
  {| errorSoundKey := errorSoundKey s; nextResourceKey := nextResourceKey s; sounds := m;
     sfxconfiguration := sfxconfiguration s; channelPlayback := channelPlayback s;
     channelVolume := channelVolume s; unloadQueue := unloadQueue s |}.

Definition set_sfxconfiguration (c : SFXConfiguration) (s : Sfx) : Sfx :=
  {| errorSoundKey := errorSoundKey s; nextResourceKey := nextResourceKey s; sounds := sounds s;
     sfxconfiguration := c; channelPlayback := channelPlayback s;
     channelVolume := channelVolume s; unloadQueue := unloadQueue s |}.

Definition set_channelPlayback (v : list Z) (s : Sfx) : Sfx :=
  {| errorSoundKey := errorSoundKey s; nextResourceKey := nextResourceKey s; sounds := sounds s;
     sfxconfiguration := sfxconfiguration s; channelPlayback := v;
     channelVolume := channelVolume s; unloadQueue := unloadQueue s |}.

Definition set_channelVolume (v : list Z) (s : Sfx) : Sfx :=
  {| errorSoundKey := errorSoundKey s; nextResourceKey := nextResourceKey s; sounds := sounds s;
     sfxconfiguration := sfxconfiguration s; channelPlayback := channelPlayback s;
     channelVolume := v; unloadQueue := unloadQueue s |}.

Definition set_unloadQueue (q : list Z) (s : Sfx) : Sfx :=
  {| errorSoundKey := errorSoundKey s; nextResourceKey := nextResourceKey s; sounds := sounds s;
     sfxconfiguration := sfxconfiguration s; channelPlayback := channelPlayback s;
     channelVolume := channelVolume s; unloadQueue := q |}.

(** [r._referenceCount++] *)
Definition incr_referenceCount (r : SoundResource) : SoundResource :=
  {| _name := _name r; _chunk := _chunk r; _referenceCount := _referenceCount r + 1 |}.

(** A range-based loop whose body returns nothing. *)
Fixpoint for_each {A} (body : A -> M unit) (l : list A) : M unit :=
  match l with
  | [] => ret tt
  | x :: l' => body x ;;; for_each body l'
  end.

(* ===================================================================== *)
(** ** SDL_mixer calls whose effect the module reads back *)
(* ===================================================================== *)

(** What [Mix_Volume] stores for a channel whose volume was [old]: a negative
    volume is a query, a volume above [MIX_MAX_VOLUME] is capped. *)
Definition mix_new_volume (volume old : Z) : Z :=
  if volume <? 0 then old
  else if MIX_MAX_VOLUME <? volume then MIX_MAX_VOLUME
  else volume.

(** [Mix_Volume(which, volume)] as SDL_mixer documents and implements it:
    it sets the channel's volume and returns the volume the channel had
    BEFORE the call; with [which = -1] it does so for every channel and
    returns the average of the previous volumes; a channel that is not
    allocated is left alone and 0 is returned. *)
Definition Mix_Volume (which volume : Z) : M Z :=
  emit (Called_Mix_Volume which volume) ;;;
  m <- get_mixer ;;
  let vols := mix_channel_volume m in
  if which =? -1 then
    match vols with
    | [] => stop UndefinedBehaviour
    | _ => put_mixer {| mix_channel_volume := map (mix_new_volume volume) vols |} ;;;
           ret (Z.quot (foldr Z.add 0 vols) (Z.of_nat (length vols)))
    end
  else if which <? 0 then stop UndefinedBehaviour
  else match vols !! Z.to_nat which with
       | Some prev =>
           put_mixer {| mix_channel_volume :=
                          <[Z.to_nat which := mix_new_volume volume prev]> vols |} ;;;
           ret prev
       | None => ret 0
       end.

(** [Mix_OpenAudio] when it succeeds: [MIX_CHANNELS] channels at full
    volume. *)
Definition Mix_OpenAudio_ok : M unit :=
  put_mixer {| mix_channel_volume := replicate (Z.to_nat MIX_CHANNELS) MIX_MAX_VOLUME |}.

(** [Mix_AllocateChannels(n)]: keeps the first [n] channels, new channels
    start at full volume; a negative [n] is a query. *)
Definition Mix_AllocateChannels (n : Z) : M unit :=
  emit (Called_Mix_AllocateChannels n) ;;;
  m <- get_mixer ;;
  let vols := mix_channel_volume m in
  if n <? 0 then ret tt
  else put_mixer {| mix_channel_volume :=
                      take (Z.to_nat n) vols
                      ++ replicate (Z.to_nat n - length vols)%nat MIX_MAX_VOLUME |}.

(* ===================================================================== *)
(** ** Module functions *)
(* ===================================================================== *)

Section Functions.
Context `{Platform}.

Definition onChannelFinished (channel : Z) : M unit :=
  s <- get ;;
  assert ((0 <=? channel) && (channel <? _numMixChannels (sfxconfiguration s))) ;;;
  v <- vec_set (channelPlayback s) channel nullResourceKey ;;
  put (set_channelPlayback v s).

(** [sizeof(T)] of the sample type a format selects. *)
Definition sizeof (fmt : SampleFormat) : Z :=
  match fmt with
  | SAMPLE_FORMAT_U8 | SAMPLE_FORMAT_S8 => 1
  | SAMPLE_FORMAT_U16LSB | SAMPLE_FORMAT_S16LSB => 2
  | _ => 4
  end.

(** [int sampleCount = sfxconfiguration._samplingFreq_hz * waveDuration_s;]
    -- the [int] is converted to [float], the product is a [float], and the
    initialisation converts it back to [int]. *)
Definition sampleCount_of (samplingFreq_hz : Z) (waveDuration_s : float) : option Z :=
  int_of_float (fmul (float_of_int samplingFreq_hz) waveDuration_s).

(** [std::numeric_limits<T>] of the sample type a format selects. *)
Definition is_signed (fmt : SampleFormat) : bool :=
  match fmt with
  | SAMPLE_FORMAT_U8 | SAMPLE_FORMAT_U16LSB => false
  | _ => true
  end.

Definition limits_min (fmt : SampleFormat) : Z :=
  match fmt with
  | SAMPLE_FORMAT_U8 | SAMPLE_FORMAT_U16LSB => 0
  | SAMPLE_FORMAT_S8 => - 2 ^ 7
  | SAMPLE_FORMAT_S16LSB => - 2 ^ 15
  | _ => - 2 ^ 31
  end.

Definition limits_max (fmt : SampleFormat) : Z :=
  match fmt with
  | SAMPLE_FORMAT_U8 => 2 ^ 8 - 1
  | SAMPLE_FORMAT_S8 => 2 ^ 7 - 1
  | SAMPLE_FORMAT_U16LSB => 2 ^ 16 - 1
  | SAMPLE_FORMAT_S16LSB => 2 ^ 15 - 1
  | _ => 2 ^ 31 - 1
  end.

(** [static_cast<T>(x)] *)
Definition cast_sample (fmt : SampleFormat) (x : float) : option Z :=
  cast_float (limits_min fmt) (limits_max fmt) x.

(** [float waveFreq_rad_per_s {waveFreq_hz * 2.f * M_PI};] -- the product
    with [2.f] is a [float], the product with [M_PI] a [double], and the
    initialisation converts it to [float]. *)
Definition waveFreq_rad_per_s_of (waveFreq_hz : Z) : float :=
  float_of_double (dmul (fmul (float_of_int waveFreq_hz) ftwo) M_PI).

(** [float samplePeriod_s = 1.f / sfxconfiguration._samplingFreq_hz;] *)
Definition samplePeriod_s_of (samplingFreq_hz : Z) : float :=
  fdiv fone (float_of_int samplingFreq_hz).

(** One turn of the sample loop: what it leaves in [pcm[s]], [Some None] when
    it writes nothing, and [None] when a conversion it makes is undefined. *)
Definition beep_sample (fmt : SampleFormat) (waveFreq_rad_per_s samplePeriod_s : float)
    (s : Z) : option (option Z) :=
  let sf := sinf (fmul waveFreq_rad_per_s (fmul (float_of_int s) samplePeriod_s)) in
  if is_signed fmt then
    slot ← (if flt sf fzero
            then Some <$> cast_sample fmt (fmul sf (float_of_int (limits_min fmt)))
            else Some None);
    if fge sf fzero
    then Some <$> cast_sample fmt (fmul sf (float_of_int (limits_max fmt)))
    else Some slot
  else
    Some <$> cast_sample fmt (fmul (fadd sf fone) (float_of_int (limits_max fmt / 2))).

(** The sample loop, for [s] from 0 to [sampleCount - 1]. *)
Definition beep_samples (fmt : SampleFormat) (samplingFreq_hz waveFreq_hz sampleCount : Z)
    : option (list (option Z)) :=
  mapM (beep_sample fmt (waveFreq_rad_per_s_of waveFreq_hz)
          (samplePeriod_s_of samplingFreq_hz))
       (seqZ 0 sampleCount).

(** [generateSineBeep<T>]; [fmt] stands for the template argument.  [alen] is
    a [Uint32]. *)
Definition generateSineBeep (fmt : SampleFormat) (waveFreq_hz : Z) (waveDuration_s : float)
  : M Mix_Chunk :=
  s <- get ;;
  let samplingFreq_hz := _samplingFreq_hz (sfxconfiguration s) in
  match sampleCount_of samplingFreq_hz waveDuration_s with
  | None => stop UndefinedBehaviour
  | Some sampleCount =>
      if sampleCount <? 0 then stop UncaughtException
      else
        match beep_samples fmt samplingFreq_hz waveFreq_hz sampleCount with
        | None => stop UndefinedBehaviour
        | Some pcm =>
            ret {| allocated := 1;
                   abuf := pcm;
                   alen := (sampleCount * sizeof fmt) mod 2 ^ 32;
                   volume := errorSoundVolume |}
        end
  end.

Definition generateErrorSound (format : SampleFormat) : M unit :=
  chunk <- match format with
           | SAMPLE_FORMAT_U8 | SAMPLE_FORMAT_S8 | SAMPLE_FORMAT_U16LSB
           | SAMPLE_FORMAT_S16LSB | SAMPLE_FORMAT_S32LSB =>
               generateSineBeep format errorSoundFreq_hz errorSoundDuration_s
           | _ => stop AssertionFailed
           end ;;
  s <- get ;;
  let resource := {| _name := errorSoundName; _chunk := Some chunk; _referenceCount := 0 |} in
  let key := nextResourceKey s in
  put (set_sounds (emplace key resource (sounds s))
         (set_errorSoundKey key (set_nextResourceKey (key + 1) s))).

(** [initialize]; [open_result] is what [Mix_OpenAudio] returns and [error]
    what [Mix_GetError] returns if it is called.  [logSpec] only queries the
    backend and writes log lines; it is left out. *)
Definition initialize (open_result : Z) (error : string) (sfxconf : SFXConfiguration)
  : M bool :=
  assert (negb (SDL_AUDIO_ISFLOAT (_sampleFormat sfxconf))) ;;;
  log INFO msg_sfx_initializing "" ;;;
  s <- get ;;
  put (set_sfxconfiguration sfxconf s) ;;;
  emit (Called_Mix_OpenAudio (_samplingFreq_hz sfxconf) (_sampleFormat sfxconf)
          (_outputMode sfxconf) (_chunkSize sfxconf)) ;;;
  if negb (open_result =? 0) then
    log ERROR msg_sfx_fail_open_audio error ;;;
    ret false
  else
    Mix_OpenAudio_ok ;;;
    Mix_AllocateChannels (_numMixChannels sfxconf) ;;;
    s <- get ;;
    cp <- vec_resize (channelPlayback s) (_numMixChannels sfxconf) nullResourceKey ;;
    cv <- vec_resize (channelVolume s) (_numMixChannels sfxconf) MAX_VOLUME ;;
    put (set_channelVolume cv (set_channelPlayback cp s)) ;;;
    generateErrorSound (_sampleFormat sfxconf) ;;;
    ret true.

Definition unloadSound (soundKey : Z) : M unit :=
  s <- get ;;
  assert (negb (soundKey =? errorSoundKey s)) ;;;
  match sounds s !! soundKey with
  | None => stop AssertionFailed
  | Some r =>
      emit (Called_Mix_FreeChunk (_chunk r)) ;;;
      put (set_sounds (delete soundKey (sounds s)) s)
  end.

(** The predicate handed to [std::remove_if]: the key is on no channel. *)
Definition not_playing (channels : list Z) (key : Z) : bool :=
  (find channels key =? length channels)%nat.

Definition unloadUnusedSounds : M unit :=
  s <- get ;;
  let '(queue, first) := remove_if (not_playing (channelPlayback s)) (unloadQueue s) in
  put (set_unloadQueue queue s) ;;;
  for_each unloadSound (drop first queue) ;;;
  s <- get ;;
  put (set_unloadQueue (take first (unloadQueue s)) s).

Definition service : M unit := unloadUnusedSounds.

Definition returnErrorSound : M Z :=
  s <- get ;;
  match sounds s !! errorSoundKey s with
  | None => stop AssertionFailed
  | Some r =>
      let r' := incr_referenceCount r in
      put (set_sounds (<[errorSoundKey s := r']> (sounds s)) s) ;;;
      log INFO msg_sfx_error_sound_usage (to_string (_referenceCount r')) ;;;
      ret (errorSoundKey s)
  end.

(** The first entry with the given name, in iteration order. *)
Definition find_by_name (soundName : string) (entries : list (Z * SoundResource))
  : option (Z * SoundResource) :=
  List.find (fun pair => String.eqb (_name (snd pair)) soundName) entries.

(** [loadSoundWAV]; [decoded] is what [Mix_LoadWAV] returns if it is called. *)
Definition loadSoundWAV (decoded : option Mix_Chunk) (soundName : string) : M Z :=
  log INFO msg_sfx_loading_sound soundName ;;;
  s <- get ;;
  match find_by_name soundName (map_to_list (sounds s)) with
  | Some (key, r) =>
      let r' := incr_referenceCount r in
      put (set_sounds (<[key := r']> (sounds s)) s) ;;;
      log INFO msg_sfx_sound_already_loaded
        ("reference count=" +:+ to_string (_referenceCount r')) ;;;
      ret key
  | None =>
      let wavpath := RESOURCE_PATH_SOUNDS +:+ soundName +:+ FILE_EXTENSION in
      emit (Called_Mix_LoadWAV wavpath) ;;;
      match decoded with
      | None =>
          log ERROR msg_sfx_fail_load_sound wavpath ;;;
          log INFO msg_sfx_using_error_sound wavpath ;;;
          returnErrorSound
      | Some chunk =>
          let resource := {| _name := soundName; _chunk := Some chunk; _referenceCount := 1 |} in
          let newKey := nextResourceKey s in
          put (set_sounds (emplace newKey resource (sounds s))
                 (set_nextResourceKey (newKey + 1) s)) ;;;
          log INFO msg_sfx_load_sound_success
            ("[name:key]=[" +:+ soundName +:+ ":" +:+ to_string newKey +:+ "]") ;;;
          ret newKey
      end
  end.

Definition queueUnloadSound (soundKey : Z) : M unit :=
  s <- get ;;
  assert (negb (soundKey =? errorSoundKey s)) ;;;
  match sounds s !! soundKey with
  | None => log WARN msg_sfx_unloading_nonexistent_sound (to_string soundKey)
  | Some _ =>
      if negb (find (unloadQueue s) soundKey =? length (unloadQueue s))%nat then
        log WARN msg_sfx_already_unloading_sound (to_string soundKey)
      else
        put (set_unloadQueue (unloadQueue s ++ [soundKey]) s)
  end.

Definition findChunk (soundKey : Z) : M (option Mix_Chunk) :=
  s <- get ;;
  match sounds s !! soundKey with
  | None =>
      log WARN msg_sfx_playing_nonexistent_sound (to_string soundKey) ;;;
      ret None
  | Some r => ret (_chunk r)
  end.

(** [onPlayError]; [error] is what [Mix_GetError] returns. *)
Definition onPlayError (error : string) (soundKey : Z) : M Z :=
  log WARN msg_sfx_fail_play_sound (to_string soundKey +:+ " : " +:+ error) ;;;
  ret NULL_CHANNEL.

(** The lines the four play functions share after the backend call:
    [channel] is what the backend returned. *)
Definition recordPlayback (error : string) (soundKey channel : Z) : M Z :=
  if channel =? -1 then onPlayError error soundKey
  else
    s <- get ;;
    occupant <- vec_get (channelPlayback s) channel ;;
    assert (occupant =? nullResourceKey) ;;;
    v <- vec_set (channelPlayback s) channel soundKey ;;
    put (set_channelPlayback v s) ;;;
    ret channel.

(** The play functions; [channel] is what the backend call returns and
    [error] what [Mix_GetError] returns if it is called, after a call that
    failed. *)
Definition playSound (channel : Z) (error : string) (soundKey loops : Z) : M Z :=
  chunk <- findChunk soundKey ;;
  match chunk with
  | None => ret NULL_CHANNEL
  | Some c =>
      emit (Called_Mix_Play (Mix_PlayChannel loops) c) ;;;
      recordPlayback error soundKey channel
  end.

Definition playSoundTimed (channel : Z) (error : string)
    (soundKey loops playDuration_ms : Z) : M Z :=
  chunk <- findChunk soundKey ;;
  match chunk with
  | None => ret NULL_CHANNEL
  | Some c =>
      emit (Called_Mix_Play (Mix_PlayChannelTimed loops playDuration_ms) c) ;;;
      recordPlayback error soundKey channel
  end.

Definition playSoundFadeIn (channel : Z) (error : string)
    (soundKey loops fadeDuration_ms : Z) : M Z :=
  chunk <- findChunk soundKey ;;
  match chunk with
  | None => ret NULL_CHANNEL
  | Some c =>
      emit (Called_Mix_Play (Mix_FadeInChannel loops fadeDuration_ms) c) ;;;
      recordPlayback error soundKey channel
  end.

Definition playSoundFadeInTimed (channel : Z) (error : string)
    (soundKey loops fadeDuration_ms playDuration_ms : Z) : M Z :=
  chunk <- findChunk soundKey ;;
  match chunk with
  | None => ret NULL_CHANNEL
  | Some c =>
      emit (Called_Mix_Play (Mix_FadeInChannelTimed loops fadeDuration_ms playDuration_ms) c) ;;;
      recordPlayback error soundKey channel
  end.

Definition setChannelVolume (channel volume : Z) : M unit :=
  if channel =? NULL_CHANNEL then ret tt
  else
    s <- get ;;
    assert ((ALL_CHANNELS <=? channel)
            && (channel <=? _numMixChannels (sfxconfiguration s) - 1)) ;;;
    let vol := clamp volume MIN_VOLUME MAX_VOLUME in
    returned <- Mix_Volume channel vol ;;
    v <- vec_set (channelVolume s) channel returned ;;
    put (set_channelVolume v s).

Definition getChannelVolume (channel : Z) : M Z :=
  if channel =? NULL_CHANNEL then ret 0
  else
    s <- get ;;
    assert ((ALL_CHANNELS <=? channel)
            && (channel <=? _numMixChannels (sfxconfiguration s) - 1)) ;;;
    vec_get (channelVolume s) channel.

End Functions.

(** The names in the table, in iteration order. *)
Definition table_names (m : gmap Z SoundResource) : list string :=
  map (fun pair => _name (snd pair)) (map_to_list m).

(** No two entries of the table carry the same name. *)
Definition names_unique (m : gmap Z SoundResource) : Prop := NoDup (table_names m).

(** The keys of the queue that are on some channel, in queue order. *)
Definition still_playing (channels queue : list Z) : list Z :=
  List.filter (fun key => negb (not_playing channels key)) queue.

(** Truncation of a rational toward zero. *)
Definition Qtrunc (q : Q) : Z := Z.quot (Qnum q) (Z.pos (Qden q)).

(** Rounding of a rational to the nearest integer, halves away from zero
    (C's [round]). *)
Definition Qround_nearest (q : Q) : Z :=
  if Qle_bool 0 q then Qfloor (q + (1 # 2)) else Qceiling (q - (1 # 2)).

(** The sample count as the specification words it:
    [round(samplingRate_hz * duration_s)]. *)
Definition spec_sampleCount (samplingRate_hz : Z) (duration_s : Q) : Z :=
  Qround_nearest (inject_Z samplingRate_hz * duration_s).

(** ** Observations on a trace *)

(** The paths handed to [Mix_LoadWAV] so far. *)
Definition decode_attempts (t : list Event) : list string :=
  omap (fun e => match e with Called_Mix_LoadWAV path => Some path | _ => None end) t.

(** The chunks handed to [Mix_FreeChunk] so far. *)
Definition freed_chunks (t : list Event) : list (option Mix_Chunk) :=
  omap (fun e => match e with Called_Mix_FreeChunk c => Some c | _ => None end) t.

(* ===================================================================== *)
(** ** Runs of the module: the worlds the examples start from *)
(* ===================================================================== *)

(** Modelled from the spec: pxr_sfx.h and pxr_wav.h are not among the
    sources, so the values below stand in for their constants in the runs of
    this section.  [MIN_VOLUME] is the 0 of "clamped to [0, MAX_VOLUME]";
    [MAX_VOLUME] is SDL_mixer's full volume; [ALL_CHANNELS] is the channel
    number SDL_mixer reads as "every channel"; [NULL_CHANNEL] is a number
    outside the channel range.  The resource path and extension are
    placeholders.  [sinf] stands in for the C library's and returns 0
    (silence): the runs use unsigned sample formats, for which the sample
    loop converts [(sf + 1.f) * (max / 2)], a value inside the range of the
    sample type for every [sf] between -1 and 1, and no statement looks at
    the value of a sample. *)
Definition pxr_platform : Platform := {|
  MAX_VOLUME := 128;
  MIN_VOLUME := 0;
  NULL_CHANNEL := -2;
  ALL_CHANNELS := -1;
  RESOURCE_PATH_SOUNDS := "assets/sounds/";
  FILE_EXTENSION := ".wav";
  sinf := fun _ => fzero
|}.

(** The world at program start. *)
Definition boot : World :=
  {| sfx := static_init;
     mixer := {| mix_channel_volume := [] |};
     trace := [] |}.

(** The world a program leaves behind ([w] itself if it stops). *)
Definition world_after {A} (prog : M A) (w : World) : World :=
  match prog w with
  | Done _ w' => w'
  | Stopped _ => w
  end.

Definition two_channels : SFXConfiguration :=
  {| _samplingFreq_hz := 8000; _sampleFormat := SAMPLE_FORMAT_U8;
     _outputMode := 2; _numMixChannels := 2; _chunkSize := 1024 |}.

(** A decoded clip. *)
Definition clip (samples : list Z) : Mix_Chunk :=
  {| allocated := 1; abuf := Some <$> samples;
     alen := 2 * Z.of_nat (length samples); volume := 128 |}.

(** [0.75f] *)
Definition three_quarters : float := S754_finite false 12582912 (-24).

(** The module data as [initialize] has them when it calls
    [generateErrorSound], for a given sampling rate. *)
Definition beep_world (samplingFreq_hz : Z) : World :=
  {| sfx := set_sfxconfiguration
              {| _samplingFreq_hz := samplingFreq_hz; _sampleFormat := SAMPLE_FORMAT_U8;
                 _outputMode := 2; _numMixChannels := 2; _chunkSize := 1024 |}
              static_init;
     mixer := {| mix_channel_volume := replicate 2 MIX_MAX_VOLUME |};
     trace := [] |}.

Section Run_definitions.
#[local] Existing Instance pxr_platform.

(** After [initialize]. *)
Definition w_init : World :=
  Eval vm_compute in world_after (initialize 0 "" two_channels) boot.

(** After [initialize] and one successful load of "explosion" (key 1). *)
Definition w_explosion : World :=
  world_after (loadSoundWAV (Some (clip [3; 1; 4])) "explosion") w_init.

(** Two sounds loaded ("a" is key 1, "b" is key 2), "b" playing on channel 0,
    and both queued for unloading, "a" first. *)
Definition queue_two : M unit :=
  initialize 0 "" two_channels ;;;
  a <- loadSoundWAV (Some (clip [1; 2])) "a" ;;
  b <- loadSoundWAV (Some (clip [3; 4])) "b" ;;
  playSound 0 "" b 0 ;;;
  queueUnloadSound a ;;;
  queueUnloadSound b.

Definition w_queue_two : World := world_after queue_two boot.

(** Two sounds loaded and queued, "a" (key 1, playing on channel 0) ahead of
    "b" (key 2, on no channel). *)
Definition w_playing_first : World :=
  world_after (loadSoundWAV (Some (clip [1; 2])) "a" ;;;
               loadSoundWAV (Some (clip [3; 4])) "b" ;;;
               playSound 0 "" 1 0 ;;;
               queueUnloadSound 1 ;;;
               queueUnloadSound 2) w_init.

(** "explosion" loaded, playing on channel 0 and queued. *)
Definition w_pending : World :=
  world_after (playSound 0 "" 1 0 ;;; queueUnloadSound 1) w_explosion.

End Run_definitions.

(** The table with the entries of the given keys erased, one after another. *)
Definition erase_all (keys : list Z) (m : gmap Z SoundResource) : gmap Z SoundResource :=
  foldl (fun m' k => delete k m') m keys.

(** The chunk pointer the table holds for a key ([nullptr] for no entry). *)
Definition chunk_at (m : gmap Z SoundResource) (k : Z) : option Mix_Chunk :=
  match m !! k with
  | Some r => _chunk r
  | None => None
  end.

(* ===================================================================== *)
(** ** Consistency of the module data, and the states a client can reach *)
(* ===================================================================== *)

(** The key has been handed out: keys are the values the counter
    [nextResourceKey] has passed. *)
Definition key_issued (s : Sfx) (k : Z) : Prop := 0 <= k < nextResourceKey s.

(** The fallback sound is in the table under [errorSoundKey], with its
    reserved name and a chunk. *)
Definition fallback_present (s : Sfx) : Prop :=
  exists r, sounds s !! errorSoundKey s = Some r
            /\ _name r = errorSoundName /\ is_Some (_chunk r).

Definition table_ok (s : Sfx) : Prop :=
  fallback_present s
  /\ names_unique (sounds s)
  /\ (forall k, is_Some (sounds s !! k) -> key_issued s k).

Definition queue_ok (s : Sfx) : Prop :=
  NoDup (unloadQueue s)
  /\ (errorSoundKey s ∉ unloadQueue s)
  /\ Forall (key_issued s) (unloadQueue s).

(** The channel arrays of the module and of the backend have one slot per
    mix channel, and an occupant is the null key or a key handed out. *)
Definition channels_ok (w : World) : Prop :=
  0 <= _numMixChannels (sfxconfiguration (sfx w))
  /\ length (channelPlayback (sfx w)) = Z.to_nat (_numMixChannels (sfxconfiguration (sfx w)))
  /\ length (channelVolume (sfx w)) = Z.to_nat (_numMixChannels (sfxconfiguration (sfx w)))
  /\ length (mix_channel_volume (mixer w))
     = Z.to_nat (_numMixChannels (sfxconfiguration (sfx w)))
  /\ Forall (fun k => k = nullResourceKey \/ key_issued (sfx w) k) (channelPlayback (sfx w)).

Definition consistent (w : World) : Prop :=
  table_ok (sfx w) /\ queue_ok (sfx w) /\ channels_ok w.

(** No conversion the sample loop makes is undefined. *)
Definition samples_defined `{Platform} (fmt : SampleFormat)
    (samplingFreq_hz waveFreq_hz sampleCount : Z) : Prop :=
  is_Some (beep_samples fmt samplingFreq_hz waveFreq_hz sampleCount).

(** The formats [generateErrorSound] has a case for. *)
Definition supported_format (f : SampleFormat) : bool :=
  match f with
  | SAMPLE_FORMAT_U8 | SAMPLE_FORMAT_S8 | SAMPLE_FORMAT_U16LSB
  | SAMPLE_FORMAT_S16LSB | SAMPLE_FORMAT_S32LSB => true
  | _ => false
  end.

Section Play_functions.
Context `{Platform}.

(** The play function that makes a given backend call. *)
Definition play_by (call : PlayCall) (answer : Z) (error : string) (soundKey : Z) : M Z :=
  match call with
  | Mix_PlayChannel loops => playSound answer error soundKey loops
  | Mix_PlayChannelTimed loops ms => playSoundTimed answer error soundKey loops ms
  | Mix_FadeInChannel loops ms => playSoundFadeIn answer error soundKey loops ms
  | Mix_FadeInChannelTimed loops fade_ms play_ms =>
      playSoundFadeInTimed answer error soundKey loops fade_ms play_ms
  end.

End Play_functions.

Section Reachability.
Context `{Platform}.

(** One call into the module that returns: a call of the client, or the
    completion callback of the backend.  The answers of the backend are
    arbitrary. *)
Inductive step : World -> World -> Prop :=
| step_loadSoundWAV decoded soundName w key w' :
    loadSoundWAV decoded soundName w = Done key w' -> step w w'
| step_queueUnloadSound soundKey w w' :
    queueUnloadSound soundKey w = Done tt w' -> step w w'
| step_service w w' :
    service w = Done tt w' -> step w w'
| step_playSound answer error soundKey loops w channel w' :
    playSound answer error soundKey loops w = Done channel w' -> step w w'
| step_playSoundTimed answer error soundKey loops ms w channel w' :
    playSoundTimed answer error soundKey loops ms w = Done channel w' -> step w w'
| step_playSoundFadeIn answer error soundKey loops ms w channel w' :
    playSoundFadeIn answer error soundKey loops ms w = Done channel w' -> step w w'
| step_playSoundFadeInTimed answer error soundKey loops fade_ms play_ms w channel w' :
    playSoundFadeInTimed answer error soundKey loops fade_ms play_ms w = Done channel w' ->
    step w w'
| step_onChannelFinished channel w w' :
    onChannelFinished channel w = Done tt w' -> step w w'
| step_setChannelVolume channel volume w w' :
    setChannelVolume channel volume w = Done tt w' -> step w w'
| step_getChannelVolume channel w volume w' :
    getChannelVolume channel w = Done volume w' -> step w w'.

(** The worlds a program can be in after a successful [initialize] at program
    start. *)
Inductive reachable : World -> Prop :=
| reachable_initialize sfxconf error w0 w :
    sfx w0 = static_init ->
    initialize 0 error sfxconf w0 = Done true w ->
    reachable w
| reachable_step w w' :
    reachable w -> step w w' -> reachable w'.

End Reachability.

(* ===================================================================== *)
(** * The play scene of the snake game (source/play_scene.cpp)

    The scene holds the snake as an array of blocks, [_snake], of which the
    blocks [SNAKE_HEAD_BLOCK .. _snakeLength - 1] are in use, the direction of
    the next step and the direction the player asked for, and a clock.

    Conventions.
    - the coordinates and the sprite id of a block are [int]s.  Arithmetic on
      coordinates is checked: a result outside [INT_MIN, INT_MAX] is signed
      overflow and ends the run with [UndefinedBehaviour].  Block indices
      are compared with the bounds of [_snake] at every access, which ends
      the run the same way when they are outside.
    - a failed [assert] ends the run with [AssertionFailed].
    - what [input::isKeyPressed] answers for the four keys is an argument of
      [handleInput], in the order of the calls.
    - [onInit], [onDraw] and [drawSnake], which only forward to the engine
      and the renderer, are not modelled. *)
(* ===================================================================== *)

(** [Snake::Direction] (snake.h): the four values the scene names.  The
    [default] branches of the scene's switches are for other values, which
    no assignment of the scene produces. *)
Inductive Direction := NORTH | SOUTH | EAST | WEST.

#[global] Instance Direction_eq_dec : EqDecision Direction.
Proof. solve_decision. Defined.

(** [Vector2i] (pxr_vec.h) *)
Record Vector2i := { _x : Z; _y : Z }.

(** [SnakeBlock] (play_scene.h) *)
Record SnakeBlock := { _row : Z; _col : Z; _spriteid : Z }.

(** What the scene takes from snake.h and play_scene.h.  The three sprite
    trees are arrays indexed by [Snake::Direction]. *)
Class SnakeHeader := {
  SNAKE_HEAD_BLOCK : Z;
  boardSize : Vector2i;
  babySnakeLength : Z;
  snakeHeadSpawnCol : Z;
  snakeHeadSpawnRow : Z;
  stepPeriod_s : float;
  snakeHeadBlockTree : Direction -> Z;
  snakeBodyBlockTree : Direction -> Direction -> Z;
  snakeTailBlockTree : Direction -> Z
}.

(** The data members of [PlayScene]. *)
Record PlayScene := {
  _snake : list SnakeBlock;
  _snakeLength : Z;
  _nextMoveDirection : Direction;
  _currentMoveDirection : Direction;
  _stepClock_s : float
}.

Definition with_snake (snake : list SnakeBlock) (p : PlayScene) : PlayScene :=
  {| _snake := snake; _snakeLength := _snakeLength p;
     _nextMoveDirection := _nextMoveDirection p;
     _currentMoveDirection := _currentMoveDirection p;
     _stepClock_s := _stepClock_s p |}.

Definition with_snakeLength (n : Z) (p : PlayScene) : PlayScene :=
  {| _snake := _snake p; _snakeLength := n;
     _nextMoveDirection := _nextMoveDirection p;
     _currentMoveDirection := _currentMoveDirection p;
     _stepClock_s := _stepClock_s p |}.

Definition with_nextMoveDirection (d : Direction) (p : PlayScene) : PlayScene :=
  {| _snake := _snake p; _snakeLength := _snakeLength p;
     _nextMoveDirection := d;
     _currentMoveDirection := _currentMoveDirection p;
     _stepClock_s := _stepClock_s p |}.

Definition with_currentMoveDirection (d : Direction) (p : PlayScene) : PlayScene :=
  {| _snake := _snake p; _snakeLength := _snakeLength p;
     _nextMoveDirection := _nextMoveDirection p;
     _currentMoveDirection := d;
     _stepClock_s := _stepClock_s p |}.

Definition with_stepClock_s (t : float) (p : PlayScene) : PlayScene :=
  {| _snake := _snake p; _snakeLength := _snakeLength p;
     _nextMoveDirection := _nextMoveDirection p;
     _currentMoveDirection := _currentMoveDirection p;
     _stepClock_s := t |}.

Definition with_row (r : Z) (b : SnakeBlock) : SnakeBlock :=
  {| _row := r; _col := _col b; _spriteid := _spriteid b |}.

Definition with_col (c : Z) (b : SnakeBlock) : SnakeBlock :=
  {| _row := _row b; _col := c; _spriteid := _spriteid b |}.

Definition with_spriteid (id : Z) (b : SnakeBlock) : SnakeBlock :=
  {| _row := _row b; _col := _col b; _spriteid := id |}.

(** ** The outcome of a scene function: it returns, or the run ends *)

Inductive Outcome (A : Type) :=
| Returns (a : A)
| Fails (f : Fault).
Arguments Returns {A} a.
Arguments Fails {A} f.

#[global] Instance Outcome_ret : MRet Outcome := @Returns.

#[global] Instance Outcome_bind : MBind Outcome :=
  fun A B k m => match m with
                 | Returns a => k a
                 | Fails f => Fails f
                 end.

Definition ensure (b : bool) : Outcome unit :=
  if b then Returns tt else Fails AssertionFailed.

(** The value of an [int] expression. *)
Definition int_value (z : Z) : Outcome Z :=
  if (INT_MIN <=? z) && (z <=? INT_MAX) then Returns z
  else Fails UndefinedBehaviour.

(** [_snake[i]], read. *)
Definition block_at (snake : list SnakeBlock) (i : Z) : Outcome SnakeBlock :=
  if i <? 0 then Fails UndefinedBehaviour
  else match snake !! Z.to_nat i with
       | Some b => Returns b
       | None => Fails UndefinedBehaviour
       end.

(** [_snake[i].member = value], as the change [f] of the block. *)
Definition set_block (snake : list SnakeBlock) (i : Z)
    (f : SnakeBlock -> SnakeBlock) : Outcome (list SnakeBlock) :=
  if i <? 0 then Fails UndefinedBehaviour
  else if (Z.to_nat i <? length snake)%nat then Returns (alter f (Z.to_nat i) snake)
  else Fails UndefinedBehaviour.

(** A [for] loop over the block indices [blocks], in that order. *)
Fixpoint for_blocks (blocks : list Z)
    (body : Z -> list SnakeBlock -> Outcome (list SnakeBlock))
    (snake : list SnakeBlock) : Outcome (list SnakeBlock) :=
  match blocks with
  | [] => Returns snake
  | block :: rest => snake' ← body block snake; for_blocks rest body snake'
  end.

Section Scene.
Context `{SnakeHeader}.

Definition findNeighbourDirection (self neighbour : SnakeBlock) : Outcome Direction :=
  dr ← int_value (_row self - _row neighbour);
  dc ← int_value (_col self - _col neighbour);
  _ ← ensure (negb (Z.lxor dr dc =? 0));
  let dr := if 1 <? dr then -1 else dr in
  let dr := if dr <? -1 then 1 else dr in
  let dc := if 1 <? dc then -1 else dc in
  let dc := if dc <? -1 then 1 else dc in
  _ ← ensure ((dr =? 1) || (dr =? -1) || (dr =? 0));
  _ ← ensure ((dc =? 1) || (dc =? -1) || (dc =? 0));
  if 0 <? dr then Returns SOUTH
  else if dr <? 0 then Returns NORTH
  else if 0 <? dc then Returns WEST
  else if dc <? 0 then Returns EAST
  else Fails AssertionFailed.

(** The body of the loop of [updateSnakeBlockSpriteIDs]. *)
Definition body_block_sprite (block : Z) (snake : list SnakeBlock)
    : Outcome (list SnakeBlock) :=
  self ← block_at snake block;
  neighbour ← block_at snake (block - 1);
  headDir ← findNeighbourDirection self neighbour;
  self ← block_at snake block;
  neighbour ← block_at snake (block + 1);
  tailDir ← findNeighbourDirection self neighbour;
  set_block snake block (with_spriteid (snakeBodyBlockTree headDir tailDir)).

Definition updateSnakeBlockSpriteIDs (p : PlayScene) : Outcome PlayScene :=
  let snake := _snake p in
  self ← block_at snake SNAKE_HEAD_BLOCK;
  neighbour ← block_at snake (SNAKE_HEAD_BLOCK + 1);
  tailDir ← findNeighbourDirection self neighbour;
  snake ← set_block snake SNAKE_HEAD_BLOCK (with_spriteid (snakeHeadBlockTree tailDir));
  snake ← for_blocks
            (seqZ (SNAKE_HEAD_BLOCK + 1) (_snakeLength p - 1 - (SNAKE_HEAD_BLOCK + 1)))
            body_block_sprite snake;
  self ← block_at snake (_snakeLength p - 1);
  neighbour ← block_at snake (_snakeLength p - 2);
  headDir ← findNeighbourDirection self neighbour;
  snake ← set_block snake (_snakeLength p - 1) (with_spriteid (snakeTailBlockTree headDir));
  Returns (with_snake snake p).

(** The body of the loop of [initializeSnake]. *)
Definition body_spawn_block (block : Z) (snake : list SnakeBlock)
    : Outcome (list SnakeBlock) :=
  c ← int_value (snakeHeadSpawnCol + block);
  snake ← set_block snake block (with_col c);
  set_block snake block (with_row snakeHeadSpawnRow).

Definition initializeSnake (p : PlayScene) : Outcome PlayScene :=
  let p := with_snakeLength babySnakeLength p in
  snake ← for_blocks (seqZ SNAKE_HEAD_BLOCK (babySnakeLength - SNAKE_HEAD_BLOCK))
            body_spawn_block (_snake p);
  updateSnakeBlockSpriteIDs (with_snake snake p).

(** The body of the loop of [stepSnake]. *)
Definition body_follow_block (block : Z) (snake : list SnakeBlock)
    : Outcome (list SnakeBlock) :=
  ahead ← block_at snake (block - 1);
  snake ← set_block snake block (with_row (_row ahead));
  ahead ← block_at snake (block - 1);
  set_block snake block (with_col (_col ahead)).

(** The [switch] of [stepSnake], on the head block. *)
Definition move_head (d : Direction) (head : SnakeBlock) : Outcome SnakeBlock :=
  match d with
  | NORTH =>
      r ← int_value (_row head + 1);
      Returns (with_row (if _y boardSize <=? r then 0 else r) head)
  | SOUTH =>
      r ← int_value (_row head - 1);
      Returns (with_row (if r <? 0 then _y boardSize - 1 else r) head)
  | EAST =>
      c ← int_value (_col head + 1);
      Returns (with_col (if _x boardSize <=? c then 0 else c) head)
  | WEST =>
      c ← int_value (_col head - 1);
      Returns (with_col (if c <? 0 then _x boardSize else c) head)
  end.

Definition stepSnake (p : PlayScene) : Outcome PlayScene :=
  snake ← for_blocks
            (reverse (seqZ (SNAKE_HEAD_BLOCK + 1) (_snakeLength p - 1 - SNAKE_HEAD_BLOCK)))
            body_follow_block (_snake p);
  head ← block_at snake SNAKE_HEAD_BLOCK;
  head' ← move_head (_currentMoveDirection p) head;
  snake ← set_block snake SNAKE_HEAD_BLOCK (fun _ => head');
  let p := with_currentMoveDirection (_nextMoveDirection p) p in
  updateSnakeBlockSpriteIDs (with_snake snake p).

Definition handleInput (lkey rkey ukey dkey : bool) (p : PlayScene) : PlayScene :=
  let sum := Z.b2z lkey + Z.b2z rkey + Z.b2z ukey + Z.b2z dkey in
  if 1 <? sum then p
  else
    let current := _currentMoveDirection p in
    let p := if lkey && negb (bool_decide (current = EAST))
             then with_nextMoveDirection WEST p else p in
    let p := if rkey && negb (bool_decide (current = WEST))
             then with_nextMoveDirection EAST p else p in
    let p := if ukey && negb (bool_decide (current = SOUTH))
             then with_nextMoveDirection NORTH p else p in
    if dkey && negb (bool_decide (current = NORTH))
    then with_nextMoveDirection SOUTH p else p.

Definition onEnter (p : PlayScene) : Outcome PlayScene :=
  let p := with_stepClock_s fzero p in
  let p := with_nextMoveDirection WEST p in
  let p := with_currentMoveDirection WEST p in
  initializeSnake p.

Definition onUpdate (lkey rkey ukey dkey : bool) (dt : float) (p : PlayScene)
    : Outcome PlayScene :=
  let p := handleInput lkey rkey ukey dkey p in
  let p := with_stepClock_s (fadd (_stepClock_s p) dt) p in
  if fgt (_stepClock_s p) stepPeriod_s
  then p ← stepSnake p; Returns (with_stepClock_s fzero p)
  else Returns p.

End Scene.

(** ** What the scene keeps true *)

(** The direction across the board from [d]. *)
Definition opposite (d : Direction) : Direction :=
  match d with
  | NORTH => SOUTH
  | SOUTH => NORTH
  | EAST => WEST
  | WEST => EAST
  end.

(** The cell of a block: its row and its column. *)
Definition cell_of (b : SnakeBlock) : Z * Z := (_row b, _col b).

(** Two cells that [findNeighbourDirection] accepts as neighbours: the row
    difference is not the column difference. *)
Definition apart (a b : Z * Z) : Prop := a.1 - b.1 <> a.2 - b.2.

(** The direction [findNeighbourDirection] finds from the cell [a] to the
    cell [b], rows first; a difference of more than one is a wrap around
    the board and counts as one step the other way. *)
Definition neighbour_direction (a b : Z * Z) : Direction :=
  let dr := a.1 - b.1 in
  let dc := a.2 - b.2 in
  if decide (dr = 1 \/ dr < -1) then SOUTH
  else if decide (dr = -1 \/ 1 < dr) then NORTH
  else if decide (dc = 1 \/ dc < -1) then WEST
  else EAST.

(** A cell whose coordinates are not negative: the differences of the
    coordinates of two such cells are [int]s. *)
Definition small (c : Z * Z) : Prop :=
  0 <= c.1 <= INT_MAX /\ 0 <= c.2 <= INT_MAX.

(** Each cell of the list and the next one are [apart]. *)
Definition chain (l : list (Z * Z)) : Prop :=
  forall n a b, l !! n = Some a -> l !! S n = Some b -> apart a b.

Section Scene_invariant.
Context `{SnakeHeader}.

(** The blocks in use, [SNAKE_HEAD_BLOCK .. _snakeLength - 1], head first. *)
Definition blocks_in_use (p : PlayScene) : list SnakeBlock :=
  take (Z.to_nat (_snakeLength p - SNAKE_HEAD_BLOCK))
       (drop (Z.to_nat SNAKE_HEAD_BLOCK) (_snake p)).

Definition cells (p : PlayScene) : list (Z * Z) := cell_of <$> blocks_in_use p.

(** The sprite [updateSnakeBlockSpriteIDs] gives to block [n] of a snake that
    lies on the cells [cs], head first: by the direction of the block behind
    for the head, of the block ahead for the tail, and of both for a block
    between them. *)
Definition sprite_of (cs : list (Z * Z)) (n : nat) : option Z :=
  c ← cs !! n;
  if decide (n = 0%nat) then
    behind ← cs !! 1%nat;
    Some (snakeHeadBlockTree (neighbour_direction c behind))
  else if decide (S n = length cs) then
    ahead ← cs !! (n - 1)%nat;
    Some (snakeTailBlockTree (neighbour_direction c ahead))
  else
    ahead ← cs !! (n - 1)%nat;
    behind ← cs !! S n;
    Some (snakeBodyBlockTree (neighbour_direction c ahead)
                             (neighbour_direction c behind)).

(** Where [stepSnake] can put a block: any row of the board, and any column
    or the one past the last. *)
Definition on_board (c : Z * Z) : Prop :=
  0 <= c.1 < _y boardSize /\ 0 <= c.2 <= _x boardSize.

(** The header values the scene relies on. *)
Definition header_ok : Prop :=
  0 <= SNAKE_HEAD_BLOCK /\
  SNAKE_HEAD_BLOCK + 2 <= babySnakeLength /\
  2 <= _x boardSize < INT_MAX /\
  2 <= _y boardSize < INT_MAX /\
  0 <= snakeHeadSpawnRow < _y boardSize /\
  0 <= snakeHeadSpawnCol + SNAKE_HEAD_BLOCK /\
  snakeHeadSpawnCol + babySnakeLength - 1 <= _x boardSize.

(** The sprite ids of the blocks in use, head first. *)
Definition sprites (p : PlayScene) : list Z := _spriteid <$> blocks_in_use p.

(** A snake of two blocks or more inside the array, on the board, each
    block [apart] from the next. *)
Definition snake_ok (p : PlayScene) : Prop :=
  SNAKE_HEAD_BLOCK + 2 <= _snakeLength p <= Z.of_nat (length (_snake p)) /\
  Forall on_board (cells p) /\
  chain (cells p).

(** Such a snake, each block with the sprite for where its neighbours are,
    and a next direction that is not back onto the neck. *)
Definition scene_ok (p : PlayScene) : Prop :=
  snake_ok p /\
  (forall n, sprites p !! n = sprite_of (cells p) n) /\
  _nextMoveDirection p <> opposite (_currentMoveDirection p).

(** The scene after [onEnter] and any number of [onUpdate]s, whatever the
    keys and the frame times. *)
Inductive playing : PlayScene -> Prop :=
| playing_onEnter p0 p :
    onEnter p0 = Returns p -> playing p
| playing_onUpdate lkey rkey ukey dkey dt p p' :
    playing p -> onUpdate lkey rkey ukey dkey dt p = Returns p' -> playing p'.

End Scene_invariant.

(** ** A scene to run *)

(** [PlayScene::PlayScene]: the array value-initialised, no block in use. *)
Definition PlayScene_new (capacity : nat) : PlayScene :=
  {| _snake := replicate capacity {| _row := 0; _col := 0; _spriteid := 0 |};
     _snakeLength := 0;
     _nextMoveDirection := WEST;
     _currentMoveDirection := WEST;
     _stepClock_s := fzero |}.

Definition direction_index (d : Direction) : Z :=
  match d with
  | NORTH => 0
  | SOUTH => 1
  | EAST => 2
  | WEST => 3
  end.

(** Header values for the runs below: a board of 40 by 30 cells, a snake of
    four blocks spawned in the middle, a step every quarter of a second and
    sprite ids that tell the three trees and their entries apart. *)
Definition example_header : SnakeHeader :=
  {| SNAKE_HEAD_BLOCK := 0;
     boardSize := {| _x := 40; _y := 30 |};
     babySnakeLength := 4;
     snakeHeadSpawnCol := 20;
     snakeHeadSpawnRow := 15;
     stepPeriod_s := S754_finite false 8388608 (-25);
     snakeHeadBlockTree := fun d => direction_index d;
     snakeBodyBlockTree := fun d1 d2 => 4 + 4 * direction_index d1 + direction_index d2;
     snakeTailBlockTree := fun d => 20 + direction_index d |}.

Section Scene_run_definitions.
#[local] Existing Instance example_header.

(** The scene as constructed for an array of eight blocks, and after
    [onEnter]. *)
Definition scene_new : PlayScene := PlayScene_new 8.

Definition scene_entered : PlayScene :=
  match onEnter scene_new with
  | Returns p => p
  | Fails _ => scene_new
  end.

(** The snake of [scene_entered] with its head on column 0, moving WEST. *)
Definition scene_at_west_edge : PlayScene :=
  {| _snake := [ {| _row := 15; _col := 0; _spriteid := 2 |};
                 {| _row := 15; _col := 1; _spriteid := 18 |};
                 {| _row := 15; _col := 2; _spriteid := 18 |};
                 {| _row := 15; _col := 3; _spriteid := 23 |} ];
     _snakeLength := 4;
     _nextMoveDirection := WEST;
     _currentMoveDirection := WEST;
     _stepClock_s := fzero |}.

(** A frame time of a third of a second (more than [stepPeriod_s]) and one of
    a sixteenth. *)
Definition dt_long : float := S754_finite false 11184811 (-25).
Definition dt_short : float := S754_finite false 8388608 (-27).

End Scene_run_definitions.

(* ===================================================================== *)
(** * Properties *)
(* ===================================================================== *)

(** ** The standard algorithms *)

Lemma find_if_le {A} (p : A -> bool) l : (find_if p l <= length l)%nat.
Proof. induction l as [|x l IH]; simpl; [lia|]. destruct (p x); simpl; lia. Qed.

Lemma find_if_end {A} (p : A -> bool) l :
  find_if p l = length l <-> forall x, x ∈ l -> p x = false.
Proof.
  induction l as [|x l IH]; simpl.
  - split; [intros _ y Hy; inversion Hy | done].
  - destruct (p x) eqn:Hpx.
    + split; [discriminate|]. intros Hall.
      rewrite (Hall x) in Hpx; [discriminate | by left].
    + split.
      * intros Hlen y Hy. apply elem_of_cons in Hy as [->|Hy]; [done|].
        apply IH; [lia | done].
      * intros Hall. f_equal. apply IH. intros y Hy. apply Hall. by right.
Qed.

Lemma find_if_hit {A} (p : A -> bool) l :
  (find_if p l < length l)%nat ->
  exists x, l !! find_if p l = Some x /\ p x = true
            /\ List.filter (fun y => negb (p y)) (take (find_if p l) l) = take (find_if p l) l.
Proof.
  induction l as [|x l IH]; simpl; [lia|].
  destruct (p x) eqn:Hpx; simpl.
  - intros _. by exists x.
  - intros Hlt. destruct IH as (y & Hy & Hpy & Hf); [lia|].
    exists y. rewrite Hpx. simpl. by rewrite Hf.
Qed.

(** [find] returns the end of the range exactly for the keys that are not
    in it. *)
Lemma not_playing_spec channels key :
  not_playing channels key = true <-> key ∉ channels.
Proof.
  unfold not_playing, find. rewrite Nat.eqb_eq, find_if_end. split.
  - intros Hall Hin. specialize (Hall key Hin). by rewrite Z.eqb_refl in Hall.
  - intros Hnin x Hx. apply Z.eqb_neq. by intros ->.
Qed.

Lemma find_not_end queue key :
  (find queue key =? length queue)%nat = false <-> key ∈ queue.
Proof.
  pose proof (not_playing_spec queue key) as Hs. unfold not_playing in Hs.
  destruct (find queue key =? length queue)%nat.
  - split; [discriminate|]. intros Hin. by apply Hs in Hin.
  - split; [|done]. intros _. destruct (decide (key ∈ queue)) as [|Hn]; [done|].
    apply Hs in Hn. discriminate.
Qed.

(** The loop of [remove_if], entered with [first] elements read and [result]
    of them kept: at every index from [result] on the array still holds the
    original values. *)
Lemma remove_if_loop_spec {A} (p : A -> bool) (l : list A) n :
  forall first result a,
    length a = length l ->
    (result <= first)%nat ->
    (first + n = length l)%nat ->
    drop result a = drop result l ->
    let kept := List.filter (fun y => negb (p y)) (drop first l) in
    remove_if_loop p n first result a
    = (take result a ++ kept ++ drop (result + length kept) l, (result + length kept)%nat).
Proof.
  induction n as [|n IH]; intros first result a Hlen Hle Hn Hdrop; simpl.
  - rewrite drop_ge by lia. simpl. rewrite Nat.add_0_r, <- Hdrop.
    by rewrite take_drop.
  - assert (Hlk : a !! first = l !! first).
    { replace first with (result + (first - result))%nat by lia.
      by rewrite <- !lookup_drop, Hdrop. }
    destruct (l !! first) as [x|] eqn:Hx; last first.
    { apply lookup_ge_None in Hx. lia. }
    rewrite Hlk. rewrite (drop_S l x first Hx). simpl.
    destruct (p x) eqn:Hpx; simpl.
    + apply IH; [done | lia | lia | done].
    + rewrite IH; [| by rewrite length_insert | lia | lia | ].
      * rewrite (take_S_r _ _ x) by (apply list_lookup_insert_eq; lia).
        rewrite take_insert_ge by lia.
        rewrite <- !(assoc_L (++)). simpl.
        by rewrite Nat.add_succ_r.
      * rewrite drop_insert_lt by lia.
        apply (f_equal (drop 1)) in Hdrop. rewrite !drop_drop in Hdrop.
        by replace (S result) with (result + 1)%nat by lia.
Qed.

(** [std::remove_if] moves the elements to keep to the front; the iterator it
    returns points just behind them, and from there on the array holds what
    it held before the call -- not the removed elements. *)
Lemma remove_if_spec {A} (p : A -> bool) (l : list A) :
  let kept := List.filter (fun y => negb (p y)) l in
  remove_if p l = (kept ++ drop (length kept) l, length kept).
Proof.
  simpl. unfold remove_if.
  destruct (find_if p l =? length l)%nat eqn:Hend.
  - apply Nat.eqb_eq in Hend.
    assert (Hk : List.filter (fun y => negb (p y)) l = l).
    { pose proof (proj1 (find_if_end p l) Hend) as Hall. clear Hend.
      induction l as [|x l IHl]; simpl; [done|].
      rewrite (Hall x) by (by left). simpl. f_equal. apply IHl.
      intros y Hy. apply Hall. by right. }
    rewrite Hk, drop_all, app_nil_r. by rewrite Hend.
  - apply Nat.eqb_neq in Hend. pose proof (find_if_le p l) as Hle.
    destruct (find_if_hit p l) as (x & Hx & Hpx & Hf); [lia|].
    set (i := find_if p l) in *.
    rewrite (remove_if_loop_spec p l); [| done | lia | lia | done].
    assert (Hl : l = take i l ++ x :: drop (S i) l).
    { by rewrite <- (drop_S l x i Hx), take_drop. }
    assert (Hkept : List.filter (fun y => negb (p y)) l
                    = take i l ++ List.filter (fun y => negb (p y)) (drop (S i) l)).
    { rewrite Hl at 1. rewrite List.filter_app, Hf. simpl. by rewrite Hpx. }
    rewrite Hkept, length_app, length_take_le by lia.
    by rewrite <- (assoc_L (++)).
Qed.

(** ** The resource table *)

Lemma find_by_name_Some soundName entries key r :
  find_by_name soundName entries = Some (key, r) ->
  (key, r) ∈ entries /\ _name r = soundName.
Proof.
  unfold find_by_name. intros Hf. apply List.find_some in Hf as [Hin Heq].
  split; [by apply list_elem_of_In | by apply String.eqb_eq in Heq].
Qed.

Lemma find_by_name_None soundName entries :
  find_by_name soundName entries = None <->
  soundName ∉ map (fun pair => _name (snd pair)) entries.
Proof.
  unfold find_by_name. induction entries as [|[k r] l IH]; simpl.
  - split; [intros _ Hin; inversion Hin | done].
  - destruct (String.eqb (_name r) soundName) eqn:Heq.
    + apply String.eqb_eq in Heq. split; [discriminate|].
      intros Hn. exfalso. apply Hn. rewrite Heq. by left.
    + apply String.eqb_neq in Heq. rewrite IH, not_elem_of_cons. simpl.
      split; [intros Hn; split; [congruence | done] | by intros [_ Hn]].
Qed.

(** Where names are pairwise distinct, equal names mean the same entry. *)
Lemma NoDup_map_eq {A B} (f : A -> B) (l : list A) x y :
  NoDup (map f l) -> x ∈ l -> y ∈ l -> f x = f y -> x = y.
Proof.
  induction l as [|z l IH]; simpl; intros Hnd Hx Hy Hf; [inversion Hx|].
  apply NoDup_cons in Hnd as [Hz Hnd].
  apply elem_of_cons in Hx as [->|Hx]; apply elem_of_cons in Hy as [->|Hy]; auto.
  - exfalso. apply Hz. rewrite Hf. apply (list_elem_of_fmap_2 f). exact Hy.
  - exfalso. apply Hz. rewrite <- Hf. apply (list_elem_of_fmap_2 f). exact Hx.
Qed.

Lemma names_unique_lookup (m : gmap Z SoundResource) k1 k2 r1 r2 :
  names_unique m -> m !! k1 = Some r1 -> m !! k2 = Some r2 ->
  _name r1 = _name r2 -> k1 = k2.
Proof.
  intros Hu H1 H2 Hn.
  apply elem_of_map_to_list in H1, H2.
  by pose proof (NoDup_map_eq _ _ (k1, r1) (k2, r2) Hu H1 H2 Hn) as [= -> _].
Qed.

(** The search by name of [loadSoundWAV] finds the entry that carries the
    name, whatever the order in which the table is visited. *)
Lemma find_by_name_any_order (m : gmap Z SoundResource) entries k r :
  names_unique m -> entries ≡ₚ map_to_list m -> m !! k = Some r ->
  find_by_name (_name r) entries = Some (k, r).
Proof.
  intros Hu Hperm Hk.
  destruct (find_by_name (_name r) entries) as [[k' r']|] eqn:Hf.
  - apply find_by_name_Some in Hf as [Hin Hn].
    rewrite Hperm in Hin. apply elem_of_map_to_list in Hin.
    assert (k' = k) as -> by (eapply names_unique_lookup; eauto).
    congruence.
  - apply find_by_name_None in Hf. exfalso. apply Hf.
    apply (list_elem_of_fmap_2 (fun pair => _name (snd pair)) _ (k, r)).
    rewrite Hperm. by apply elem_of_map_to_list.
Qed.

Lemma find_by_name_hit (m : gmap Z SoundResource) k r :
  names_unique m -> m !! k = Some r ->
  find_by_name (_name r) (map_to_list m) = Some (k, r).
Proof. intros Hu Hk. by apply (find_by_name_any_order m). Qed.

Lemma find_by_name_miss (m : gmap Z SoundResource) soundName :
  find_by_name soundName (map_to_list m) = None <-> soundName ∉ table_names m.
Proof. apply find_by_name_None. Qed.

Lemma table_names_insert_fresh (m : gmap Z SoundResource) k r :
  m !! k = None -> table_names (<[k := r]> m) ≡ₚ _name r :: table_names m.
Proof.
  intros Hk. unfold table_names.
  by rewrite (map_to_list_insert m k r Hk).
Qed.

Lemma table_names_delete (m : gmap Z SoundResource) k r :
  m !! k = Some r -> table_names m ≡ₚ _name r :: table_names (delete k m).
Proof.
  intros Hk. rewrite <- (insert_delete_id m k r Hk) at 1.
  apply table_names_insert_fresh, lookup_delete_eq.
Qed.

(** Replacing an entry by one of the same name keeps the names. *)
Lemma table_names_update (m : gmap Z SoundResource) k r r' :
  m !! k = Some r -> _name r' = _name r ->
  table_names (<[k := r']> m) ≡ₚ table_names m.
Proof.
  intros Hk Hn.
  rewrite <- (insert_delete_eq m k r').
  rewrite (table_names_insert_fresh (delete k m) k r') by apply lookup_delete_eq.
  rewrite Hn. symmetry. by apply table_names_delete.
Qed.

Lemma names_unique_update (m : gmap Z SoundResource) k r :
  names_unique m -> m !! k = Some r ->
  names_unique (<[k := incr_referenceCount r]> m).
Proof.
  unfold names_unique. intros Hu Hk.
  by rewrite (table_names_update m k r).
Qed.

Lemma names_unique_emplace (m : gmap Z SoundResource) k r :
  names_unique m -> _name r ∉ table_names m -> names_unique (emplace k r m).
Proof.
  unfold names_unique, emplace. intros Hu Hn.
  destruct (m !! k) eqn:Hk; [done|].
  rewrite table_names_insert_fresh by done. by apply NoDup_cons.
Qed.

Lemma names_unique_delete (m : gmap Z SoundResource) k :
  names_unique m -> names_unique (delete k m).
Proof.
  unfold names_unique. intros Hu.
  destruct (m !! k) as [r|] eqn:Hk.
  - rewrite (table_names_delete m k r Hk) in Hu. by apply NoDup_cons in Hu as [_ ?].
  - by rewrite delete_id.
Qed.

(** ** Single-precision arithmetic *)

(** A positive number of [d] binary digits lies between 2^(d-1) and 2^d. *)
Lemma digits2_pos_bounds p :
  2 ^ (Z.pos (digits2_pos p) - 1) <= Z.pos p < 2 ^ Z.pos (digits2_pos p).
Proof.
  induction p as [p IH|p IH|]; simpl digits2_pos.
  - rewrite Pos2Z.inj_succ.
    replace (Z.succ (Z.pos (digits2_pos p)) - 1) with (Z.succ (Z.pos (digits2_pos p) - 1)) by lia.
    rewrite !Z.pow_succ_r by lia.
    revert IH. generalize (2 ^ (Z.pos (digits2_pos p) - 1)) (2 ^ Z.pos (digits2_pos p)). lia.
  - rewrite Pos2Z.inj_succ.
    replace (Z.succ (Z.pos (digits2_pos p)) - 1) with (Z.succ (Z.pos (digits2_pos p) - 1)) by lia.
    rewrite !Z.pow_succ_r by lia.
    revert IH. generalize (2 ^ (Z.pos (digits2_pos p) - 1)) (2 ^ Z.pos (digits2_pos p)). lia.
  - simpl. lia.
Qed.

Lemma digits2_pos_iter_xO p k :
  digits2_pos (Pos.iter xO p k) = (digits2_pos p + k)%positive.
Proof.
  induction k as [|k IH] using Pos.peano_ind.
  - simpl. lia.
  - rewrite Pos.iter_succ. simpl. rewrite IH. lia.
Qed.

Lemma Zpos_iter_xO p k : Z.pos (Pos.iter xO p k) = Z.pos p * 2 ^ Z.pos k.
Proof.
  induction k as [|k IH] using Pos.peano_ind.
  - simpl. lia.
  - rewrite Pos.iter_succ, Pos2Z.inj_xO, IH, Pos2Z.inj_succ, Z.pow_succ_r by lia. lia.
Qed.

(** Rounding a mantissa that the first shift brings to exactly 24 digits, with
    nothing shifted out, returns it unchanged. *)
Lemma binary_round_aux_step s mx ex m e :
  shr_fexp f32_prec f32_emax mx ex loc_Exact
  = ({| shr_m := Z.pos m; shr_r := false; shr_s := false |}, e) ->
  digits2_pos m = 24%positive -> -149 <= e <= 104 ->
  binary_round_aux f32_prec f32_emax s mx ex loc_Exact = S754_finite s m e.
Proof.
  intros Hshr Hd He. unfold binary_round_aux. rewrite Hshr.
  cbn [shr_m loc_of_shr_record round_nearest_even].
  unfold shr_fexp, fexp, emin, f32_prec, f32_emax.
  cbn [Zdigits2 shr_record_of_loc]. rewrite Hd.
  replace (Z.max (24 + e - 24) (3 - 128 - 24) - e) with 0 by lia.
  cbn [shr shr_m].
  destruct (e <=? 128 - 24) eqn:Hle; [done|]. apply Z.leb_gt in Hle. lia.
Qed.

Lemma shr_fexp_24_digits m e :
  digits2_pos m = 24%positive -> -149 <= e ->
  shr_fexp f32_prec f32_emax (Z.pos m) e loc_Exact
  = ({| shr_m := Z.pos m; shr_r := false; shr_s := false |}, e).
Proof.
  intros Hd He. unfold shr_fexp, fexp, emin, f32_prec, f32_emax.
  cbn [Zdigits2 shr_record_of_loc]. rewrite Hd.
  by replace (Z.max (24 + e - 24) (3 - 128 - 24) - e) with 0 by lia.
Qed.

Lemma shr_fexp_times_2_23 m e :
  digits2_pos m = 24%positive -> -148 <= e ->
  shr_fexp f32_prec f32_emax (Z.pos (m * 8388608)) (e + -24) loc_Exact
  = ({| shr_m := Z.pos m; shr_r := false; shr_s := false |}, e - 1).
Proof.
  intros Hd He.
  assert (HM : (m * 8388608)%positive = Pos.iter xO m 23).
  { rewrite Pos.mul_comm. reflexivity. }
  unfold shr_fexp, fexp, emin, f32_prec, f32_emax.
  cbn [Zdigits2 shr_record_of_loc]. rewrite HM at 2.
  rewrite digits2_pos_iter_xO, Hd.
  replace (Z.max (Z.pos (24 + 23) + (e + -24) - 24) (3 - 128 - 24) - (e + -24)) with 23 by lia.
  rewrite HM. cbn. f_equal. lia.
Qed.

(** Multiplying a normal float by [0.5f] lowers its exponent by one. *)
Lemma fmul_half m e :
  digits2_pos m = 24%positive -> -148 <= e <= 104 ->
  fmul (S754_finite false m e) errorSoundDuration_s = S754_finite false m (e - 1).
Proof.
  intros Hd He. unfold fmul, errorSoundDuration_s, SFmul. cbn [xorb].
  apply binary_round_aux_step; [apply shr_fexp_times_2_23; [done | lia] | done | lia].
Qed.

(** An [int] below 2^24 converts to the float of the same value. *)
Lemma float_of_int_small p :
  Z.pos p < 2 ^ 24 ->
  exists m,
    float_of_int (Z.pos p) = S754_finite false m (Z.pos (digits2_pos p) - 24)
    /\ digits2_pos m = 24%positive
    /\ Z.pos m = Z.pos p * 2 ^ (24 - Z.pos (digits2_pos p)).
Proof.
  intros Hp. pose proof (digits2_pos_bounds p) as [Hlo _].
  assert (Hd : Z.pos (digits2_pos p) <= 24).
  { destruct (Z.le_gt_cases (Z.pos (digits2_pos p)) 24) as [|Hgt]; [done|].
    assert (2 ^ 24 <= 2 ^ (Z.pos (digits2_pos p) - 1)) by (apply Z.pow_le_mono_r; lia).
    lia. }
  unfold float_of_int, binary_normalize, binary_round, shl_align, fexp, emin,
    f32_prec, f32_emax.
  replace (Z.max (Z.pos (digits2_pos p) + 0 - 24) (3 - 128 - 24) - 0)
    with (Z.pos (digits2_pos p) - 24) by lia.
  destruct (Z.pos (digits2_pos p) - 24) as [|k|k] eqn:Hk; [|lia|].
  - exists p. assert (Hd24 : digits2_pos p = 24%positive) by lia.
    replace (Z.max (Z.pos (digits2_pos p) + 0 - 24) (3 - 128 - 24)) with 0 by lia.
    split; [|split; [done|]].
    + apply binary_round_aux_step; [apply shr_fexp_24_digits; [done | lia] | done | lia].
    + rewrite Hd24. simpl. lia.
  - exists (Pos.iter xO p k).
    assert (Hdk : digits2_pos (Pos.iter xO p k) = 24%positive).
    { rewrite digits2_pos_iter_xO. lia. }
    replace (Z.max (Z.pos (digits2_pos p) + 0 - 24) (3 - 128 - 24)) with (Z.neg k) by lia.
    split; [|split; [done|]].
    + apply binary_round_aux_step; [apply shr_fexp_24_digits; [done|lia] | done | lia].
    + rewrite Zpos_iter_xO. f_equal. f_equal. lia.
Qed.

(** The fallback tone lasts 0.5 s: for every sampling rate from 0 up to
    2^24 its sample count is the rate halved, rounded down. *)
Lemma sampleCount_of_half_second rate :
  0 <= rate < 2 ^ 24 ->
  sampleCount_of rate errorSoundDuration_s = Some (rate / 2).
Proof.
  intros [Hlo Hhi]. destruct rate as [|p|p]; [done| |lia].
  destruct (float_of_int_small p Hhi) as (m & Hf & Hd & Hm).
  pose proof (digits2_pos_bounds p) as [Hdlo _].
  assert (Hd24 : Z.pos (digits2_pos p) <= 24).
  { destruct (Z.le_gt_cases (Z.pos (digits2_pos p)) 24) as [|Hgt]; [done|].
    assert (2 ^ 24 <= 2 ^ (Z.pos (digits2_pos p) - 1)) by (apply Z.pow_le_mono_r; lia).
    lia. }
  unfold sampleCount_of. rewrite Hf, fmul_half by (done || lia).
  unfold int_of_float, trunc_magnitude.
  destruct (0 <=? Z.pos (digits2_pos p) - 24 - 1) eqn:He; [apply Z.leb_le in He; lia|].
  assert (Hq : Z.pos m / 2 ^ (- (Z.pos (digits2_pos p) - 24 - 1)) = Z.pos p / 2).
  { rewrite Hm.
    replace (- (Z.pos (digits2_pos p) - 24 - 1)) with (1 + (24 - Z.pos (digits2_pos p))) by lia.
    rewrite Z.pow_add_r by lia.
    rewrite Z.div_mul_cancel_r; [done | lia | apply Z.pow_nonzero; lia]. }
  rewrite Hq.
  assert (0 <= Z.pos p / 2 < 2 ^ 24) as [H0 H1].
  { split; [apply Z.div_pos; lia | apply Z.div_lt_upper_bound; lia]. }
  unfold INT_MIN, INT_MAX.
  destruct (- 2 ^ 31 <=? Z.pos p / 2) eqn:Ha; [|apply Z.leb_gt in Ha; lia].
  destruct (Z.pos p / 2 <=? 2 ^ 31 - 1) eqn:Hb; [done|apply Z.leb_gt in Hb; lia].
Qed.

Section Module_properties.
Context `{Platform}.

Ltac run :=
  unfold bind, ret, get, put, get_mixer, put_mixer, log, emit, stop, assert; simpl.

(** *** Loading *)

(** A load whose name is in the table: the entry's count goes up by one, the
    key of the entry is returned, two lines are logged, and the backend is
    not called. *)
Lemma loadSoundWAV_hit decoded w k r :
  names_unique (sounds (sfx w)) ->
  sounds (sfx w) !! k = Some r ->
  loadSoundWAV decoded (_name r) w
  = Done k {| sfx := set_sounds (<[k := incr_referenceCount r]> (sounds (sfx w))) (sfx w);
              mixer := mixer w;
              trace := trace w ++
                [Logged INFO msg_sfx_loading_sound (_name r);
                 Logged INFO msg_sfx_sound_already_loaded
                   ("reference count=" +:+ to_string (_referenceCount r + 1))] |}.
Proof.
  intros Hu Hk. unfold loadSoundWAV. run.
  rewrite (find_by_name_hit _ k r Hu Hk). simpl.
  by rewrite <- (assoc_L (++)).
Qed.

(** C4. For a name whose asset is in the resource table (at key [k], the
    only entry of that name), [loadSoundWAV] returns [k] -- the key every
    earlier load of the name returned -- and replaces the entry by one whose
    reference count is one higher; every other entry, every other global and
    the backend state are as before, and the table still has pairwise
    distinct names, so the same holds for each further load. *)
Theorem loadSoundWAV_already_loaded decoded soundName w k r :
  names_unique (sounds (sfx w)) ->
  sounds (sfx w) !! k = Some r ->
  _name r = soundName ->
  exists w',
    loadSoundWAV decoded soundName w = Done k w'
    /\ sounds (sfx w') !! k
       = Some {| _name := _name r; _chunk := _chunk r;
                 _referenceCount := _referenceCount r + 1 |}
    /\ (forall k', k' <> k -> sounds (sfx w') !! k' = sounds (sfx w) !! k')
    /\ sfx w' = set_sounds (sounds (sfx w')) (sfx w)
    /\ mixer w' = mixer w
    /\ names_unique (sounds (sfx w')).
Proof.
  intros Hu Hk <-. eexists. split; [by apply loadSoundWAV_hit|]. simpl.
  split; [apply lookup_insert_eq|].
  split; [intros k' Hne; by apply lookup_insert_ne|].
  split; [done|]. split; [done|]. by apply names_unique_update.
Qed.

(** Loading a name that is not in the table and decodes: a new entry with
    count 1 under the next key. *)
Lemma loadSoundWAV_fresh chunk soundName w :
  soundName ∉ table_names (sounds (sfx w)) ->
  loadSoundWAV (Some chunk) soundName w
  = Done (nextResourceKey (sfx w))
      {| sfx := set_sounds
                  (emplace (nextResourceKey (sfx w))
                     {| _name := soundName; _chunk := Some chunk; _referenceCount := 1 |}
                     (sounds (sfx w)))
                  (set_nextResourceKey (nextResourceKey (sfx w) + 1) (sfx w));
         mixer := mixer w;
         trace := trace w ++
           [Logged INFO msg_sfx_loading_sound soundName;
            Called_Mix_LoadWAV (RESOURCE_PATH_SOUNDS +:+ soundName +:+ FILE_EXTENSION);
            Logged INFO msg_sfx_load_sound_success
              ("[name:key]=[" +:+ soundName +:+ ":"
               +:+ to_string (nextResourceKey (sfx w)) +:+ "]")] |}.
Proof.
  intros Hn. apply find_by_name_miss in Hn. unfold loadSoundWAV. run.
  rewrite Hn. simpl. by rewrite <- !(assoc_L (++)).
Qed.

(** The scenario of the specification: a name loaded twice yields one key and
    a count of 2. *)
Lemma loadSoundWAV_twice chunk decoded soundName w :
  names_unique (sounds (sfx w)) ->
  soundName ∉ table_names (sounds (sfx w)) ->
  sounds (sfx w) !! nextResourceKey (sfx w) = None ->
  exists w1 w2 r,
    loadSoundWAV (Some chunk) soundName w = Done (nextResourceKey (sfx w)) w1
    /\ loadSoundWAV decoded soundName w1 = Done (nextResourceKey (sfx w)) w2
    /\ sounds (sfx w2) !! nextResourceKey (sfx w) = Some r
    /\ _referenceCount r = 2.
Proof.
  intros Hu Hn Hfresh.
  set (r1 := {| _name := soundName; _chunk := Some chunk; _referenceCount := 1 |}).
  eexists _, _, (incr_referenceCount r1).
  split; [by apply loadSoundWAV_fresh|].
  split.
  - apply (loadSoundWAV_hit decoded _ _ r1); simpl.
    + by apply names_unique_emplace.
    + unfold emplace. rewrite Hfresh. apply lookup_insert_eq.
  - simpl. split; [apply lookup_insert_eq | done].
Qed.

(** C5. A load whose name is not in the table and whose decode fails returns
    the key of the fallback sound; the fallback's reference count goes up by
    one and the table has the same keys as before. *)
Theorem loadSoundWAV_decode_failure soundName w r :
  soundName ∉ table_names (sounds (sfx w)) ->
  sounds (sfx w) !! errorSoundKey (sfx w) = Some r ->
  exists w',
    loadSoundWAV None soundName w = Done (errorSoundKey (sfx w)) w'
    /\ sounds (sfx w') !! errorSoundKey (sfx w)
       = Some {| _name := _name r; _chunk := _chunk r;
                 _referenceCount := _referenceCount r + 1 |}
    /\ (forall k', k' <> errorSoundKey (sfx w) ->
                   sounds (sfx w') !! k' = sounds (sfx w) !! k')
    /\ dom (sounds (sfx w')) = dom (sounds (sfx w))
    /\ sfx w' = set_sounds (sounds (sfx w')) (sfx w)
    /\ decode_attempts (trace w')
       = decode_attempts (trace w)
         ++ [RESOURCE_PATH_SOUNDS +:+ soundName +:+ FILE_EXTENSION].
Proof.
  intros Hn Hr. apply find_by_name_miss in Hn.
  unfold loadSoundWAV, returnErrorSound. run. rewrite Hn. simpl. rewrite Hr.
  eexists. split; [reflexivity|]. simpl.
  split; [apply lookup_insert_eq|].
  split; [intros k' Hne; by apply lookup_insert_ne|].
  split.
  - apply set_eq. intros k'. rewrite !elem_of_dom.
    destruct (decide (k' = errorSoundKey (sfx w))) as [->|Hne].
    + rewrite lookup_insert_eq, Hr. split; eauto.
    + by rewrite lookup_insert_ne.
  - split; [done|]. unfold decode_attempts.
    rewrite !omap_app. simpl. by rewrite !app_nil_r.
Qed.

(** C10. Once the fallback entry is in the table under [errorSoundKey] with
    its reserved name, loading ["sfxerror"] finds that entry: the fallback
    key is returned, the fallback's reference count goes up by one, and
    [Mix_LoadWAV] is not called, whatever file may exist under that name. *)
Theorem loadSoundWAV_errorSoundName decoded w r :
  names_unique (sounds (sfx w)) ->
  sounds (sfx w) !! errorSoundKey (sfx w) = Some r ->
  _name r = errorSoundName ->
  exists w',
    loadSoundWAV decoded "sfxerror" w = Done (errorSoundKey (sfx w)) w'
    /\ sounds (sfx w') !! errorSoundKey (sfx w)
       = Some {| _name := errorSoundName; _chunk := _chunk r;
                 _referenceCount := _referenceCount r + 1 |}
    /\ decode_attempts (trace w') = decode_attempts (trace w).
Proof.
  intros Hu Hr Hn. eexists. split.
  - change "sfxerror" with errorSoundName. rewrite <- Hn. by apply loadSoundWAV_hit.
  - simpl. split.
    + rewrite lookup_insert_eq. unfold incr_referenceCount. by rewrite Hn.
    + unfold decode_attempts. rewrite omap_app. simpl. by rewrite app_nil_r.
Qed.

(** Every load that returns keeps the names of the table pairwise distinct:
    the hypothesis of the statements above holds from [initialize] on. *)
Lemma loadSoundWAV_names_unique decoded soundName w k w' :
  loadSoundWAV decoded soundName w = Done k w' ->
  names_unique (sounds (sfx w)) ->
  names_unique (sounds (sfx w')).
Proof.
  intros Hrun Hu. revert Hrun. unfold loadSoundWAV, returnErrorSound. run.
  destruct (find_by_name soundName (map_to_list (sounds (sfx w)))) as [[k0 r0]|] eqn:Hf; simpl.
  - intros [= _ <-]. simpl. apply names_unique_update; [done|].
    apply find_by_name_Some in Hf as [Hin _]. by apply elem_of_map_to_list.
  - apply find_by_name_miss in Hf. destruct decoded as [chunk|]; simpl.
    + intros [= _ <-]. simpl. by apply names_unique_emplace.
    + destruct (sounds (sfx w) !! errorSoundKey (sfx w)) as [r|] eqn:Hr; [|discriminate].
      intros [= _ <-]. simpl. by apply names_unique_update.
Qed.

(** *** Queueing an unload *)

(** C3 (as the code has it). [queueUnloadSound] called with the key of the
    fallback sound fails its assertion, in every state of the module: the
    call does not return, so it is not a no-op that logs and lets the caller
    go on. *)
Theorem queueUnloadSound_errorSoundKey_asserts w :
  queueUnloadSound (errorSoundKey (sfx w)) w = Stopped AssertionFailed.
Proof. unfold queueUnloadSound. run. by rewrite Z.eqb_refl. Qed.

(** A key that is in the table, is not the fallback's and is not queued is
    appended to the queue. *)
Lemma queueUnloadSound_appends soundKey w r :
  soundKey <> errorSoundKey (sfx w) ->
  sounds (sfx w) !! soundKey = Some r ->
  soundKey ∉ unloadQueue (sfx w) ->
  queueUnloadSound soundKey w
  = Done tt {| sfx := set_unloadQueue (unloadQueue (sfx w) ++ [soundKey]) (sfx w);
               mixer := mixer w; trace := trace w |}.
Proof.
  intros Hne Hr Hq. unfold queueUnloadSound. run.
  apply Z.eqb_neq in Hne. rewrite Hne. simpl. rewrite Hr.
  apply not_playing_spec in Hq. unfold not_playing in Hq. by rewrite Hq.
Qed.

(** C7. In a queue that holds no key twice and not the fallback's key, a
    further [queueUnloadSound] for a key that is already queued logs one
    warning and changes nothing: the module data and the backend state are
    the same, and the key is still in the queue exactly once. *)
Theorem queueUnloadSound_already_queued soundKey w :
  soundKey ∈ unloadQueue (sfx w) ->
  NoDup (unloadQueue (sfx w)) ->
  errorSoundKey (sfx w) ∉ unloadQueue (sfx w) ->
  exists msg w',
    queueUnloadSound soundKey w = Done tt w'
    /\ sfx w' = sfx w
    /\ mixer w' = mixer w
    /\ trace w' = trace w ++ [Logged WARN msg (to_string soundKey)]
    /\ count_occ Z.eq_dec (unloadQueue (sfx w')) soundKey = 1%nat.
Proof.
  intros Hin Hnd Hfb.
  assert (Hne : (soundKey =? errorSoundKey (sfx w)) = false).
  { apply Z.eqb_neq. by intros ->. }
  assert (Hcount : count_occ Z.eq_dec (unloadQueue (sfx w)) soundKey = 1%nat).
  { apply NoDup_ListNoDup in Hnd.
    apply (proj1 (NoDup_count_occ' Z.eq_dec _) Hnd). by apply list_elem_of_In. }
  unfold queueUnloadSound. run. rewrite Hne. simpl.
  destruct (sounds (sfx w) !! soundKey) as [r|].
  - apply find_not_end in Hin. rewrite Hin. simpl.
    exists msg_sfx_already_unloading_sound. eexists. split; [reflexivity|]. by simpl.
  - exists msg_sfx_unloading_nonexistent_sound. eexists. split; [reflexivity|]. by simpl.
Qed.

(** The queue invariants are kept by [queueUnloadSound]. *)
Lemma queueUnloadSound_queue_invariant soundKey w w' :
  queueUnloadSound soundKey w = Done tt w' ->
  NoDup (unloadQueue (sfx w)) /\ errorSoundKey (sfx w) ∉ unloadQueue (sfx w) ->
  NoDup (unloadQueue (sfx w')) /\ errorSoundKey (sfx w') ∉ unloadQueue (sfx w').
Proof.
  unfold queueUnloadSound. run. intros Hrun [Hnd Hfb].
  destruct (soundKey =? errorSoundKey (sfx w)) eqn:Hne; simpl in Hrun; [discriminate|].
  apply Z.eqb_neq in Hne.
  destruct (sounds (sfx w) !! soundKey); [|injection Hrun as <-; by simpl].
  destruct (find (unloadQueue (sfx w)) soundKey =? length (unloadQueue (sfx w)))%nat eqn:Hf;
    simpl in Hrun; injection Hrun as <-; simpl; [|done].
  assert (soundKey ∉ unloadQueue (sfx w)) by (by apply not_playing_spec).
  split.
  - apply NoDup_app. split; [done|]. split; [|apply NoDup_singleton].
    intros x Hx Hx'. apply list_elem_of_singleton in Hx' as ->. done.
  - rewrite elem_of_app, list_elem_of_singleton. intros [?|?]; [done|congruence].
Qed.

(** *** Playing *)

Lemma findChunk_missing soundKey w :
  sounds (sfx w) !! soundKey = None ->
  findChunk soundKey w
  = Done None {| sfx := sfx w; mixer := mixer w;
                 trace := trace w ++ [Logged WARN msg_sfx_playing_nonexistent_sound
                                        (to_string soundKey)] |}.
Proof. intros Hk. unfold findChunk. run. by rewrite Hk. Qed.

(** C8. Each of the four play functions, given a key that is not in the
    resource table, returns [NULL_CHANNEL] whatever the backend would have
    answered; the module data (table, channel tracker, queue) and the backend
    state are untouched, and one warning is logged. *)
Theorem play_nonexistent_sound soundKey w channel error loops fade_ms play_ms :
  sounds (sfx w) !! soundKey = None ->
  let w' := {| sfx := sfx w; mixer := mixer w;
               trace := trace w ++ [Logged WARN msg_sfx_playing_nonexistent_sound
                                      (to_string soundKey)] |} in
  playSound channel error soundKey loops w = Done NULL_CHANNEL w'
  /\ playSoundTimed channel error soundKey loops play_ms w = Done NULL_CHANNEL w'
  /\ playSoundFadeIn channel error soundKey loops fade_ms w = Done NULL_CHANNEL w'
  /\ playSoundFadeInTimed channel error soundKey loops fade_ms play_ms w
     = Done NULL_CHANNEL w'.
Proof.
  intros Hk w'.
  unfold playSound, playSoundTimed, playSoundFadeIn, playSoundFadeInTimed, bind.
  rewrite (findChunk_missing _ _ Hk). by repeat split.
Qed.

(** *** Channel volume *)

(** C9. [getChannelVolume(NULL_CHANNEL)] returns 0 in every state of the
    module and of the backend, and changes nothing. *)
Theorem getChannelVolume_NULL_CHANNEL w :
  getChannelVolume NULL_CHANNEL w = Done 0 w.
Proof. unfold getChannelVolume. by rewrite Z.eqb_refl. Qed.

(** What [setChannelVolume] caches on a channel of the module is the value
    [Mix_Volume] returns, which is the volume the channel had before the call
    and not the volume just set. *)
Lemma setChannelVolume_caches_previous channel volume w prev :
  channel <> NULL_CHANNEL ->
  ALL_CHANNELS <= channel ->
  0 <= channel < _numMixChannels (sfxconfiguration (sfx w)) ->
  (Z.to_nat channel < length (channelVolume (sfx w)))%nat ->
  mix_channel_volume (mixer w) !! Z.to_nat channel = Some prev ->
  exists w',
    setChannelVolume channel volume w = Done tt w'
    /\ getChannelVolume channel w' = Done prev w'
    /\ mix_channel_volume (mixer w') !! Z.to_nat channel
       = Some (mix_new_volume (clamp volume MIN_VOLUME MAX_VOLUME) prev).
Proof.
  intros Hnull Hall [Hlo Hhi] Hlen Hprev.
  apply Z.eqb_neq in Hnull.
  assert (Hassert : (ALL_CHANNELS <=? channel)
                    && (channel <=? _numMixChannels (sfxconfiguration (sfx w)) - 1) = true).
  { apply andb_true_intro. split; apply Z.leb_le; lia. }
  assert (Hm1 : (channel =? -1) = false) by (apply Z.eqb_neq; lia).
  assert (Hneg : (channel <? 0) = false) by (apply Z.ltb_ge; lia).
  unfold setChannelVolume, getChannelVolume, Mix_Volume, vec_set, vec_get. run.
  rewrite Hnull, Hassert. simpl. rewrite Hm1, Hneg, Hprev. simpl.
  apply Nat.ltb_lt in Hlen as Hlen'. rewrite Hlen'. simpl.
  eexists. split; [reflexivity|]. simpl. rewrite Hassert. simpl.
  rewrite list_lookup_insert_eq by done.
  split; [done|]. apply list_lookup_insert_eq. by eapply lookup_lt_Some.
Qed.

(** *** The service tick *)

Lemma unloadSound_keeps soundKey w w' :
  unloadSound soundKey w = Done tt w' ->
  unloadQueue (sfx w') = unloadQueue (sfx w)
  /\ channelPlayback (sfx w') = channelPlayback (sfx w)
  /\ errorSoundKey (sfx w') = errorSoundKey (sfx w)
  /\ sounds (sfx w') = delete soundKey (sounds (sfx w)).
Proof.
  unfold unloadSound. run.
  destruct (soundKey =? errorSoundKey (sfx w)); simpl; [discriminate|].
  destruct (sounds (sfx w) !! soundKey); [|discriminate].
  by intros [= <-].
Qed.

Lemma for_each_unloadSound_keeps keys : forall w w',
  for_each unloadSound keys w = Done tt w' ->
  unloadQueue (sfx w') = unloadQueue (sfx w)
  /\ channelPlayback (sfx w') = channelPlayback (sfx w)
  /\ errorSoundKey (sfx w') = errorSoundKey (sfx w).
Proof.
  induction keys as [|k keys IH]; intros w w'; simpl.
  - by intros [= <-].
  - unfold bind at 1. destruct (unloadSound k w) as [[] w1|] eqn:H1; [|discriminate].
    intros H2. apply unloadSound_keeps in H1 as (E1 & E2 & E3 & _).
    apply IH in H2 as (F1 & F2 & F3). by rewrite F1, F2, F3.
Qed.

(** What a service tick does: the keys it unloads are the keys in the last
    slots of the queue -- as many slots as there are keys on no channel --
    and not the keys [remove_if] dropped. *)
Lemma unloadUnusedSounds_unfold w :
  let queue := unloadQueue (sfx w) in
  let kept := still_playing (channelPlayback (sfx w)) queue in
  unloadUnusedSounds w
  = (put (set_unloadQueue (kept ++ drop (length kept) queue) (sfx w)) ;;;
     for_each unloadSound (drop (length kept) queue) ;;;
     s <- get ;;
     put (set_unloadQueue (take (length kept) (unloadQueue s)) s)) w.
Proof.
  simpl. unfold unloadUnusedSounds, bind at 1, get at 1.
  rewrite remove_if_spec. fold (still_playing (channelPlayback (sfx w)) (unloadQueue (sfx w))).
  by rewrite drop_app_length.
Qed.

(** After a service tick that returns, the queue holds the keys that were on
    a channel, in their order. *)
Lemma service_queue w w' :
  service w = Done tt w' ->
  unloadQueue (sfx w') = still_playing (channelPlayback (sfx w)) (unloadQueue (sfx w)).
Proof.
  unfold service. rewrite unloadUnusedSounds_unfold. unfold bind at 1, put at 1.
  unfold bind at 1.
  match goal with |- context [for_each unloadSound ?l ?w0] =>
    destruct (for_each unloadSound l w0) as [[] w1|] eqn:Hfe end; [|discriminate].
  apply for_each_unloadSound_keeps in Hfe as (Hq & _ & _). simpl in Hq.
  run. intros [= <-]. simpl. rewrite Hq. by rewrite take_app_length.
Qed.

Lemma service_queue_invariant w w' :
  service w = Done tt w' ->
  NoDup (unloadQueue (sfx w)) -> NoDup (unloadQueue (sfx w')).
Proof.
  intros Hs Hnd. rewrite (service_queue _ _ Hs). unfold still_playing.
  apply NoDup_ListNoDup, List.NoDup_filter. by apply NoDup_ListNoDup.
Qed.

Lemma for_each_unloadSound_names_unique keys : forall w w',
  for_each unloadSound keys w = Done tt w' ->
  names_unique (sounds (sfx w)) -> names_unique (sounds (sfx w')).
Proof.
  induction keys as [|k keys IH]; intros w w'; simpl.
  - by intros [= <-].
  - unfold bind at 1. destruct (unloadSound k w) as [[] w1|] eqn:H1; [|discriminate].
    intros H2 Hu. apply unloadSound_keeps in H1 as (_ & _ & _ & Hs).
    apply (IH _ _ H2). rewrite Hs. by apply names_unique_delete.
Qed.

Lemma service_names_unique w w' :
  service w = Done tt w' ->
  names_unique (sounds (sfx w)) ->
  names_unique (sounds (sfx w')).
Proof.
  unfold service. rewrite unloadUnusedSounds_unfold. unfold bind at 1, put at 1.
  unfold bind at 1.
  match goal with |- context [for_each unloadSound ?l ?w0] =>
    destruct (for_each unloadSound l w0) as [[] w1|] eqn:Hfe end; [|discriminate].
  run. intros [= <-] Hu. simpl.
  by apply (for_each_unloadSound_names_unique _ _ _ Hfe).
Qed.

(** *** The chunk generator *)

(** The conversion from [float] to [int] is the truncation toward zero of
    the number the float denotes. *)
Lemma int_of_float_truncates x q :
  float_value x = Some q ->
  INT_MIN <= Qtrunc q <= INT_MAX ->
  int_of_float x = Some (Qtrunc q).
Proof.
  destruct x as [s|s| |[|] m e]; simpl; try discriminate.
  - by intros [= <-].
  - intros [= <-] Hr. revert Hr. unfold Qtrunc, trunc_magnitude.
    destruct (0 <=? e) eqn:He; simpl.
    + rewrite Z.quot_1_r. intros [Hlo Hhi].
      apply Z.leb_le in Hlo, Hhi. by rewrite Hlo, Hhi.
    + apply Z.leb_gt in He.
      assert (Hpow : 0 < 2 ^ (- e)) by (apply Z.pow_pos_nonneg; lia).
      rewrite Z2Pos.id by done.
      rewrite Z.quot_opp_l by lia.
      rewrite Z.quot_div_nonneg by lia.
      intros [Hlo Hhi]. apply Z.leb_le in Hlo, Hhi. by rewrite Hlo, Hhi.
  - intros [= <-] Hr. revert Hr. unfold Qtrunc, trunc_magnitude.
    destruct (0 <=? e) eqn:He; simpl.
    + rewrite Z.quot_1_r. intros [Hlo Hhi].
      apply Z.leb_le in Hlo, Hhi. by rewrite Hlo, Hhi.
    + apply Z.leb_gt in He.
      assert (Hpow : 0 < 2 ^ (- e)) by (apply Z.pow_pos_nonneg; lia).
      rewrite Z2Pos.id by done.
      rewrite Z.quot_div_nonneg by lia.
      intros [Hlo Hhi]. apply Z.leb_le in Hlo, Hhi. by rewrite Hlo, Hhi.
Qed.

(** The sample loop leaves one slot for each sample. *)
Lemma length_beep_samples fmt samplingFreq_hz waveFreq_hz count pcm :
  0 <= count ->
  beep_samples fmt samplingFreq_hz waveFreq_hz count = Some pcm ->
  Z.of_nat (length pcm) = count.
Proof.
  intros Hc Hpcm. unfold beep_samples in Hpcm.
  apply length_mapM in Hpcm. rewrite <- Hpcm, length_seqZ. lia.
Qed.

(** [generateSineBeep] once the sample count is known: the outcome is that of
    the sample loop. *)
Lemma generateSineBeep_run fmt waveFreq_hz waveDuration_s w count :
  sampleCount_of (_samplingFreq_hz (sfxconfiguration (sfx w))) waveDuration_s = Some count ->
  0 <= count ->
  generateSineBeep fmt waveFreq_hz waveDuration_s w
  = match beep_samples fmt (_samplingFreq_hz (sfxconfiguration (sfx w))) waveFreq_hz count with
    | Some pcm => Done {| allocated := 1;
                          abuf := pcm;
                          alen := (count * sizeof fmt) mod 2 ^ 32;
                          volume := errorSoundVolume |} w
    | None => Stopped UndefinedBehaviour
    end.
Proof.
  intros Hcount Hc. unfold generateSineBeep. run. rewrite Hcount.
  apply Z.ltb_ge in Hc. rewrite Hc.
  destruct (beep_samples _ _ _ _); [by destruct w | done].
Qed.

(** C6 (as the code has it). Where the single-precision product of the
    sampling rate and the duration is a number whose integer part is a
    non-negative [int], [generateSineBeep] either makes an undefined
    conversion in its sample loop, or returns a buffer of as many samples as
    that integer part: the product is truncated, not rounded.  [alen] is that
    count times the sample size. *)
Theorem generateSineBeep_sample_count fmt waveFreq_hz waveDuration_s w q :
  float_value (fmul (float_of_int (_samplingFreq_hz (sfxconfiguration (sfx w))))
                 waveDuration_s) = Some q ->
  0 <= Qtrunc q <= INT_MAX ->
  (samples_defined fmt (_samplingFreq_hz (sfxconfiguration (sfx w))) waveFreq_hz (Qtrunc q) ->
   exists chunk,
     generateSineBeep fmt waveFreq_hz waveDuration_s w = Done chunk w
     /\ Z.of_nat (length (abuf chunk)) = Qtrunc q
     /\ alen chunk = (Qtrunc q * sizeof fmt) mod 2 ^ 32)
  /\ (~ samples_defined fmt (_samplingFreq_hz (sfxconfiguration (sfx w))) waveFreq_hz
          (Qtrunc q) ->
      generateSineBeep fmt waveFreq_hz waveDuration_s w = Stopped UndefinedBehaviour).
Proof.
  intros Hq [Hlo Hhi].
  rewrite (generateSineBeep_run _ _ _ _ (Qtrunc q));
    [| unfold sampleCount_of;
       by rewrite (int_of_float_truncates _ q Hq) by (unfold INT_MIN; lia)
     | done].
  unfold samples_defined.
  destruct (beep_samples _ _ _ _) as [pcm|] eqn:Hpcm.
  - split; [|intros Hno; destruct Hno; by eexists].
    intros _. eexists. split; [reflexivity|]. simpl.
    split; [by eapply length_beep_samples | done].
  - split; [intros [pcm Hsome]; discriminate | done].
Qed.

(** The call [generateErrorSound] makes: at a sampling rate below 2^24 the
    fallback tone has half as many samples as the rate, rounded down. *)
Lemma generateSineBeep_half_second fmt w :
  0 <= _samplingFreq_hz (sfxconfiguration (sfx w)) < 2 ^ 24 ->
  samples_defined fmt (_samplingFreq_hz (sfxconfiguration (sfx w))) errorSoundFreq_hz
    (_samplingFreq_hz (sfxconfiguration (sfx w)) / 2) ->
  exists chunk,
    generateSineBeep fmt errorSoundFreq_hz errorSoundDuration_s w = Done chunk w
    /\ Z.of_nat (length (abuf chunk)) = _samplingFreq_hz (sfxconfiguration (sfx w)) / 2.
Proof.
  intros Hr [pcm Hpcm].
  assert (H0 : 0 <= _samplingFreq_hz (sfxconfiguration (sfx w)) / 2)
    by (apply Z.div_pos; lia).
  rewrite (generateSineBeep_run _ _ _ _ _ (sampleCount_of_half_second _ Hr) H0), Hpcm.
  eexists. split; [reflexivity|]. simpl. by eapply length_beep_samples.
Qed.

(** *** Initialisation *)

Lemma take_replicate_extend {A} (x : A) (n k : nat) :
  take n (replicate k x) ++ replicate (n - length (replicate k x)) x = replicate n x.
Proof.
  rewrite take_replicate, length_replicate, <- replicate_add. f_equal. lia.
Qed.

(** A successful [initialize] at program start leaves the table with the
    fallback sound alone, under key 0 and its reserved name, every channel
    idle and at full volume, and an empty queue. *)
Lemma initialize_establishes sfxconf error w count :
  sfx w = static_init ->
  sizeof (_sampleFormat sfxconf) <> 4 \/ _sampleFormat sfxconf = SAMPLE_FORMAT_S32LSB ->
  0 <= _numMixChannels sfxconf ->
  sampleCount_of (_samplingFreq_hz sfxconf) errorSoundDuration_s = Some count ->
  0 <= count ->
  samples_defined (_sampleFormat sfxconf) (_samplingFreq_hz sfxconf) errorSoundFreq_hz count ->
  exists w' r,
    initialize 0 error sfxconf w = Done true w'
    /\ errorSoundKey (sfx w') = 0
    /\ nextResourceKey (sfx w') = 1
    /\ sounds (sfx w') = {[ 0 := r ]}
    /\ _name r = errorSoundName
    /\ _referenceCount r = 0
    /\ Z.of_nat (length (default [] (abuf <$> _chunk r))) = count
    /\ channelPlayback (sfx w')
       = replicate (Z.to_nat (_numMixChannels sfxconf)) nullResourceKey
    /\ channelVolume (sfx w')
       = replicate (Z.to_nat (_numMixChannels sfxconf)) MAX_VOLUME
    /\ unloadQueue (sfx w') = []
    /\ mix_channel_volume (mixer w')
       = replicate (Z.to_nat (_numMixChannels sfxconf)) MIX_MAX_VOLUME.
Proof.
  intros Hs Hfmt Hn Hcount Hc [pcm Hpcm].
  apply Z.ltb_ge in Hn as Hn'. apply Z.ltb_ge in Hc as Hc'.
  pose proof (length_beep_samples _ _ _ _ _ Hc Hpcm) as Hlen.
  unfold initialize, generateErrorSound, generateSineBeep, Mix_OpenAudio_ok,
    Mix_AllocateChannels, vec_resize.
  destruct sfxconf as [freq fmt mode n chunksize]. simpl in *.
  destruct fmt; simpl in Hfmt; try (destruct Hfmt; done);
    run; rewrite Hn'; simpl; rewrite Hcount, Hc'; simpl; rewrite Hpcm; simpl;
    (eexists _, _; split; [reflexivity|]); rewrite Hs; simpl;
    (split; [done|]); (split; [done|]);
    (split; [unfold emplace; rewrite lookup_empty; apply insert_empty|]); simpl;
    rewrite take_nil, Nat.sub_0_r;
    (repeat split; [exact Hlen | apply (take_replicate_extend MIX_MAX_VOLUME (Z.to_nat n) 8)]).
Qed.

Lemma names_unique_singleton k r : names_unique {[ k := r ]}.
Proof.
  unfold names_unique, table_names. rewrite map_to_list_singleton. simpl.
  apply NoDup_singleton.
Qed.

End Module_properties.

(* ===================================================================== *)
(** * Runs of the module *)
(* ===================================================================== *)

Section Runs.
#[local] Existing Instance pxr_platform.

Ltac by_compute := vm_compute; reflexivity.
Ltac decide_by_compute := apply (bool_decide_unpack _); vm_compute; exact I.
Ltac each_by_compute :=
  repeat (match goal with |- _ /\ _ => split end); by_compute.

Lemma w_init_reached :
  exists r,
    initialize 0 "" two_channels boot = Done true w_init
    /\ sounds (sfx w_init) = {[ 0 := r ]}
    /\ _name r = errorSoundName
    /\ channelPlayback (sfx w_init) = [-1; -1]
    /\ channelVolume (sfx w_init) = [128; 128]
    /\ mix_channel_volume (mixer w_init) = [128; 128].
Proof.
  destruct (initialize_establishes two_channels "" boot 4000)
    as (w' & r & Hrun & _ & _ & Hs & Hn & _ & _ & Hcp & Hcv & _ & Hm);
    [done | by left | done | by_compute | done | decide_by_compute |].
  assert (Hinit : initialize 0 "" two_channels boot = Done true w_init) by by_compute.
  rewrite Hinit in Hrun. injection Hrun as <-.
  exists r. split; [exact Hinit|]. split; [exact Hs|]. split; [exact Hn|].
  split; [exact Hcp|]. split; [exact Hcv | exact Hm].
Qed.

(** C1 (the code at the failing input). Two sounds are queued, "a" (key 1,
    idle) before "b" (key 2, playing on channel 0).  The service tick frees
    "b" although channel 0 still has it as occupant, leaves "a" in the table,
    and keeps key 2 in the queue; when channel 0 then finishes, the next tick
    frees nothing and stops in the assertion of [unloadSound]. *)
Theorem service_frees_sound_on_channel :
  queue_two boot = Done tt w_queue_two
  /\ unloadQueue (sfx w_queue_two) = [1; 2]
  /\ channelPlayback (sfx w_queue_two) = [2; -1]
  /\ exists w',
       service w_queue_two = Done tt w'
       /\ channelPlayback (sfx w') !! 0%nat = Some 2
       /\ sounds (sfx w') !! 2 = None
       /\ freed_chunks (trace w') = [Some (clip [3; 4])]
       /\ (_name <$> sounds (sfx w') !! 1) = Some "a"
       /\ unloadQueue (sfx w') = [2]
       /\ (onChannelFinished 0 ;;; service) w' = Stopped AssertionFailed.
Proof.
  split; [by_compute|]. split; [by_compute|]. split; [by_compute|].
  exists (world_after service w_queue_two). each_by_compute.
Qed.

(** With one pending key the tick does what the specification says: nothing
    while the key is on a channel, and after the channel has finished the
    key leaves the queue and its chunk is freed. *)
Lemma service_single_pending_key :
  unloadQueue (sfx w_pending) = [1]
  /\ channelPlayback (sfx w_pending) = [1; -1]
  /\ service w_pending = Done tt w_pending
  /\ exists w',
       (onChannelFinished 0 ;;; service) w_pending = Done tt w'
       /\ unloadQueue (sfx w') = []
       /\ sounds (sfx w') !! 1 = None
       /\ freed_chunks (trace w') = [Some (clip [3; 1; 4])].
Proof.
  split; [by_compute|]. split; [by_compute|]. split; [by_compute|].
  exists (world_after (onChannelFinished 0 ;;; service) w_pending). each_by_compute.
Qed.

(** C2 (the code at the failing input). On a fresh module,
    [setChannelVolume(0, -5)] followed by [getChannelVolume(0)] returns 128,
    the volume the channel had before, where the clamped value is
    [MIN_VOLUME] = 0; a following [setChannelVolume(0, 300)] makes
    [getChannelVolume(0)] return 0 where the clamped value is [MAX_VOLUME]. *)
Theorem getChannelVolume_lags_setChannelVolume :
  clamp (-5) MIN_VOLUME MAX_VOLUME = 0
  /\ clamp 300 MIN_VOLUME MAX_VOLUME = 128
  /\ (exists w', (setChannelVolume 0 (-5) ;;; getChannelVolume 0) w_init = Done 128 w'
                 /\ mix_channel_volume (mixer w') !! 0%nat = Some 0)
  /\ (exists w', (setChannelVolume 0 (-5) ;;; setChannelVolume 0 300 ;;; getChannelVolume 0) w_init
                 = Done 0 w'
                 /\ mix_channel_volume (mixer w') !! 0%nat = Some 128).
Proof.
  split; [by_compute|]. split; [by_compute|]. split.
  - exists (world_after (setChannelVolume 0 (-5)) w_init). split; by_compute.
  - exists (world_after (setChannelVolume 0 (-5) ;;; setChannelVolume 0 300) w_init).
    split; by_compute.
Qed.

(** C3 (as stated) fails: on an initialised module, [queueUnloadSound] with
    the fallback key does not return at all, so it is not a logged no-op. *)
Lemma queueUnloadSound_errorSoundKey_no_return :
  errorSoundKey (sfx w_init) = 0
  /\ ~ exists w', queueUnloadSound 0 w_init = Done tt w'.
Proof.
  split; [by_compute|]. intros [w' Hrun].
  vm_compute in Hrun. discriminate.
Qed.

(** C6 (as stated) fails. At 11025 Hz and 0.75 s the product is 8268.75: the
    buffer has 8268 samples where rounding gives 8269.  With the duration the
    module itself uses, 0.5 s, the product is 5512.5 and the buffer has 5512
    samples where rounding gives 5513. *)
Lemma generateSineBeep_count_not_rounded :
  exists chunk chunk' q q',
    float_value three_quarters = Some q /\ (q == 3 # 4)%Q
    /\ generateSineBeep SAMPLE_FORMAT_U8 200 three_quarters (beep_world 11025)
       = Done chunk (beep_world 11025)
    /\ Z.of_nat (length (abuf chunk)) = 8268
    /\ spec_sampleCount 11025 q = 8269
    /\ float_value errorSoundDuration_s = Some q' /\ (q' == 1 # 2)%Q
    /\ generateSineBeep SAMPLE_FORMAT_U8 200 errorSoundDuration_s (beep_world 11025)
       = Done chunk' (beep_world 11025)
    /\ Z.of_nat (length (abuf chunk')) = 5512
    /\ spec_sampleCount 11025 q' = 5513.
Proof.
  eexists _, _, _, _.
  split; [reflexivity|]. split; [reflexivity|].
  split; [by_compute|]. split; [by_compute|]. split; [by_compute|].
  split; [reflexivity|]. split; [reflexivity|].
  split; [by_compute|]. split; by_compute.
Qed.

(** The statement on the sample count at 11025 Hz and 0.5 s: 5512 samples. *)
Lemma generateSineBeep_sample_count_witness :
  samples_defined SAMPLE_FORMAT_U8 11025 200 5512
  /\ exists chunk,
       generateSineBeep SAMPLE_FORMAT_U8 200 errorSoundDuration_s (beep_world 11025)
       = Done chunk (beep_world 11025)
       /\ Z.of_nat (length (abuf chunk)) = 5512.
Proof.
  assert (Hdef : samples_defined SAMPLE_FORMAT_U8 11025 200 5512) by decide_by_compute.
  split; [exact Hdef|].
  edestruct (generateSineBeep_sample_count SAMPLE_FORMAT_U8 200 errorSoundDuration_s
               (beep_world 11025)) as [Hdone _].
  - vm_compute. reflexivity.
  - vm_compute. split; discriminate.
  - destruct (Hdone Hdef) as (chunk & Hrun & Hlen & _).
    exists chunk. split; [exact Hrun | exact Hlen].
Defined.

(** A second load of "explosion": key 1 again, reference count 2. *)
Lemma loadSoundWAV_already_loaded_witness :
  exists w',
    loadSoundWAV None "explosion" w_explosion = Done 1 w'
    /\ sounds (sfx w') !! 1
       = Some {| _name := "explosion"; _chunk := Some (clip [3; 1; 4]);
                 _referenceCount := 2 |}.
Proof.
  destruct (loadSoundWAV_already_loaded None "explosion" w_explosion 1
              {| _name := "explosion"; _chunk := Some (clip [3; 1; 4]);
                 _referenceCount := 1 |}) as (w' & Hrun & Hk & _).
  - unfold names_unique. decide_by_compute.
  - vm_compute. reflexivity.
  - reflexivity.
  - exists w'. split; [exact Hrun | exact Hk].
Defined.

(** A load that fails to decode on a fresh module: the fallback key 0, whose
    count goes from 0 to 1. *)
Lemma loadSoundWAV_decode_failure_witness :
  exists w',
    loadSoundWAV None "missing_sound" w_init = Done 0 w'
    /\ (_referenceCount <$> sounds (sfx w_init) !! 0) = Some 0
    /\ (_referenceCount <$> sounds (sfx w') !! 0) = Some 1
    /\ dom (sounds (sfx w')) = dom (sounds (sfx w_init)).
Proof.
  edestruct (loadSoundWAV_decode_failure "missing_sound" w_init)
    as (w' & Hrun & Hk & _ & Hdom & _).
  - decide_by_compute.
  - vm_compute. reflexivity.
  - exists w'. split; [exact Hrun|]. split; [vm_compute; reflexivity|].
    split; [|exact Hdom].
    change (errorSoundKey (sfx w_init)) with 0 in Hk. rewrite Hk. reflexivity.
Defined.

(** Loading "sfxerror" although a file of that name would decode. *)
Lemma loadSoundWAV_errorSoundName_witness :
  exists w',
    loadSoundWAV (Some (clip [9])) "sfxerror" w_explosion = Done 0 w'
    /\ (_referenceCount <$> sounds (sfx w') !! 0) = Some 1
    /\ decode_attempts (trace w') = decode_attempts (trace w_explosion).
Proof.
  edestruct (loadSoundWAV_errorSoundName (Some (clip [9])) w_explosion)
    as (w' & Hrun & Hk & Hdec).
  - unfold names_unique. decide_by_compute.
  - vm_compute. reflexivity.
  - reflexivity.
  - exists w'. split; [exact Hrun|]. split; [|exact Hdec].
    change (errorSoundKey (sfx w_explosion)) with 0 in Hk. rewrite Hk. reflexivity.
Defined.

(** A second unload request for the pending key 1. *)
Lemma queueUnloadSound_already_queued_witness :
  unloadQueue (sfx w_pending) = [1]
  /\ exists msg w',
       queueUnloadSound 1 w_pending = Done tt w'
       /\ sfx w' = sfx w_pending
       /\ trace w' = trace w_pending ++ [Logged WARN msg "1"]
       /\ count_occ Z.eq_dec (unloadQueue (sfx w')) 1 = 1%nat.
Proof.
  split; [vm_compute; reflexivity|].
  destruct (queueUnloadSound_already_queued 1 w_pending)
    as (msg & w' & Hrun & Hsfx & _ & Htrace & Hcount).
  - decide_by_compute.
  - decide_by_compute.
  - decide_by_compute.
  - exists msg, w'. split; [exact Hrun|]. split; [exact Hsfx|].
    split; [exact Htrace | exact Hcount].
Defined.

(** The four play functions on key 7, which no load has returned. *)
Lemma play_nonexistent_sound_witness :
  exists w',
    playSound 0 "" 7 0 w_init = Done (-2) w'
    /\ playSoundTimed 0 "" 7 0 500 w_init = Done (-2) w'
    /\ playSoundFadeIn 0 "" 7 0 100 w_init = Done (-2) w'
    /\ playSoundFadeInTimed 0 "" 7 0 100 500 w_init = Done (-2) w'
    /\ sfx w' = sfx w_init /\ mixer w' = mixer w_init.
Proof.
  destruct (play_nonexistent_sound 7 w_init 0 "" 0 100 500) as (H1 & H2 & H3 & H4).
  - vm_compute. reflexivity.
  - eexists. split; [exact H1|]. split; [exact H2|]. split; [exact H3|].
    split; [exact H4|]. split; reflexivity.
Defined.

End Runs.

(* ===================================================================== *)
(** * Consistency is kept by every call *)
(* ===================================================================== *)

Section Consistency.
Context `{Platform}.

Ltac run :=
  unfold bind, ret, get, put, get_mixer, put_mixer, log, emit, stop, assert; simpl.

Lemma length_resized {A} (v : list A) (n : nat) (x : A) :
  length (take n v ++ replicate (n - length v) x) = n.
Proof. rewrite length_app, length_take, length_replicate. lia. Qed.

Lemma initialize_consistent sfxconf error w0 w :
  sfx w0 = static_init ->
  initialize 0 error sfxconf w0 = Done true w ->
  consistent w.
Proof.
  intros Hs. unfold initialize, generateErrorSound, generateSineBeep, Mix_OpenAudio_ok,
    Mix_AllocateChannels, vec_resize. run.
  destruct sfxconf as [freq fmt mode n chunksize]; simpl.
  destruct (n <? 0) eqn:Hn; simpl; [by destruct fmt|]. apply Z.ltb_ge in Hn.
  destruct fmt; simpl; try discriminate;
    (destruct (sampleCount_of freq errorSoundDuration_s) as [c|]; simpl; [|discriminate]);
    (destruct (c <? 0) eqn:Hc; simpl; [discriminate|]);
    (destruct (beep_samples _ freq errorSoundFreq_hz c) as [pcm|]; simpl; [|discriminate]);
    intros [= <-]; rewrite Hs; simpl; (split; [|split]).
  all: try (split; [apply NoDup_nil_2 | split; [apply not_elem_of_nil | apply Forall_nil_2]]).
  all: try (unfold channels_ok; simpl;
            split; [done|]; rewrite !length_resized;
            split; [done|]; split; [done|]; split; [done|];
            rewrite Nat.sub_0_r; apply Forall_app; split;
            [rewrite take_nil; apply Forall_nil_2 | apply Forall_replicate; by left]).
  all: unfold table_ok, fallback_present, emplace, key_issued; simpl;
       rewrite lookup_empty;
       (split; [eexists; split; [apply lookup_insert_eq | split; [done | by eexists]]|]);
       (split; [apply (names_unique_singleton 0)|]);
       intros k [r Hk]; apply lookup_insert_Some in Hk as [[<- _]|[_ Hk]];
       [lia | by rewrite lookup_empty in Hk].
Qed.

(** Consistency does not look at the trace. *)
Lemma consistent_frame w w' :
  sfx w' = sfx w -> mixer w' = mixer w -> consistent w -> consistent w'.
Proof.
  unfold consistent, channels_ok. by intros -> ->.
Qed.

Lemma key_issued_later s s' k :
  nextResourceKey s <= nextResourceKey s' -> key_issued s k -> key_issued s' k.
Proof. unfold key_issued. lia. Qed.

(** Raising the reference count of an entry. *)
Lemma table_ok_update s k r :
  table_ok s -> sounds s !! k = Some r ->
  table_ok (set_sounds (<[k := incr_referenceCount r]> (sounds s)) s).
Proof.
  intros ((rf & Hf & Hname & Hchunk) & Hu & Hkeys) Hk. split; [|split]; simpl.
  - unfold fallback_present. simpl.
    destruct (decide (k = errorSoundKey s)) as [->|Hne].
    + rewrite lookup_insert_eq. eexists. split; [done|].
      rewrite Hf in Hk. injection Hk as <-. by simpl.
    + rewrite lookup_insert_ne by done. eauto.
  - by apply names_unique_update.
  - intros k' Hk'. apply lookup_insert_is_Some in Hk' as [<-|[_ Hk']].
    + apply Hkeys. by rewrite Hk.
    + by apply Hkeys.
Qed.

(** Removing an entry other than the fallback's. *)
Lemma table_ok_delete s k :
  table_ok s -> k <> errorSoundKey s ->
  table_ok (set_sounds (delete k (sounds s)) s).
Proof.
  intros ((rf & Hf & Hname & Hchunk) & Hu & Hkeys) Hne. split; [|split]; simpl.
  - unfold fallback_present. simpl. rewrite lookup_delete_ne by done. eauto.
  - by apply names_unique_delete.
  - intros k' [r' Hk']. apply lookup_delete_Some in Hk' as [_ Hk']. apply Hkeys. eauto.
Qed.

(** Entering a new name under the next key. *)
Lemma table_ok_emplace s r :
  table_ok s -> _name r ∉ table_names (sounds s) ->
  table_ok (set_sounds (emplace (nextResourceKey s) r (sounds s))
              (set_nextResourceKey (nextResourceKey s + 1) s))
  /\ emplace (nextResourceKey s) r (sounds s) = <[nextResourceKey s := r]> (sounds s)
  /\ sounds s !! nextResourceKey s = None.
Proof.
  intros ((rf & Hf & Hname & Hchunk) & Hu & Hkeys) Hn.
  assert (Hfresh : sounds s !! nextResourceKey s = None).
  { destruct (sounds s !! nextResourceKey s) eqn:Hk; [|done].
    assert (key_issued s (nextResourceKey s)) as [_ ?] by (apply Hkeys; eauto). lia. }
  assert (Hem : emplace (nextResourceKey s) r (sounds s) = <[nextResourceKey s := r]> (sounds s)).
  { unfold emplace. by rewrite Hfresh. }
  split; [|done]. split; [|split]; simpl.
  - unfold fallback_present. simpl. rewrite Hem.
    rewrite lookup_insert_ne; [eauto|]. intros Heq. rewrite Heq, Hf in Hfresh. done.
  - by apply names_unique_emplace.
  - intros k' Hk'. rewrite Hem in Hk'. unfold key_issued. simpl.
    apply lookup_insert_is_Some in Hk' as [<-|[_ Hk']].
    + assert (key_issued s (errorSoundKey s)) as [? ?] by (apply Hkeys; eauto). lia.
    + apply Hkeys in Hk'. unfold key_issued in Hk'. lia.
Qed.

Lemma loadSoundWAV_consistent decoded soundName w key w' :
  loadSoundWAV decoded soundName w = Done key w' ->
  consistent w -> consistent w'.
Proof.
  intros Hrun (Ht & Hq & Hc). revert Hrun. unfold loadSoundWAV, returnErrorSound. run.
  destruct (find_by_name soundName (map_to_list (sounds (sfx w)))) as [[k0 r0]|] eqn:Hf; simpl.
  - intros [= _ <-]. apply find_by_name_Some in Hf as [Hin _].
    apply elem_of_map_to_list in Hin.
    split; [by apply table_ok_update | by split].
  - apply find_by_name_miss in Hf. destruct decoded as [chunk|]; simpl.
    + intros [= _ <-].
      destruct (table_ok_emplace (sfx w)
                  {| _name := soundName; _chunk := Some chunk; _referenceCount := 1 |} Ht Hf)
        as (Ht' & _ & _).
      split; [exact Ht'|]. destruct Hq as (Hnd & Hfb & Hall).
      destruct Hc as (Hn & Hl1 & Hl2 & Hl3 & Hocc).
      split; [split; [done | split; [done|]] | split; [done | repeat split; try done]].
      * eapply Forall_impl; [exact Hall|]. intros k. unfold key_issued. simpl. lia.
      * eapply Forall_impl; [exact Hocc|]. intros k [Hk|Hk]; [by left|right].
        revert Hk. unfold key_issued. simpl. lia.
    + destruct (sounds (sfx w) !! errorSoundKey (sfx w)) as [r|] eqn:Hr; [|discriminate].
      intros [= _ <-]. split; [by apply table_ok_update | by split].
Qed.

Lemma queueUnloadSound_consistent soundKey w w' :
  queueUnloadSound soundKey w = Done tt w' ->
  consistent w -> consistent w'.
Proof.
  intros Hrun Hcons. revert Hrun. unfold queueUnloadSound. run.
  destruct (soundKey =? errorSoundKey (sfx w)) eqn:Hne; simpl; [discriminate|].
  apply Z.eqb_neq in Hne.
  destruct (sounds (sfx w) !! soundKey) as [r|] eqn:Hr;
    [|intros [= <-]; by apply (consistent_frame w)].
  destruct (find (unloadQueue (sfx w)) soundKey =? length (unloadQueue (sfx w)))%nat eqn:Hf;
    simpl; intros [= <-]; [|by apply (consistent_frame w)].
  assert (Hnin : soundKey ∉ unloadQueue (sfx w)) by (by apply not_playing_spec).
  destruct Hcons as (Ht & (Hnd & Hfb & Hall) & Hc).
  split; [exact Ht|]. split; [|exact Hc]. split; [|split]; simpl.
  - apply NoDup_app. split; [done|]. split; [|apply NoDup_singleton].
    intros x Hx Hx'. apply list_elem_of_singleton in Hx' as ->. done.
  - rewrite elem_of_app, list_elem_of_singleton. intros [?|?]; [done|congruence].
  - apply Forall_app. split; [done|]. apply Forall_singleton.
    destruct Ht as (_ & _ & Hkeys). apply Hkeys. by rewrite Hr.
Qed.

(** What a call of [unloadSound] that returns has done. *)
Lemma unloadSound_Done soundKey w w' :
  unloadSound soundKey w = Done tt w' ->
  soundKey <> errorSoundKey (sfx w)
  /\ exists r, sounds (sfx w) !! soundKey = Some r
       /\ w' = {| sfx := set_sounds (delete soundKey (sounds (sfx w))) (sfx w);
                  mixer := mixer w;
                  trace := trace w ++ [Called_Mix_FreeChunk (_chunk r)] |}.
Proof.
  unfold unloadSound. run.
  destruct (soundKey =? errorSoundKey (sfx w)) eqn:Hne; simpl; [discriminate|].
  apply Z.eqb_neq in Hne.
  destruct (sounds (sfx w) !! soundKey) as [r|]; [|discriminate].
  intros [= <-]. eauto.
Qed.

Lemma for_each_unloadSound_table_ok keys : forall w w',
  for_each unloadSound keys w = Done tt w' ->
  table_ok (sfx w) ->
  table_ok (sfx w')
  /\ sfx w' = set_sounds (sounds (sfx w')) (sfx w)
  /\ mixer w' = mixer w.
Proof.
  induction keys as [|k keys IH]; intros w w'; simpl.
  - intros [= <-] Ht. split; [done|]. split; [by destruct w as [[]]|done].
  - unfold bind at 1. destruct (unloadSound k w) as [[] w1|] eqn:H1; [|discriminate].
    intros H2 Ht. apply unloadSound_Done in H1 as (Hne & r & Hr & ->).
    apply IH in H2 as (Ht' & Hs & Hm); [|by apply table_ok_delete].
    split; [done|]. split; [|done]. rewrite Hs. by simpl.
Qed.

Lemma service_consistent w w' :
  service w = Done tt w' ->
  consistent w -> consistent w'.
Proof.
  intros Hrun (Ht & (Hnd & Hfb & Hall) & Hc).
  pose proof (service_queue _ _ Hrun) as Hqueue. revert Hrun.
  unfold service. rewrite unloadUnusedSounds_unfold. unfold bind at 1, put at 1.
  unfold bind at 1.
  match goal with |- context [for_each unloadSound ?l ?w0] =>
    destruct (for_each unloadSound l w0) as [[] w1|] eqn:Hfe end; [|discriminate].
  apply for_each_unloadSound_table_ok in Hfe as (Ht1 & Hs1 & Hm1); [|exact Ht].
  run. intros [= <-]. simpl in *.
  rewrite Hs1 in *. simpl in *.
  split; [exact Ht1|]. split.
  - split; [|split]; simpl; rewrite take_app_length.
    + apply NoDup_ListNoDup, List.NoDup_filter. by apply NoDup_ListNoDup.
    + intros Hin. apply Hfb. apply list_elem_of_In in Hin.
      apply List.filter_In in Hin as [Hin _]. by apply list_elem_of_In.
    + apply Forall_forall. intros k Hin. apply list_elem_of_In in Hin.
      apply List.filter_In in Hin as [Hin _]. apply list_elem_of_In in Hin.
      by apply (proj1 (Forall_forall _ _) Hall).
  - unfold channels_ok in *. simpl. by rewrite Hm1.
Qed.

(** Storing an occupant. *)
Lemma channels_ok_occupant w channel key t :
  channels_ok w ->
  key = nullResourceKey \/ key_issued (sfx w) key ->
  channels_ok {| sfx := set_channelPlayback (<[channel := key]> (channelPlayback (sfx w))) (sfx w);
                 mixer := mixer w; trace := t |}.
Proof.
  intros (Hn & Hl1 & Hl2 & Hl3 & Hocc) Hkey. unfold channels_ok. simpl.
  rewrite length_insert. repeat split; try done. by apply Forall_insert.
Qed.

Lemma recordPlayback_consistent error soundKey answer w channel w' :
  recordPlayback error soundKey answer w = Done channel w' ->
  is_Some (sounds (sfx w) !! soundKey) ->
  consistent w -> consistent w'.
Proof.
  intros Hrun Hkey Hcons. revert Hrun.
  unfold recordPlayback, onPlayError, vec_get, vec_set. run.
  destruct (answer =? -1); simpl; [intros [= _ <-]; by apply (consistent_frame w)|].
  destruct Hcons as (Ht & Hq & Hc).
  destruct (answer <? 0); simpl; [discriminate|].
  destruct (channelPlayback (sfx w) !! Z.to_nat answer) as [occupant|]; simpl; [|discriminate].
  destruct (occupant =? nullResourceKey); simpl; [|discriminate].
  destruct (Z.to_nat answer <? length (channelPlayback (sfx w)))%nat; simpl; [|discriminate].
  intros [= _ <-]. split; [exact Ht|]. split; [exact Hq|].
  apply channels_ok_occupant; [done|]. right. destruct Ht as (_ & _ & Hkeys). by apply Hkeys.
Qed.

Lemma findChunk_Done soundKey w chunk w' :
  findChunk soundKey w = Done chunk w' ->
  sfx w' = sfx w /\ mixer w' = mixer w
  /\ (is_Some chunk -> is_Some (sounds (sfx w) !! soundKey)).
Proof.
  unfold findChunk. run. destruct (sounds (sfx w) !! soundKey) as [r|]; intros [= <- <-]; simpl.
  - repeat split; eauto.
  - repeat split. by intros [? ?].
Qed.

(** The body the four play functions share, for any of the backend calls. *)
Lemma play_consistent call answer error soundKey w channel w' :
  (chunk <- findChunk soundKey ;;
   match chunk with
   | None => ret NULL_CHANNEL
   | Some c => emit (Called_Mix_Play call c) ;;; recordPlayback error soundKey answer
   end) w = Done channel w' ->
  consistent w -> consistent w'.
Proof.
  intros Hrun Hcons. revert Hrun. unfold bind at 1.
  destruct (findChunk soundKey w) as [chunk w1|] eqn:Hfind; [|discriminate].
  apply findChunk_Done in Hfind as (Hs & Hm & Hkey).
  assert (Hcons1 : consistent w1) by (by apply (consistent_frame _ _ Hs Hm)).
  destruct chunk as [c|]; [|by intros [= _ <-]].
  unfold bind at 1, emit at 1. intros Hrun.
  apply recordPlayback_consistent in Hrun; [done | simpl; rewrite Hs; apply Hkey; eauto |].
  by apply (consistent_frame w1).
Qed.

Lemma onChannelFinished_consistent channel w w' :
  onChannelFinished channel w = Done tt w' -> consistent w -> consistent w'.
Proof.
  intros Hrun (Ht & Hq & Hc). revert Hrun. unfold onChannelFinished, vec_set. run.
  destruct ((0 <=? channel) && (channel <? _numMixChannels (sfxconfiguration (sfx w))));
    simpl; [|discriminate].
  destruct (channel <? 0); simpl; [discriminate|].
  destruct (Z.to_nat channel <? length (channelPlayback (sfx w)))%nat; simpl; [|discriminate].
  intros [= <-]. split; [exact Ht|]. split; [exact Hq|].
  apply channels_ok_occupant; [done | by left].
Qed.

Lemma setChannelVolume_consistent channel volume w w' :
  setChannelVolume channel volume w = Done tt w' -> consistent w -> consistent w'.
Proof.
  intros Hrun Hcons. revert Hrun.
  unfold setChannelVolume, Mix_Volume, vec_set. run.
  destruct (channel =? NULL_CHANNEL); [by intros [= <-]|].
  destruct Hcons as (Ht & Hq & (Hn & Hl1 & Hl2 & Hl3 & Hocc)).
  destruct ((ALL_CHANNELS <=? channel)
            && (channel <=? _numMixChannels (sfxconfiguration (sfx w)) - 1));
    simpl; [|discriminate].
  destruct (channel =? -1) eqn:Hm1.
  - apply Z.eqb_eq in Hm1 as ->.
    destruct (mix_channel_volume (mixer w)); simpl; discriminate.
  - destruct (channel <? 0) eqn:Hneg; simpl; [discriminate|].
    destruct (mix_channel_volume (mixer w) !! Z.to_nat channel) as [prev|]; simpl;
      rewrite ?Hneg;
      (destruct (Z.to_nat channel <? length (channelVolume (sfx w)))%nat; simpl;
       [|discriminate]);
      intros [= <-]; (split; [exact Ht|]); (split; [exact Hq|]);
      unfold channels_ok; simpl; rewrite ?length_insert; by repeat split.
Qed.

Lemma getChannelVolume_consistent channel w volume w' :
  getChannelVolume channel w = Done volume w' -> consistent w -> consistent w'.
Proof.
  unfold getChannelVolume, vec_get. run.
  destruct (channel =? NULL_CHANNEL); [by intros [= _ <-]|].
  destruct ((ALL_CHANNELS <=? channel)
            && (channel <=? _numMixChannels (sfxconfiguration (sfx w)) - 1));
    simpl; [|discriminate].
  destruct (channel <? 0); [discriminate|].
  destruct (channelVolume (sfx w) !! Z.to_nat channel); [|discriminate].
  by intros [= _ <-].
Qed.

(** X1. Every world a program reaches from a successful [initialize] at
    program start -- by loads, unload requests, service ticks, plays,
    completion callbacks and volume calls, with any answers of the backend --
    is consistent: the fallback sound is in the table under [errorSoundKey]
    with its name and a chunk; no two entries share a name; every key in the
    table, in the queue and on a channel was handed out by the counter; the
    queue holds no key twice and never the fallback key; the channel arrays
    have one slot per mix channel. *)
Theorem reachable_consistent w : reachable w -> consistent w.
Proof.
  induction 1 as [sfxconf error w0 w Hs Hinit | w w' _ IH Hstep].
  - by apply (initialize_consistent sfxconf error w0).
  - destruct Hstep;
      eauto using loadSoundWAV_consistent, queueUnloadSound_consistent, service_consistent,
        play_consistent, onChannelFinished_consistent, setChannelVolume_consistent,
        getChannelVolume_consistent.
Qed.

End Consistency.

(* ===================================================================== *)
(** * The service tick in general *)
(* ===================================================================== *)

Section Service.
Context `{Platform}.

Ltac run :=
  unfold bind, ret, get, put, get_mixer, put_mixer, log, emit, stop, assert; simpl.

Lemma erase_all_lookup keys : forall (m : gmap Z SoundResource) k,
  erase_all keys m !! k = if decide (k ∈ keys) then None else m !! k.
Proof.
  induction keys as [|k0 keys IH]; intros m k; simpl.
  - destruct (decide (k ∈ [])) as [Hin|]; [inversion Hin | done].
  - unfold erase_all in *. simpl. rewrite IH.
    destruct (decide (k ∈ keys)) as [Hin|Hnin].
    + rewrite decide_True; [done | by right].
    + destruct (decide (k = k0)) as [->|Hne].
      * rewrite decide_True by (by left). apply lookup_delete_eq.
      * rewrite decide_False; [by apply lookup_delete_ne|].
        rewrite elem_of_cons. tauto.
Qed.

(** Unloading a list of distinct keys that are in the table, none of them the
    fallback's: every chunk is freed once, in list order, and the entries are
    erased. *)
Lemma for_each_unloadSound_effect keys : forall w,
  NoDup keys ->
  Forall (fun k => k <> errorSoundKey (sfx w) /\ is_Some (sounds (sfx w) !! k)) keys ->
  for_each unloadSound keys w
  = Done tt {| sfx := set_sounds (erase_all keys (sounds (sfx w))) (sfx w);
               mixer := mixer w;
               trace := trace w
                        ++ map (fun k => Called_Mix_FreeChunk (chunk_at (sounds (sfx w)) k)) keys |}.
Proof.
  induction keys as [|k keys IH]; intros w Hnd Hall; simpl.
  - rewrite app_nil_r. by destruct w as [[]].
  - apply NoDup_cons in Hnd as [Hk Hnd]. apply Forall_cons in Hall as [[Hne [r Hr]] Hall].
    unfold bind at 1. unfold unloadSound at 1. run.
    apply Z.eqb_neq in Hne as Hne'. rewrite Hne'. simpl. rewrite Hr.
    rewrite IH; simpl; [|done|].
    + rewrite <- (assoc_L (++)). simpl. unfold chunk_at at 2. rewrite Hr.
      do 4 f_equal. apply map_ext_in. intros k' Hin. unfold chunk_at.
      rewrite lookup_delete_ne; [done|]. intros ->. by apply list_elem_of_In in Hin.
    + apply Forall_forall. intros k' Hin.
      destruct (proj1 (Forall_forall _ _) Hall k' Hin) as [Hne1 Hs].
      split; [done|]. rewrite lookup_delete_ne; [done|]. by intros ->.
Qed.

(** What a service tick does, in general.  Let [kept] be the queued keys
    that are on a channel and [tail] the last slots of the queue behind the
    first [length kept] ones.  If the keys in [tail] are distinct, in the table
    and not the fallback's, the tick returns; it has freed the chunks of the
    keys in [tail], in order, erased their entries, and left [kept] as the
    queue.  The keys in [tail] are freed whether they are on a channel or not. *)
Lemma unloadUnusedSounds_effect w :
  let queue := unloadQueue (sfx w) in
  let kept := still_playing (channelPlayback (sfx w)) queue in
  let tail := drop (length kept) queue in
  NoDup tail ->
  Forall (fun k => k <> errorSoundKey (sfx w) /\ is_Some (sounds (sfx w) !! k)) tail ->
  unloadUnusedSounds w
  = Done tt {| sfx := set_unloadQueue kept
                        (set_sounds (erase_all tail (sounds (sfx w))) (sfx w));
               mixer := mixer w;
               trace := trace w
                        ++ map (fun k => Called_Mix_FreeChunk (chunk_at (sounds (sfx w)) k)) tail |}.
Proof.
  intros queue kept tail Hnd Hall.
  rewrite unloadUnusedSounds_unfold. fold queue kept tail.
  unfold bind at 1, put at 1. unfold bind at 1.
  rewrite for_each_unloadSound_effect; [|done|done].
  run. by rewrite take_app_length.
Qed.

(** X2. What a service tick does, in general.  Let [kept] be the queued keys
    that are on a channel and [tail] the last slots of the queue behind the
    first [length kept] ones.  If the keys in [tail] are distinct, in the table
    and not the fallback's, the tick returns; it has freed the chunks of the
    keys in [tail], in order, erased their entries, and left [kept] as the
    queue.  The keys in [tail] are freed whether they are on a channel or not. *)
Theorem service_effect w :
  let queue := unloadQueue (sfx w) in
  let kept := still_playing (channelPlayback (sfx w)) queue in
  let tail := drop (length kept) queue in
  NoDup tail ->
  Forall (fun k => k <> errorSoundKey (sfx w) /\ is_Some (sounds (sfx w) !! k)) tail ->
  service w
  = Done tt {| sfx := set_unloadQueue kept
                        (set_sounds (erase_all tail (sounds (sfx w))) (sfx w));
               mixer := mixer w;
               trace := trace w
                        ++ map (fun k => Called_Mix_FreeChunk (chunk_at (sounds (sfx w)) k)) tail |}.
Proof. apply unloadUnusedSounds_effect. Qed.

Lemma still_playing_app channels l1 l2 :
  still_playing channels (l1 ++ l2) = still_playing channels l1 ++ still_playing channels l2.
Proof. apply List.filter_app. Qed.

Lemma still_playing_all channels l :
  Forall (fun k => k ∈ channels) l -> still_playing channels l = l.
Proof.
  induction 1 as [|k l Hk _ IH]; simpl; [done|].
  destruct (not_playing channels k) eqn:Hp.
  - apply not_playing_spec in Hp. done.
  - simpl. by rewrite IH.
Qed.

Lemma still_playing_none channels l :
  Forall (fun k => k ∉ channels) l -> still_playing channels l = [].
Proof.
  induction 1 as [|k l Hk _ IH]; simpl; [done|].
  apply not_playing_spec in Hk. by rewrite Hk.
Qed.

(** The tick on a queue whose idle keys stand last, in full. *)
Lemma service_idle_keys_last_aux w playing idle :
  unloadQueue (sfx w) = playing ++ idle ->
  Forall (fun k => k ∈ channelPlayback (sfx w)) playing ->
  Forall (fun k => k ∉ channelPlayback (sfx w)) idle ->
  NoDup idle ->
  Forall (fun k => k <> errorSoundKey (sfx w) /\ is_Some (sounds (sfx w) !! k)) idle ->
  exists w',
    unloadUnusedSounds w = Done tt w'
    /\ w' = {| sfx := set_unloadQueue playing
                        (set_sounds (erase_all idle (sounds (sfx w))) (sfx w));
               mixer := mixer w;
               trace := trace w
                        ++ map (fun k => Called_Mix_FreeChunk (chunk_at (sounds (sfx w)) k))
                             idle |}.
Proof.
  intros Hq Hp Hi Hnd Hall.
  assert (Hkept : still_playing (channelPlayback (sfx w)) (unloadQueue (sfx w)) = playing).
  { by rewrite Hq, still_playing_app, still_playing_all, still_playing_none, app_nil_r. }
  assert (Htail : drop (length playing) (unloadQueue (sfx w)) = idle).
  { by rewrite Hq, drop_app_length. }
  eexists. split; [|reflexivity].
  rewrite unloadUnusedSounds_effect; rewrite Hkept, Htail; done.
Qed.

(** X3. Let the queue be the keys that are on a channel followed by the keys
    that are on none (the idle keys), and let the idle keys be queued once
    each, be in the table and differ from the fallback key.  Then the tick
    frees the chunks of exactly the idle keys, once each and in queue order,
    erases their entries, keeps every other entry, and leaves the keys that
    are still playing in the queue.  In particular a tick with no idle key
    changes nothing but the trace. *)
Theorem service_idle_keys_last w playing idle :
  unloadQueue (sfx w) = playing ++ idle ->
  Forall (fun k => k ∈ channelPlayback (sfx w)) playing ->
  Forall (fun k => k ∉ channelPlayback (sfx w)) idle ->
  NoDup idle ->
  Forall (fun k => k <> errorSoundKey (sfx w) /\ is_Some (sounds (sfx w) !! k)) idle ->
  exists w',
    service w = Done tt w'
    /\ unloadQueue (sfx w') = playing
    /\ (forall k, k ∈ idle -> sounds (sfx w') !! k = None)
    /\ (forall k, k ∉ idle -> sounds (sfx w') !! k = sounds (sfx w) !! k)
    /\ freed_chunks (trace w')
       = freed_chunks (trace w) ++ map (chunk_at (sounds (sfx w))) idle
    /\ sfx w' = set_unloadQueue playing (set_sounds (sounds (sfx w')) (sfx w))
    /\ mixer w' = mixer w.
Proof.
  intros Hq Hp Hi Hnd Hall.
  assert (Hkept : still_playing (channelPlayback (sfx w)) (unloadQueue (sfx w)) = playing).
  { by rewrite Hq, still_playing_app, still_playing_all, still_playing_none, app_nil_r. }
  assert (Htail : drop (length playing) (unloadQueue (sfx w)) = idle).
  { by rewrite Hq, drop_app_length. }
  eexists. split.
  - apply unloadUnusedSounds_effect; rewrite Hkept, Htail; done.
  - rewrite Hkept, Htail. simpl.
    split; [done|]. split; [|split; [|split; [|done]]].
    + intros k Hk. rewrite erase_all_lookup. by rewrite decide_True.
    + intros k Hk. rewrite erase_all_lookup. by rewrite decide_False.
    + unfold freed_chunks. rewrite omap_app. f_equal.
      clear. induction idle as [|k l IH]; simpl; [done|]. by f_equal.
Qed.

End Service.

(* ===================================================================== *)
(** * Playback and the channel tracker *)
(* ===================================================================== *)

Section Playback.
Context `{Platform}.

Ltac run :=
  unfold bind, ret, get, put, get_mixer, put_mixer, log, emit, stop, assert; simpl.

Lemma play_by_body call answer error soundKey :
  play_by call answer error soundKey
  = (chunk <- findChunk soundKey ;;
     match chunk with
     | None => ret NULL_CHANNEL
     | Some c => emit (Called_Mix_Play call c) ;;; recordPlayback error soundKey answer
     end).
Proof. by destruct call. Qed.

(** Starting playback.  For a key of the table whose entry has a chunk,
    when the backend answers with a channel of the tracker that is idle, each
    of the four play functions makes its one backend call, records the key as
    the occupant of that channel and returns the channel; nothing else
    changes. *)
Lemma play_by_success call answer error soundKey w r c :
  sounds (sfx w) !! soundKey = Some r ->
  _chunk r = Some c ->
  0 <= answer ->
  channelPlayback (sfx w) !! Z.to_nat answer = Some nullResourceKey ->
  play_by call answer error soundKey w
  = Done answer
      {| sfx := set_channelPlayback (<[Z.to_nat answer := soundKey]> (channelPlayback (sfx w)))
                  (sfx w);
         mixer := mixer w;
         trace := trace w ++ [Called_Mix_Play call c] |}.
Proof.
  intros Hr Hc Hpos Hidle. rewrite play_by_body.
  unfold findChunk, recordPlayback, vec_get, vec_set. run. rewrite Hr, Hc. simpl.
  assert (Hm1 : (answer =? -1) = false) by (apply Z.eqb_neq; lia).
  assert (Hneg : (answer <? 0) = false) by (apply Z.ltb_ge; lia).
  rewrite Hm1. simpl. rewrite Hneg. simpl. rewrite Hidle. simpl.
  apply lookup_lt_Some in Hidle. apply Nat.ltb_lt in Hidle. by rewrite Hidle.
Qed.

(** X4. Starting playback.  For a key of the table whose entry has a chunk,
    when the backend answers with a channel of the tracker that is idle, each
    of the four play functions makes its one backend call, records the key as
    the occupant of that channel and returns the channel; nothing else
    changes. *)
Theorem play_records_occupant call answer error soundKey w r c :
  sounds (sfx w) !! soundKey = Some r ->
  _chunk r = Some c ->
  0 <= answer ->
  channelPlayback (sfx w) !! Z.to_nat answer = Some nullResourceKey ->
  play_by call answer error soundKey w
  = Done answer
      {| sfx := set_channelPlayback (<[Z.to_nat answer := soundKey]> (channelPlayback (sfx w)))
                  (sfx w);
         mixer := mixer w;
         trace := trace w ++ [Called_Mix_Play call c] |}.
Proof. apply play_by_success. Qed.

(** X5. When the backend refuses (it answers -1), each of the four play
    functions returns [NULL_CHANNEL]; the module data and the channel volumes
    of the backend are as before, and one warning is logged after the call,
    with the key and the text [Mix_GetError] returns for the failed call. *)
Theorem play_refused_by_backend call error soundKey w r c :
  sounds (sfx w) !! soundKey = Some r ->
  _chunk r = Some c ->
  play_by call (-1) error soundKey w
  = Done NULL_CHANNEL
      {| sfx := sfx w;
         mixer := mixer w;
         trace := trace w ++
           [Called_Mix_Play call c;
            Logged WARN msg_sfx_fail_play_sound
              (to_string soundKey +:+ " : " +:+ error)] |}.
Proof.
  intros Hr Hc. rewrite play_by_body.
  unfold findChunk, recordPlayback, onPlayError. run. rewrite Hr, Hc. simpl.
  by rewrite <- (assoc_L (++)).
Qed.

(** X6. A channel is never assigned twice: when the backend answers with a
    channel whose occupant is not the null key, each of the four play
    functions stops in its assertion, after the backend call. *)
Theorem play_on_occupied_channel call answer error soundKey w r c occupant :
  sounds (sfx w) !! soundKey = Some r ->
  _chunk r = Some c ->
  0 <= answer ->
  channelPlayback (sfx w) !! Z.to_nat answer = Some occupant ->
  occupant <> nullResourceKey ->
  play_by call answer error soundKey w = Stopped AssertionFailed.
Proof.
  intros Hr Hc Hpos Hocc Hne. rewrite play_by_body.
  unfold findChunk, recordPlayback, vec_get. run. rewrite Hr, Hc. simpl.
  assert (Hm1 : (answer =? -1) = false) by (apply Z.eqb_neq; lia).
  assert (Hneg : (answer <? 0) = false) by (apply Z.ltb_ge; lia).
  rewrite Hm1. simpl. rewrite Hneg. simpl. rewrite Hocc. simpl.
  apply Z.eqb_neq in Hne. by rewrite Hne.
Qed.

(** X7. Playing and finishing is a round trip on the module data: after a
    play on an idle channel and the completion callback for that channel,
    the module data are what they were before the play. *)
Theorem play_then_finished call answer error soundKey w r c :
  sounds (sfx w) !! soundKey = Some r ->
  _chunk r = Some c ->
  0 <= answer < _numMixChannels (sfxconfiguration (sfx w)) ->
  channelPlayback (sfx w) !! Z.to_nat answer = Some nullResourceKey ->
  exists w',
    (play_by call answer error soundKey ;;; onChannelFinished answer) w = Done tt w'
    /\ sfx w' = sfx w
    /\ mixer w' = mixer w.
Proof.
  intros Hr Hc [Hlo Hhi] Hidle. unfold bind at 1.
  rewrite (play_by_success call answer error soundKey w r c) by done.
  unfold onChannelFinished, vec_set. run.
  assert (Hin : (0 <=? answer) && (answer <? _numMixChannels (sfxconfiguration (sfx w))) = true).
  { apply andb_true_intro. split; [by apply Z.leb_le | by apply Z.ltb_lt]. }
  assert (Hneg : (answer <? 0) = false) by (apply Z.ltb_ge; lia).
  rewrite Hin. simpl. rewrite Hneg, length_insert.
  apply lookup_lt_Some in Hidle as Hlt. apply Nat.ltb_lt in Hlt. rewrite Hlt. simpl.
  eexists. split; [reflexivity|]. simpl. split; [|done].
  rewrite list_insert_insert_eq, list_insert_id by done. by destruct (sfx w).
Qed.

End Playback.

(* ===================================================================== *)
(** * The channel volume cache *)
(* ===================================================================== *)

Section Volume.
Context `{Platform}.

Ltac run :=
  unfold bind, ret, get, put, get_mixer, put_mixer, log, emit, stop, assert; simpl.

(** [setChannelVolume] on a channel of the tracker, in full. *)
Lemma setChannelVolume_valid channel volume w prev :
  channel <> NULL_CHANNEL ->
  ALL_CHANNELS <= channel ->
  0 <= channel < _numMixChannels (sfxconfiguration (sfx w)) ->
  (Z.to_nat channel < length (channelVolume (sfx w)))%nat ->
  mix_channel_volume (mixer w) !! Z.to_nat channel = Some prev ->
  setChannelVolume channel volume w
  = Done tt
      {| sfx := set_channelVolume (<[Z.to_nat channel := prev]> (channelVolume (sfx w))) (sfx w);
         mixer := {| mix_channel_volume :=
                       <[Z.to_nat channel :=
                           mix_new_volume (clamp volume MIN_VOLUME MAX_VOLUME) prev]>
                         (mix_channel_volume (mixer w)) |};
         trace := trace w ++ [Called_Mix_Volume channel (clamp volume MIN_VOLUME MAX_VOLUME)] |}.
Proof.
  intros Hnull Hall [Hlo Hhi] Hlen Hprev.
  apply Z.eqb_neq in Hnull.
  assert (Hassert : (ALL_CHANNELS <=? channel)
                    && (channel <=? _numMixChannels (sfxconfiguration (sfx w)) - 1) = true).
  { apply andb_true_intro. split; apply Z.leb_le; lia. }
  assert (Hm1 : (channel =? -1) = false) by (apply Z.eqb_neq; lia).
  assert (Hneg : (channel <? 0) = false) by (apply Z.ltb_ge; lia).
  unfold setChannelVolume, Mix_Volume, vec_set. run.
  rewrite Hnull, Hassert. simpl. rewrite Hm1, Hneg, Hprev. simpl.
  apply Nat.ltb_lt in Hlen. by rewrite Hlen.
Qed.

Lemma clamp_bounds v lo hi : lo <= hi -> lo <= clamp v lo hi <= hi.
Proof.
  intros Hle. unfold clamp.
  destruct (v <? lo) eqn:H1; [lia|]. apply Z.ltb_ge in H1.
  destruct (hi <? v) eqn:H2; [lia|]. apply Z.ltb_ge in H2. lia.
Qed.

(** X8. The volume cache is one call behind.  With the volume range of the
    header inside the backend's (0 <= MIN_VOLUME <= MAX_VOLUME <=
    MIX_MAX_VOLUME), on a channel of the tracker: after
    [setChannelVolume(c, v1)] and [setChannelVolume(c, v2)],
    [getChannelVolume(c)] returns the clamped [v1], while the backend plays
    the channel at the clamped [v2]. *)
Theorem channel_volume_cache_lags channel v1 v2 w :
  0 <= MIN_VOLUME -> MIN_VOLUME <= MAX_VOLUME -> MAX_VOLUME <= MIX_MAX_VOLUME ->
  channel <> NULL_CHANNEL ->
  ALL_CHANNELS <= channel ->
  0 <= channel < _numMixChannels (sfxconfiguration (sfx w)) ->
  channels_ok w ->
  exists w',
    (setChannelVolume channel v1 ;;; setChannelVolume channel v2 ;;;
     getChannelVolume channel) w
    = Done (clamp v1 MIN_VOLUME MAX_VOLUME) w'
    /\ mix_channel_volume (mixer w') !! Z.to_nat channel
       = Some (clamp v2 MIN_VOLUME MAX_VOLUME).
Proof.
  intros Hmin Hmm Hmax Hnull Hall Hch (Hn & Hl1 & Hl2 & Hl3 & _).
  assert (Hnew : forall v prev, mix_new_volume (clamp v MIN_VOLUME MAX_VOLUME) prev
                                = clamp v MIN_VOLUME MAX_VOLUME).
  { intros v prev. pose proof (clamp_bounds v _ _ Hmm) as [Hlo Hhi].
    unfold mix_new_volume.
    destruct (clamp v MIN_VOLUME MAX_VOLUME <? 0) eqn:H1; [apply Z.ltb_lt in H1; lia|].
    destruct (MIX_MAX_VOLUME <? clamp v MIN_VOLUME MAX_VOLUME) eqn:H2; [|done].
    apply Z.ltb_lt in H2. lia. }
  assert (Hlt : (Z.to_nat channel < Z.to_nat (_numMixChannels (sfxconfiguration (sfx w))))%nat)
    by lia.
  destruct (lookup_lt_is_Some_2 (mix_channel_volume (mixer w)) (Z.to_nat channel))
    as [prev Hprev]; [lia|].
  unfold bind at 1.
  rewrite (setChannelVolume_valid channel v1 w prev) by (done || lia).
  unfold bind at 1.
  rewrite (setChannelVolume_valid channel v2 _ (clamp v1 MIN_VOLUME MAX_VOLUME)); simpl;
    [| done | done | done | rewrite length_insert; lia
     | rewrite Hnew; apply list_lookup_insert_eq; lia].
  assert (Hassert : (ALL_CHANNELS <=? channel)
                    && (channel <=? _numMixChannels (sfxconfiguration (sfx w)) - 1) = true).
  { apply andb_true_intro. split; apply Z.leb_le; lia. }
  assert (Hneg : (channel <? 0) = false) by (apply Z.ltb_ge; lia).
  apply Z.eqb_neq in Hnull.
  unfold getChannelVolume, vec_get. run. rewrite Hnull. simpl. rewrite Hassert. simpl.
  rewrite Hneg.
  rewrite list_lookup_insert_eq by (rewrite length_insert; lia).
  eexists. split; [reflexivity|]. simpl.
  rewrite Hnew. apply list_lookup_insert_eq. rewrite length_insert. lia.
Qed.

(** X9. A negative channel other than [NULL_CHANNEL] -- [ALL_CHANNELS] when
    it is negative -- never gets through [setChannelVolume] or
    [getChannelVolume]: where the assertion lets it pass, the call indexes
    outside the arrays (the module's cache or the backend's channels). *)
Theorem channel_volume_negative_channel channel volume w :
  channel <> NULL_CHANNEL ->
  channel < 0 ->
  let fault :=
    if (ALL_CHANNELS <=? channel)
       && (channel <=? _numMixChannels (sfxconfiguration (sfx w)) - 1)
    then UndefinedBehaviour else AssertionFailed in
  setChannelVolume channel volume w = Stopped fault
  /\ getChannelVolume channel w = Stopped fault.
Proof.
  intros Hnull Hneg. apply Z.eqb_neq in Hnull. apply Z.ltb_lt in Hneg as Hneg'.
  unfold setChannelVolume, getChannelVolume, Mix_Volume, vec_set, vec_get. run.
  rewrite Hnull.
  destruct ((ALL_CHANNELS <=? channel)
            && (channel <=? _numMixChannels (sfxconfiguration (sfx w)) - 1)); simpl; [|done].
  rewrite Hneg'. split; [|done].
  destruct (channel =? -1) eqn:Hm1; [|done].
  by destruct (mix_channel_volume (mixer w)).
Qed.

End Volume.

(* ===================================================================== *)
(** * Initialisation, loading and unloading *)
(* ===================================================================== *)

Section Lifecycle.
Context `{Platform}.

Ltac run :=
  unfold bind, ret, get, put, get_mixer, put_mixer, log, emit, stop, assert; simpl.

(** In a signed sample type the conversion is undefined where [sinf]
    returns -1: the product with the least value of the type is one more
    than its greatest value. *)
Lemma beep_sample_at_minus_one fmt waveFreq_rad_per_s samplePeriod_s s :
  supported_format fmt = true ->
  is_signed fmt = true ->
  sinf (fmul waveFreq_rad_per_s (fmul (float_of_int s) samplePeriod_s))
    = S754_finite true 8388608 (-23) ->
  beep_sample fmt waveFreq_rad_per_s samplePeriod_s s = None.
Proof.
  intros Hfmt Hsigned Hsin. unfold beep_sample. rewrite Hsin, Hsigned.
  destruct fmt; try discriminate; vm_compute; reflexivity.
Qed.

(** X10. [initialize] at program start, when the backend opens, for a
    supported sample format, a channel count that is not negative and a
    sampling rate above 0 and below 2^24.  If no conversion in the sample
    loop of the fallback tone is undefined, it returns [true]; the table then
    holds the fallback sound alone, under key 0, with reference count 0 and a
    tone of half as many samples as the rate (rounded down); every channel
    is idle and cached at [MAX_VOLUME]; the queue is empty.  Otherwise the
    call has undefined behaviour, and that is so for a signed sample format
    whenever [sinf] returns -1 for one of the samples. *)
Theorem initialize_at_program_start sfxconf error w0 :
  sfx w0 = static_init ->
  supported_format (_sampleFormat sfxconf) = true ->
  0 <= _numMixChannels sfxconf ->
  0 < _samplingFreq_hz sfxconf < 2 ^ 24 ->
  let defined :=
    samples_defined (_sampleFormat sfxconf) (_samplingFreq_hz sfxconf) errorSoundFreq_hz
      (_samplingFreq_hz sfxconf / 2) in
  (defined ->
   exists w r,
     initialize 0 error sfxconf w0 = Done true w
     /\ errorSoundKey (sfx w) = 0
     /\ nextResourceKey (sfx w) = 1
     /\ sounds (sfx w) = {[ 0 := r ]}
     /\ _name r = errorSoundName
     /\ _referenceCount r = 0
     /\ Z.of_nat (length (default [] (abuf <$> _chunk r))) = _samplingFreq_hz sfxconf / 2
     /\ channelPlayback (sfx w)
        = replicate (Z.to_nat (_numMixChannels sfxconf)) nullResourceKey
     /\ channelVolume (sfx w)
        = replicate (Z.to_nat (_numMixChannels sfxconf)) MAX_VOLUME
     /\ unloadQueue (sfx w) = [])
  /\ (~ defined -> initialize 0 error sfxconf w0 = Stopped UndefinedBehaviour)
  /\ (forall s,
        0 <= s < _samplingFreq_hz sfxconf / 2 ->
        is_signed (_sampleFormat sfxconf) = true ->
        sinf (fmul (waveFreq_rad_per_s_of errorSoundFreq_hz)
                (fmul (float_of_int s) (samplePeriod_s_of (_samplingFreq_hz sfxconf))))
          = S754_finite true 8388608 (-23) ->
        ~ defined).
Proof.
  intros Hs Hfmt Hn Hrate defined.
  assert (Hcount : sampleCount_of (_samplingFreq_hz sfxconf) errorSoundDuration_s
                   = Some (_samplingFreq_hz sfxconf / 2))
    by (apply sampleCount_of_half_second; lia).
  assert (Hc : 0 <= _samplingFreq_hz sfxconf / 2) by (apply Z.div_pos; lia).
  split; [|split].
  - intros Hdef.
    destruct (initialize_establishes sfxconf error w0 (_samplingFreq_hz sfxconf / 2))
      as (w & r & Hrun & Hek & Hnext & Hsounds & Hname & Hrc & Hlen & Hcp & Hcv & Hq & _);
      try done.
    + destruct (_sampleFormat sfxconf); simpl in *; try discriminate;
        try (left; discriminate); by right.
    + exists w, r. by repeat split.
  - intros Hno.
    assert (Hnone : beep_samples (_sampleFormat sfxconf) (_samplingFreq_hz sfxconf)
                      errorSoundFreq_hz (_samplingFreq_hz sfxconf / 2) = None).
    { destruct (beep_samples _ _ _ _) eqn:E; [|done]. destruct Hno. by eexists. }
    apply Z.ltb_ge in Hn as Hn'. apply Z.ltb_ge in Hc as Hc'.
    unfold initialize, generateErrorSound, generateSineBeep, Mix_OpenAudio_ok,
      Mix_AllocateChannels, vec_resize.
    destruct sfxconf as [freq fmt mode n chunksize]. simpl in *.
    destruct fmt; simpl in Hfmt; try discriminate;
      run; rewrite Hn'; simpl; rewrite Hcount, Hc'; simpl; by rewrite Hnone.
  - intros s Hrange Hsigned Hsin Hdef.
    apply mapM_is_Some_1 in Hdef.
    assert (Hin : s ∈ seqZ 0 (_samplingFreq_hz sfxconf / 2))
      by (apply elem_of_seqZ; lia).
    pose proof (proj1 (Forall_forall _ _) Hdef s Hin) as Hsome. simpl in Hsome.
    rewrite (beep_sample_at_minus_one _ _ _ _ Hfmt Hsigned Hsin) in Hsome.
    by destruct Hsome.
Qed.

(** X11. [initialize] when the backend does not open: it returns [false] after
    logging the text [Mix_GetError] returns for the failed call; only the
    stored configuration has changed, so at program start there is no
    fallback sound, and a load that then fails to decode stops in the
    assertion of [returnErrorSound]. *)
Theorem initialize_backend_refuses open_result error sfxconf w0 soundName :
  open_result <> 0 ->
  SDL_AUDIO_ISFLOAT (_sampleFormat sfxconf) = false ->
  sfx w0 = static_init ->
  exists w,
    initialize open_result error sfxconf w0 = Done false w
    /\ sfx w = set_sfxconfiguration sfxconf static_init
    /\ mixer w = mixer w0
    /\ trace w = trace w0 ++
         [Logged INFO msg_sfx_initializing "";
          Called_Mix_OpenAudio (_samplingFreq_hz sfxconf) (_sampleFormat sfxconf)
            (_outputMode sfxconf) (_chunkSize sfxconf);
          Logged ERROR msg_sfx_fail_open_audio error]
    /\ loadSoundWAV None soundName w = Stopped AssertionFailed.
Proof.
  intros Hopen Hfloat Hs. unfold initialize. run. rewrite Hfloat. simpl.
  apply Z.eqb_neq in Hopen. rewrite Hopen. simpl.
  eexists. split; [reflexivity|]. simpl. rewrite Hs.
  split; [done|]. split; [done|]. split; [by rewrite <- !(assoc_L (++))|].
  unfold loadSoundWAV, returnErrorSound. run. by rewrite map_to_list_empty.
Qed.

(** X12. Keys are not used twice.  In a consistent world, a load of a name
    that is not in the table and decodes returns the counter's value, a key
    that is in the table for no entry, queued for no unload and on no
    channel; afterwards the table holds the clip under that key with
    reference count 1, every other entry is as before, and the world is
    consistent again. *)
Theorem loadSoundWAV_new_key chunk soundName w :
  consistent w ->
  soundName ∉ table_names (sounds (sfx w)) ->
  let key := nextResourceKey (sfx w) in
  exists w',
    loadSoundWAV (Some chunk) soundName w = Done key w'
    /\ sounds (sfx w) !! key = None
    /\ (key ∉ unloadQueue (sfx w))
    /\ (key ∉ channelPlayback (sfx w))
    /\ key <> errorSoundKey (sfx w)
    /\ sounds (sfx w') !! key
       = Some {| _name := soundName; _chunk := Some chunk; _referenceCount := 1 |}
    /\ (forall k, k <> key -> sounds (sfx w') !! k = sounds (sfx w) !! k)
    /\ nextResourceKey (sfx w') = key + 1
    /\ consistent w'.
Proof.
  intros Hcons Hn key.
  pose proof Hcons as (Ht & (Hnd & Hfb & Hall) & (_ & _ & _ & _ & Hocc)).
  destruct (table_ok_emplace (sfx w)
              {| _name := soundName; _chunk := Some chunk; _referenceCount := 1 |} Ht Hn)
    as (_ & Hem & Hfresh).
  pose proof Ht as ((rf & Hf & _) & _ & Hkeys).
  assert (Hek : key_issued (sfx w) (errorSoundKey (sfx w))) by (apply Hkeys; eauto).
  eexists. split; [by apply loadSoundWAV_fresh|].
  split; [done|]. split; [|split; [|split; [|split; [|split; [|split; [done|]]]]]].
  - intros Hin. apply (proj1 (Forall_forall _ _) Hall) in Hin. unfold key_issued in Hin.
    subst key. lia.
  - intros Hin. apply (proj1 (Forall_forall _ _) Hocc) in Hin as [Hin|Hin].
    + unfold key_issued, nullResourceKey in *. subst key. lia.
    + unfold key_issued in Hin. subst key. lia.
  - unfold key_issued in Hek. subst key. lia.
  - simpl. rewrite Hem. apply lookup_insert_eq.
  - intros k Hne. simpl. rewrite Hem. by apply lookup_insert_ne.
  - eapply loadSoundWAV_consistent; [|exact Hcons]. by apply loadSoundWAV_fresh.
Qed.

(** X13. Loading a new name twice: the second load returns the key of the
    first, and the entry's reference count is 2, whatever the decoder would
    have answered the second time. *)
Theorem loadSoundWAV_new_name_twice chunk decoded soundName w :
  consistent w ->
  soundName ∉ table_names (sounds (sfx w)) ->
  exists key w',
    (first <- loadSoundWAV (Some chunk) soundName ;;
     second <- loadSoundWAV decoded soundName ;;
     ret (first, second)) w = Done (key, key) w'
    /\ sounds (sfx w') !! key
       = Some {| _name := soundName; _chunk := Some chunk; _referenceCount := 2 |}
    /\ decode_attempts (trace w')
       = decode_attempts (trace w)
         ++ [RESOURCE_PATH_SOUNDS +:+ soundName +:+ FILE_EXTENSION].
Proof.
  intros (Ht & _) Hn.
  destruct (table_ok_emplace (sfx w)
              {| _name := soundName; _chunk := Some chunk; _referenceCount := 1 |} Ht Hn)
    as ((_ & Hu' & _) & Hem & Hfresh).
  exists (nextResourceKey (sfx w)). eexists.
  unfold bind at 1. rewrite loadSoundWAV_fresh by done.
  unfold bind at 1.
  rewrite (loadSoundWAV_hit decoded _ (nextResourceKey (sfx w))
             {| _name := soundName; _chunk := Some chunk; _referenceCount := 1 |});
    simpl; [| exact Hu' | rewrite Hem; apply lookup_insert_eq].
  split; [reflexivity|]. simpl. split; [apply lookup_insert_eq|].
  unfold decode_attempts. rewrite !omap_app. simpl. by rewrite !app_nil_r.
Qed.

(** X14. An unload request followed by a tick.  While every key already
    queued is still on a channel, for a key of the table that is not the
    fallback's and not yet queued: if the key is on no channel, the request
    and the next tick free its chunk, erase its entry alone and leave the
    queue as it was; if the key is on a channel, the tick frees nothing and
    the key stays queued behind the others. *)
Theorem unload_request_then_service soundKey w r :
  Forall (fun k => k ∈ channelPlayback (sfx w)) (unloadQueue (sfx w)) ->
  sounds (sfx w) !! soundKey = Some r ->
  soundKey <> errorSoundKey (sfx w) ->
  soundKey ∉ unloadQueue (sfx w) ->
  exists w',
    (queueUnloadSound soundKey ;;; service) w = Done tt w'
    /\ mixer w' = mixer w
    /\ if decide (soundKey ∈ channelPlayback (sfx w))
       then sfx w' = set_unloadQueue (unloadQueue (sfx w) ++ [soundKey]) (sfx w)
            /\ trace w' = trace w
       else sfx w' = set_sounds (delete soundKey (sounds (sfx w))) (sfx w)
            /\ trace w' = trace w ++ [Called_Mix_FreeChunk (_chunk r)].
Proof.
  intros Hall Hr Hne Hq. unfold bind at 1.
  rewrite (queueUnloadSound_appends soundKey w r) by done.
  unfold service.
  destruct (decide (soundKey ∈ channelPlayback (sfx w))) as [Hin|Hnin].
  - destruct (service_idle_keys_last_aux
                {| sfx := set_unloadQueue (unloadQueue (sfx w) ++ [soundKey]) (sfx w);
                   mixer := mixer w; trace := trace w |}
                (unloadQueue (sfx w) ++ [soundKey]) []) as (w' & Hrun & Heq);
      simpl; [by rewrite app_nil_r | | done | apply NoDup_nil_2 | done |].
    + apply Forall_app. split; [done|]. by apply Forall_singleton.
    + exists w'. split; [exact Hrun|]. subst w'. simpl.
      split; [done|]. split; [by destruct (sfx w) | by rewrite app_nil_r].
  - destruct (service_idle_keys_last_aux
                {| sfx := set_unloadQueue (unloadQueue (sfx w) ++ [soundKey]) (sfx w);
                   mixer := mixer w; trace := trace w |}
                (unloadQueue (sfx w)) [soundKey]) as (w' & Hrun & Heq);
      simpl; [done | done | by apply Forall_singleton | apply NoDup_singleton | |].
    + apply Forall_singleton. split; [done|]. by rewrite Hr.
    + exists w'. split; [exact Hrun|]. subst w'. simpl.
      split; [done|]. unfold chunk_at. rewrite Hr. split; [by destruct (sfx w) | done].
Qed.

(** X15. In a consistent world a load always returns a usable key: whatever
    the name and whatever the decoder answers, [loadSoundWAV] returns a key
    that is in the table afterwards -- the entry of that name, or the
    fallback's when the decode failed -- and the world stays consistent. *)
Theorem loadSoundWAV_always_returns decoded soundName w :
  consistent w ->
  exists key w' r,
    loadSoundWAV decoded soundName w = Done key w'
    /\ sounds (sfx w') !! key = Some r
    /\ (_name r = soundName \/ (decoded = None /\ key = errorSoundKey (sfx w)))
    /\ consistent w'.
Proof.
  intros Hcons.
  assert (Hgoal : exists key w', loadSoundWAV decoded soundName w = Done key w'
            /\ exists r, sounds (sfx w') !! key = Some r
                 /\ (_name r = soundName \/ (decoded = None /\ key = errorSoundKey (sfx w)))).
  { pose proof Hcons as (Ht & _). pose proof Ht as ((rf & Hf & _) & Hu & _).
    destruct (find_by_name soundName (map_to_list (sounds (sfx w)))) as [[k0 r0]|] eqn:Hfind.
    - apply find_by_name_Some in Hfind as [Hin <-]. apply elem_of_map_to_list in Hin.
      eexists _, _. split; [by apply loadSoundWAV_hit|]. simpl.
      eexists. split; [apply lookup_insert_eq|]. by left.
    - destruct decoded as [chunk|].
      + apply find_by_name_miss in Hfind.
        destruct (table_ok_emplace (sfx w)
                    {| _name := soundName; _chunk := Some chunk; _referenceCount := 1 |}
                    Ht Hfind) as (_ & Hem & _).
        eexists _, _. split; [by apply loadSoundWAV_fresh|]. simpl.
        eexists. split; [rewrite Hem; apply lookup_insert_eq|]. by left.
      + unfold loadSoundWAV, returnErrorSound. run. rewrite Hfind. simpl. rewrite Hf.
        eexists _, _. split; [reflexivity|]. simpl.
        eexists. split; [apply lookup_insert_eq|]. by right. }
  destruct Hgoal as (key & w' & Hrun & r & Hr & Hname).
  exists key, w', r. split; [done|]. split; [done|]. split; [done|].
  by eapply loadSoundWAV_consistent.
Qed.

(** X16. After a tick that returns, every key left in the queue is on a
    channel: the condition under which a following unload request and tick
    work (X14) holds after each tick. *)
Theorem service_leaves_playing_keys w w' :
  service w = Done tt w' ->
  Forall (fun k => k ∈ channelPlayback (sfx w')) (unloadQueue (sfx w')).
Proof.
  intros Hrun. rewrite (service_queue _ _ Hrun).
  assert (Hcp : channelPlayback (sfx w') = channelPlayback (sfx w)).
  { revert Hrun. unfold service. rewrite unloadUnusedSounds_unfold.
    unfold bind at 1, put at 1. unfold bind at 1.
    match goal with |- context [for_each unloadSound ?l ?w0] =>
      destruct (for_each unloadSound l w0) as [[] w1|] eqn:Hfe end; [|discriminate].
    apply for_each_unloadSound_keeps in Hfe as (_ & Hcp & _).
    run. intros [= <-]. simpl. by rewrite Hcp. }
  rewrite Hcp. apply Forall_forall. intros k Hin. apply list_elem_of_In in Hin.
  apply List.filter_In in Hin as [_ Hp].
  destruct (not_playing (channelPlayback (sfx w)) k) eqn:Hnp; [discriminate|].
  destruct (decide (k ∈ channelPlayback (sfx w))) as [|Hnin]; [done|].
  apply not_playing_spec in Hnin. congruence.
Qed.

End Lifecycle.

(* ===================================================================== *)
(** * Runs for the statements above *)
(* ===================================================================== *)

Section More_runs.
#[local] Existing Instance pxr_platform.

Ltac by_compute := vm_compute; reflexivity.
Ltac decide_by_compute := apply (bool_decide_unpack _); vm_compute; exact I.

Lemma w_init_consistent : consistent w_init.
Proof.
  apply (initialize_consistent two_channels "" boot); [done | by_compute].
Qed.

Lemma w_explosion_consistent : consistent w_explosion.
Proof.
  apply (loadSoundWAV_consistent (Some (clip [3; 1; 4])) "explosion" w_init 1);
    [by_compute | apply w_init_consistent].
Qed.

(** "explosion" playing on channel 0. *)
Lemma w_explosion_playing :
  play_by (Mix_PlayChannel 0) 0 "" 1 w_explosion
  = Done 0 (world_after (playSound 0 "" 1 0) w_explosion).
Proof. by_compute. Qed.

(** The world of the pending unload is reached by four calls and is
    consistent. *)
Lemma reachable_consistent_witness : consistent w_pending.
Proof.
  apply reachable_consistent.
  apply (reachable_step (world_after (playSound 0 "" 1 0) w_explosion));
    [|apply (step_queueUnloadSound 1); vm_compute; reflexivity].
  apply (reachable_step w_explosion);
    [|apply (step_playSound 0 "" 1 0 w_explosion 0); vm_compute; reflexivity].
  apply (reachable_step w_init);
    [|apply (step_loadSoundWAV (Some (clip [3; 1; 4])) "explosion" w_init 1);
      vm_compute; reflexivity].
  apply (reachable_initialize two_channels "" boot); [reflexivity | vm_compute; reflexivity].
Defined.

(** The tick on the queue [1; 2] with key 2 playing: the tail is [2]. *)
Lemma service_effect_witness :
  exists w',
    service w_queue_two = Done tt w'
    /\ unloadQueue (sfx w') = [2]
    /\ sounds (sfx w') !! 2 = None.
Proof.
  eexists. split.
  - apply (service_effect w_queue_two); decide_by_compute.
  - split; vm_compute; reflexivity.
Defined.

(** Key 1 is playing on channel 0 and key 2 is idle: the tick frees key 2
    and keeps key 1 in the queue. *)
Lemma service_idle_keys_last_witness :
  exists w',
    service w_playing_first = Done tt w'
    /\ unloadQueue (sfx w') = [1]
    /\ sounds (sfx w') !! 2 = None
    /\ sounds (sfx w') !! 1 = sounds (sfx w_playing_first) !! 1.
Proof.
  destruct (service_idle_keys_last w_playing_first [1] [2])
    as (w' & Hrun & Hq & Hgone & Hkept & _).
  - vm_compute. reflexivity.
  - decide_by_compute.
  - decide_by_compute.
  - decide_by_compute.
  - decide_by_compute.
  - exists w'. split; [exact Hrun|]. split; [exact Hq|].
    split; [apply Hgone; by left | apply Hkept; decide_by_compute].
Defined.

Lemma play_records_occupant_witness :
  exists w',
    playSoundFadeIn 1 "" 1 0 250 w_explosion = Done 1 w'
    /\ channelPlayback (sfx w') = [-1; 1].
Proof.
  eexists. split.
  - apply (play_records_occupant (Mix_FadeInChannel 0 250) 1 "" 1 w_explosion
             {| _name := "explosion"; _chunk := Some (clip [3; 1; 4]); _referenceCount := 1 |}
             (clip [3; 1; 4]));
      [vm_compute; reflexivity | reflexivity | lia | vm_compute; reflexivity].
  - vm_compute. reflexivity.
Defined.

Lemma play_refused_by_backend_witness :
  exists w',
    playSoundTimed (-1) "No free channels available" 1 0 500 w_explosion
    = Done NULL_CHANNEL w'
    /\ sfx w' = sfx w_explosion
    /\ last (trace w')
       = Some (Logged WARN msg_sfx_fail_play_sound "1 : No free channels available").
Proof.
  eexists. split.
  - apply (play_refused_by_backend (Mix_PlayChannelTimed 0 500)
             "No free channels available" 1 w_explosion
             {| _name := "explosion"; _chunk := Some (clip [3; 1; 4]); _referenceCount := 1 |}
             (clip [3; 1; 4])); [vm_compute; reflexivity | reflexivity].
  - split; [reflexivity | vm_compute; reflexivity].
Defined.

Lemma play_on_occupied_channel_witness :
  playSound 0 "" 1 0 (world_after (playSound 0 "" 1 0) w_explosion)
  = Stopped AssertionFailed.
Proof.
  apply (play_on_occupied_channel (Mix_PlayChannel 0) 0 "" 1
           (world_after (playSound 0 "" 1 0) w_explosion)
           {| _name := "explosion"; _chunk := Some (clip [3; 1; 4]); _referenceCount := 1 |}
           (clip [3; 1; 4]) 1);
    [vm_compute; reflexivity | reflexivity | lia | vm_compute; reflexivity | discriminate].
Defined.

Lemma play_then_finished_witness :
  exists w',
    (playSound 0 "" 1 0 ;;; onChannelFinished 0) w_explosion = Done tt w'
    /\ sfx w' = sfx w_explosion.
Proof.
  destruct (play_then_finished (Mix_PlayChannel 0) 0 "" 1 w_explosion
              {| _name := "explosion"; _chunk := Some (clip [3; 1; 4]); _referenceCount := 1 |}
              (clip [3; 1; 4])) as (w' & Hrun & Hs & _).
  - vm_compute. reflexivity.
  - reflexivity.
  - vm_compute. split; [discriminate | reflexivity].
  - vm_compute. reflexivity.
  - exists w'. split; [exact Hrun | exact Hs].
Defined.

Lemma channel_volume_cache_lags_witness :
  exists w',
    (setChannelVolume 0 40 ;;; setChannelVolume 0 300 ;;; getChannelVolume 0) w_init
    = Done 40 w'
    /\ mix_channel_volume (mixer w') !! 0%nat = Some 128.
Proof.
  destruct (channel_volume_cache_lags 0 40 300 w_init) as (w' & Hrun & Hm).
  - vm_compute. discriminate.
  - vm_compute. discriminate.
  - vm_compute. discriminate.
  - discriminate.
  - vm_compute. discriminate.
  - vm_compute. split; [discriminate | reflexivity].
  - apply w_init_consistent.
  - exists w'. split; [exact Hrun | exact Hm].
Defined.

Lemma channel_volume_negative_channel_witness :
  setChannelVolume (-1) 64 w_init = Stopped UndefinedBehaviour
  /\ getChannelVolume (-1) w_init = Stopped UndefinedBehaviour.
Proof.
  assert (Hne : -1 <> NULL_CHANNEL) by discriminate.
  assert (Hlt : -1 < 0) by reflexivity.
  exact (channel_volume_negative_channel (-1) 64 w_init Hne Hlt).
Defined.

Lemma initialize_at_program_start_witness :
  samples_defined SAMPLE_FORMAT_U8 8000 errorSoundFreq_hz 4000
  /\ exists w r,
       initialize 0 "" two_channels boot = Done true w
       /\ sounds (sfx w) = {[ 0 := r ]}
       /\ Z.of_nat (length (default [] (abuf <$> _chunk r))) = 4000.
Proof.
  assert (Hdef : samples_defined SAMPLE_FORMAT_U8 8000 errorSoundFreq_hz 4000)
    by (vm_compute; by eexists).
  split; [exact Hdef|].
  destruct (initialize_at_program_start two_channels "" boot) as [Hok _].
  - reflexivity.
  - reflexivity.
  - vm_compute. discriminate.
  - vm_compute. split; reflexivity.
  - destruct (Hok Hdef) as (w & r & Hrun & _ & _ & Hs & _ & _ & Hlen & _).
    exists w, r. split; [exact Hrun|]. split; [exact Hs | exact Hlen].
Defined.

Lemma initialize_backend_refuses_witness :
  exists w,
    initialize (-1) "No available audio device" two_channels boot = Done false w
    /\ sounds (sfx w) = ∅
    /\ last (trace w)
       = Some (Logged ERROR msg_sfx_fail_open_audio "No available audio device")
    /\ loadSoundWAV None "explosion" w = Stopped AssertionFailed.
Proof.
  destruct (initialize_backend_refuses (-1) "No available audio device" two_channels boot
              "explosion")
    as (w & Hrun & Hs & _ & Ht & Hload).
  - discriminate.
  - reflexivity.
  - reflexivity.
  - exists w. split; [exact Hrun|]. split; [by rewrite Hs|].
    split; [by rewrite Ht | exact Hload].
Defined.

Lemma loadSoundWAV_new_key_witness :
  exists w',
    loadSoundWAV (Some (clip [2; 7])) "laser" w_explosion = Done 2 w'
    /\ sounds (sfx w_explosion) !! 2 = None
    /\ (_referenceCount <$> sounds (sfx w') !! 2) = Some 1.
Proof.
  destruct (loadSoundWAV_new_key (clip [2; 7]) "laser" w_explosion)
    as (w' & Hrun & Hfresh & _ & _ & _ & Hk & _).
  - apply w_explosion_consistent.
  - decide_by_compute.
  - exists w'. split; [exact Hrun|]. split; [exact Hfresh|].
    change (nextResourceKey (sfx w_explosion)) with 2 in Hk. by rewrite Hk.
Defined.

Lemma loadSoundWAV_new_name_twice_witness :
  exists w',
    (first <- loadSoundWAV (Some (clip [3; 1; 4])) "explosion" ;;
     second <- loadSoundWAV None "explosion" ;;
     ret (first, second)) w_init = Done (1, 1) w'
    /\ (_referenceCount <$> sounds (sfx w') !! 1) = Some 2.
Proof.
  destruct (loadSoundWAV_new_name_twice (clip [3; 1; 4]) None "explosion" w_init)
    as (key & w' & Hrun & Hk & _).
  - apply w_init_consistent.
  - decide_by_compute.
  - assert (Hkey : key = 1).
    { assert (Hc : world_after (first <- loadSoundWAV (Some (clip [3; 1; 4])) "explosion" ;;
                                second <- loadSoundWAV None "explosion" ;;
                                ret (first, second)) w_init = w') by (unfold world_after; by rewrite Hrun).
      revert Hrun. vm_compute. congruence. }
    subst key. exists w'. split; [exact Hrun|]. by rewrite Hk.
Defined.

Lemma unload_request_then_service_witness :
  exists w',
    (queueUnloadSound 1 ;;; service) w_explosion = Done tt w'
    /\ sounds (sfx w') !! 1 = None
    /\ unloadQueue (sfx w') = [].
Proof.
  destruct (unload_request_then_service 1 w_explosion
              {| _name := "explosion"; _chunk := Some (clip [3; 1; 4]); _referenceCount := 1 |})
    as (w' & Hrun & _ & Hcase).
  - apply Forall_nil_2.
  - vm_compute. reflexivity.
  - vm_compute. discriminate.
  - decide_by_compute.
  - exists w'. split; [exact Hrun|].
    destruct (decide (1 ∈ channelPlayback (sfx w_explosion))) as [Hin|_].
    + exfalso. revert Hin. decide_by_compute.
    + destruct Hcase as [Hs _]. rewrite Hs.
      split; [apply lookup_delete_eq | vm_compute; reflexivity].
Defined.

Lemma loadSoundWAV_always_returns_witness :
  exists key w' r,
    loadSoundWAV None "missing_sound" w_init = Done key w'
    /\ sounds (sfx w') !! key = Some r.
Proof.
  destruct (loadSoundWAV_always_returns None "missing_sound" w_init w_init_consistent)
    as (key & w' & r & Hrun & Hr & _).
  exists key, w', r. split; [exact Hrun | exact Hr].
Defined.

Lemma service_leaves_playing_keys_witness :
  Forall (fun k => k ∈ channelPlayback (sfx w_pending)) (unloadQueue (sfx w_pending)).
Proof.
  apply (service_leaves_playing_keys w_pending w_pending). vm_compute. reflexivity.
Defined.

End More_runs.

(* ===================================================================== *)
(** * The play scene *)
(* ===================================================================== *)

Section Scene_properties.
Context `{SnakeHeader}.

Lemma int_value_Returns z :
  INT_MIN <= z <= INT_MAX -> int_value z = Returns z.
Proof.
  intros Hz. unfold int_value.
  destruct (INT_MIN <=? z) eqn:E1; [|lia].
  destruct (z <=? INT_MAX) eqn:E2; [reflexivity|lia].
Qed.

Lemma block_at_Returns snake (i : Z) b :
  0 <= i -> snake !! Z.to_nat i = Some b -> block_at snake i = Returns b.
Proof.
  intros Hi Hb. unfold block_at.
  destruct (i <? 0) eqn:E; [lia|]. by rewrite Hb.
Qed.

Lemma block_at_inv snake (i : Z) b :
  block_at snake i = Returns b -> 0 <= i /\ snake !! Z.to_nat i = Some b.
Proof.
  unfold block_at. destruct (i <? 0) eqn:E; [discriminate|].
  destruct (snake !! Z.to_nat i); [|discriminate].
  intros [= ->]. split; [lia|done].
Qed.

Lemma set_block_Returns snake (i : Z) f :
  0 <= i < Z.of_nat (length snake) ->
  set_block snake i f = Returns (alter f (Z.to_nat i) snake).
Proof.
  intros Hi. unfold set_block.
  destruct (i <? 0) eqn:E; [lia|].
  destruct (Z.to_nat i <? length snake)%nat eqn:E2; [done|].
  apply Nat.ltb_ge in E2. lia.
Qed.

Lemma set_block_inv snake (i : Z) f snake' :
  set_block snake i f = Returns snake' ->
  0 <= i < Z.of_nat (length snake) /\ snake' = alter f (Z.to_nat i) snake.
Proof.
  unfold set_block. destruct (i <? 0) eqn:E; [discriminate|].
  destruct (Z.to_nat i <? length snake)%nat eqn:E2; [|discriminate].
  apply Nat.ltb_lt in E2. intros [= <-]. split; [lia|done].
Qed.

Lemma bind_inv {A B} (m : Outcome A) (k : A -> Outcome B) b :
  (m ≫= k) = Returns b -> exists a, m = Returns a /\ k a = Returns b.
Proof. destruct m; [eauto|discriminate]. Qed.

(** ** [findNeighbourDirection] *)

Lemma findNeighbourDirection_cells self neighbour :
  INT_MIN <= _row self - _row neighbour <= INT_MAX ->
  INT_MIN <= _col self - _col neighbour <= INT_MAX ->
  findNeighbourDirection self neighbour =
    if decide (apart (cell_of self) (cell_of neighbour))
    then Returns (neighbour_direction (cell_of self) (cell_of neighbour))
    else Fails AssertionFailed.
Proof.
  intros Hr Hc. unfold findNeighbourDirection, apart, neighbour_direction, cell_of.
  rewrite (int_value_Returns _ Hr), (int_value_Returns _ Hc). simpl.
  set (dr := _row self - _row neighbour) in *.
  set (dc := _col self - _col neighbour) in *.
  clearbody dr dc.
  destruct (decide (dr <> dc)) as [Hne|Heq].
  - assert ((Z.lxor dr dc =? 0) = false) as ->.
    { apply Z.eqb_neq. rewrite Z.lxor_eq_0_iff. done. }
    simpl.
    destruct (Z.ltb_spec 1 dr), (Z.ltb_spec 1 dc); simpl.
    all: repeat (match goal with
            | |- context [decide ?P] => destruct (decide P)
            | |- context [?a <? ?b] => destruct (Z.ltb_spec a b)
            | |- context [?a =? ?b] => destruct (Z.eqb_spec a b)
            end; simpl; try lia; try reflexivity).
  - assert ((Z.lxor dr dc =? 0) = true) as ->.
    { apply Z.eqb_eq. rewrite Z.lxor_eq_0_iff. lia. }
    reflexivity.
Qed.

Lemma apart_sym a b : apart a b -> apart b a.
Proof. unfold apart. lia. Qed.

Lemma findNeighbourDirection_apart self neighbour :
  small (cell_of self) -> small (cell_of neighbour) ->
  apart (cell_of self) (cell_of neighbour) ->
  findNeighbourDirection self neighbour
    = Returns (neighbour_direction (cell_of self) (cell_of neighbour)).
Proof.
  intros [Hr1 Hc1] [Hr2 Hc2] Hapart. simpl in *.
  rewrite findNeighbourDirection_cells by (unfold INT_MIN, INT_MAX in *; lia).
  by rewrite decide_True.
Qed.

(** ** Loops over the blocks *)

Lemma block_at_nat snake (n : nat) b :
  snake !! n = Some b -> block_at snake (Z.of_nat n) = Returns b.
Proof. intros Hb. apply block_at_Returns; [lia|]. by rewrite Nat2Z.id. Qed.

Lemma set_block_nat snake (n : nat) f :
  (n < length snake)%nat ->
  set_block snake (Z.of_nat n) f = Returns (alter f n snake).
Proof. intros Hn. rewrite set_block_Returns by lia. by rewrite Nat2Z.id. Qed.

Lemma for_blocks_length body blocks :
  (forall block l l', body block l = Returns l' -> length l' = length l) ->
  forall l l', for_blocks blocks body l = Returns l' -> length l' = length l.
Proof.
  intros Hbody. induction blocks as [|block rest IH]; intros l l' Hrun; simpl in Hrun.
  - by injection Hrun as <-.
  - apply bind_inv in Hrun as (l1 & H1 & H2).
    rewrite (IH _ _ H2). eauto.
Qed.

(** The loop of [stepSnake]: from the last block in use down to the one
    behind the head, each block takes the cell of the block ahead of it. *)
Lemma follow_loop (h k : nat) l :
  (h + k < length l)%nat ->
  exists l',
    for_blocks (reverse (seqZ (Z.of_nat h + 1) (Z.of_nat k))) body_follow_block l
      = Returns l' /\
    length l' = length l /\
    (forall n, (n <= h \/ h + k < n)%nat -> l' !! n = l !! n) /\
    (forall n a b, (h < n <= h + k)%nat ->
       l !! (n - 1)%nat = Some a -> l !! n = Some b ->
       l' !! n = Some (with_col (_col a) (with_row (_row a) b))).
Proof.
  revert l. induction k as [|k IH]; intros l Hlen.
  - exists l. simpl. split; [done|]. split; [done|]. split; [done|]. intros n a b Hn. lia.
  - rewrite seqZ_S, reverse_snoc. simpl.
    destruct (lookup_lt_is_Some_2 l (h + k)%nat ltac:(lia)) as [a Ha].
    destruct (lookup_lt_is_Some_2 l (S (h + k))%nat ltac:(lia)) as [b Hb].
    unfold body_follow_block.
    replace (Z.of_nat h + 1 + Z.of_nat k - 1) with (Z.of_nat (h + k)) by lia.
    replace (Z.of_nat h + 1 + Z.of_nat k) with (Z.of_nat (S (h + k))) by lia.
    rewrite (block_at_nat _ _ _ Ha). simpl.
    rewrite set_block_nat by lia. simpl.
    rewrite (block_at_nat _ (h + k) a).
    2:{ rewrite list_lookup_alter_ne by lia. done. }
    simpl. rewrite set_block_nat by (rewrite length_alter; lia). simpl.
    set (l2 := alter (with_col (_col a)) (S (h + k)) (alter (with_row (_row a)) (S (h + k)) l)).
    assert (Hlen2 : length l2 = length l) by (unfold l2; by rewrite !length_alter).
    assert (Hother : forall n, n <> S (h + k) -> l2 !! n = l !! n).
    { intros n Hn. unfold l2. by rewrite !list_lookup_alter_ne by lia. }
    assert (Hat : l2 !! S (h + k) = Some (with_col (_col a) (with_row (_row a) b))).
    { unfold l2. rewrite !list_lookup_alter_eq, Hb. done. }
    destruct (IH l2 ltac:(lia)) as (l' & Hrun & Hlen' & Hout & Hin).
    exists l'. split; [exact Hrun|]. split; [lia|]. split.
    + intros n Hn. rewrite Hout by lia. apply Hother. lia.
    + intros n a' b' Hn Ha' Hb'.
      destruct (decide (n = S (h + k))) as [->|Hne].
      * rewrite Hout by lia. rewrite Hat.
        replace (S (h + k) - 1)%nat with (h + k)%nat in Ha' by lia.
        congruence.
      * apply Hin; [lia| |].
        -- rewrite Hother by lia. done.
        -- rewrite Hother by lia. done.
Qed.

Lemma cell_of_with_spriteid id b : cell_of (with_spriteid id b) = cell_of b.
Proof. done. Qed.

Lemma cells_alter_spriteid id (n : nat) (l : list SnakeBlock) :
  cell_of <$> alter (with_spriteid id) n l = cell_of <$> l.
Proof.
  apply list_eq. intros i. rewrite !list_lookup_fmap.
  destruct (decide (n = i)) as [->|Hne].
  - rewrite list_lookup_alter_eq. by destruct (l !! i).
  - by rewrite list_lookup_alter_ne.
Qed.

Lemma cells_lookup_block (l : list SnakeBlock) (n : nat) c :
  (cell_of <$> l) !! n = Some c -> exists b, l !! n = Some b /\ cell_of b = c.
Proof.
  rewrite list_lookup_fmap. destruct (l !! n) as [b|]; [|discriminate].
  intros [= <-]. eauto.
Qed.

(** The loop of [updateSnakeBlockSpriteIDs] over the blocks [a .. a + k - 1],
    each between two neighbours it is [apart] from. *)
Lemma sprite_loop (k : nat) : forall (a : nat) l,
  (1 <= a)%nat -> (a + k < length l)%nat ->
  (forall n c, (a - 1 <= n <= a + k)%nat -> (cell_of <$> l) !! n = Some c -> small c) ->
  (forall n x y, (a - 1 <= n < a + k)%nat ->
     (cell_of <$> l) !! n = Some x -> (cell_of <$> l) !! S n = Some y -> apart x y) ->
  exists l',
    for_blocks (seqZ (Z.of_nat a) (Z.of_nat k)) body_block_sprite l = Returns l' /\
    length l' = length l /\
    cell_of <$> l' = cell_of <$> l /\
    (forall n, (n < a \/ a + k <= n)%nat -> l' !! n = l !! n) /\
    (forall n b, (a <= n < a + k)%nat -> l !! n = Some b ->
       exists u v, (cell_of <$> l) !! (n - 1)%nat = Some u /\
                   (cell_of <$> l) !! S n = Some v /\
                   l' !! n = Some (with_spriteid
                     (snakeBodyBlockTree (neighbour_direction (cell_of b) u)
                                         (neighbour_direction (cell_of b) v)) b)).
Proof.
  induction k as [|k IH]; intros a l Ha Hlen Hsmall Hapart.
  - exists l. simpl. split; [done|]. split; [done|]. split; [done|]. split; [done|].
    intros n b Hn. lia.
  - rewrite seqZ_cons by lia.
    replace (Z.succ (Z.of_nat a)) with (Z.of_nat (S a)) by lia.
    replace (Z.pred (Z.of_nat (S k))) with (Z.of_nat k) by lia.
    simpl.
    destruct (lookup_lt_is_Some_2 l (a - 1)%nat ltac:(lia)) as [p Hp].
    destruct (lookup_lt_is_Some_2 l a ltac:(lia)) as [b Hb].
    destruct (lookup_lt_is_Some_2 l (S a) ltac:(lia)) as [q Hq].
    assert (Hcp : (cell_of <$> l) !! (a - 1)%nat = Some (cell_of p))
      by (by rewrite list_lookup_fmap, Hp).
    assert (Hcb : (cell_of <$> l) !! a = Some (cell_of b))
      by (by rewrite list_lookup_fmap, Hb).
    assert (Hcq : (cell_of <$> l) !! S a = Some (cell_of q))
      by (by rewrite list_lookup_fmap, Hq).
    unfold body_block_sprite.
    replace (Z.of_nat a - 1) with (Z.of_nat (a - 1)) by lia.
    replace (Z.of_nat a + 1) with (Z.of_nat (S a)) by lia.
    rewrite (block_at_nat _ _ _ Hb), (block_at_nat _ _ _ Hp). simpl.
    rewrite findNeighbourDirection_apart; cycle 1.
    { apply (Hsmall a); [lia|done]. }
    { apply (Hsmall (a - 1)%nat); [lia|done]. }
    { apply apart_sym. apply (Hapart (a - 1)%nat); [lia|done|].
      replace (S (a - 1)) with a by lia. done. }
    simpl. rewrite (block_at_nat _ _ _ Hq). simpl.
    rewrite findNeighbourDirection_apart; cycle 1.
    { apply (Hsmall a); [lia|done]. }
    { apply (Hsmall (S a)); [lia|done]. }
    { apply (Hapart a); [lia|done|done]. }
    simpl. rewrite set_block_nat by lia.
    set (id := snakeBodyBlockTree _ _).
    set (l1 := alter (with_spriteid id) a l).
    assert (Hc1 : cell_of <$> l1 = cell_of <$> l) by apply cells_alter_spriteid.
    destruct (IH (S a) l1) as (l' & Hrun & Hlen' & Hcells & Hout & Hin).
    { lia. }
    { unfold l1. rewrite length_alter. lia. }
    { rewrite Hc1. intros n c Hn. apply Hsmall. lia. }
    { rewrite Hc1. intros n x y Hn. apply Hapart. lia. }
    exists l'. split; [exact Hrun|]. split.
    { rewrite Hlen'. unfold l1. by rewrite length_alter. }
    split; [congruence|]. split.
    + intros n Hn. rewrite Hout by lia. unfold l1.
      rewrite list_lookup_alter_ne by lia. done.
    + intros n b' Hn Hb'. destruct (decide (n = a)) as [->|Hne].
      * exists (cell_of p), (cell_of q). split; [done|]. split; [done|].
        rewrite Hout by lia. unfold l1. rewrite list_lookup_alter_eq, Hb.
        rewrite Hb in Hb'. injection Hb' as <-. reflexivity.
      * destruct (Hin n b') as (u & v & Hu & Hv & Hn').
        { lia. }
        { unfold l1. rewrite list_lookup_alter_ne by lia. done. }
        rewrite Hc1 in Hu, Hv. eauto.
Qed.

(** [updateSnakeBlockSpriteIDs] on a snake that occupies the blocks
    [h .. len - 1] of the array. *)
Lemma updateSnakeBlockSpriteIDs_blocks (h len : nat) p :
  SNAKE_HEAD_BLOCK = Z.of_nat h -> _snakeLength p = Z.of_nat len ->
  (h + 2 <= len <= length (_snake p))%nat ->
  (forall n c, (h <= n < len)%nat -> (cell_of <$> _snake p) !! n = Some c -> small c) ->
  (forall n x y, (h <= n)%nat -> (S n < len)%nat ->
     (cell_of <$> _snake p) !! n = Some x -> (cell_of <$> _snake p) !! S n = Some y ->
     apart x y) ->
  exists l',
    updateSnakeBlockSpriteIDs p = Returns (with_snake l' p) /\
    length l' = length (_snake p) /\
    cell_of <$> l' = cell_of <$> _snake p /\
    (forall n, (n < h \/ len <= n)%nat -> l' !! n = _snake p !! n) /\
    (forall b v, _snake p !! h = Some b -> (cell_of <$> _snake p) !! S h = Some v ->
       l' !! h = Some (with_spriteid
                         (snakeHeadBlockTree (neighbour_direction (cell_of b) v)) b)) /\
    (forall n b u v, (h < n)%nat -> (S n < len)%nat -> _snake p !! n = Some b ->
       (cell_of <$> _snake p) !! (n - 1)%nat = Some u ->
       (cell_of <$> _snake p) !! S n = Some v ->
       l' !! n = Some (with_spriteid
                         (snakeBodyBlockTree (neighbour_direction (cell_of b) u)
                                             (neighbour_direction (cell_of b) v)) b)) /\
    (forall b u, _snake p !! (len - 1)%nat = Some b ->
       (cell_of <$> _snake p) !! (len - 2)%nat = Some u ->
       l' !! (len - 1)%nat = Some (with_spriteid
                         (snakeTailBlockTree (neighbour_direction (cell_of b) u)) b)).
Proof.
  intros Hh Hlen Hbounds Hsmall Hapart.
  set (l := _snake p) in *.
  destruct (lookup_lt_is_Some_2 l h ltac:(lia)) as [bh Hbh].
  destruct (lookup_lt_is_Some_2 l (S h) ltac:(lia)) as [bn Hbn].
  destruct (lookup_lt_is_Some_2 l (len - 1)%nat ltac:(lia)) as [bt Hbt].
  destruct (lookup_lt_is_Some_2 l (len - 2)%nat ltac:(lia)) as [bp Hbp].
  assert (Hcell : forall n b, l !! n = Some b -> (cell_of <$> l) !! n = Some (cell_of b)).
  { intros n b Hb. by rewrite list_lookup_fmap, Hb. }
  unfold updateSnakeBlockSpriteIDs. fold l. rewrite Hh, Hlen.
  replace (Z.of_nat h + 1) with (Z.of_nat (S h)) by lia.
  replace (Z.of_nat len - 1 - Z.of_nat (S h)) with (Z.of_nat (len - 2 - h)) by lia.
  replace (Z.of_nat len - 1) with (Z.of_nat (len - 1)) by lia.
  replace (Z.of_nat len - 2) with (Z.of_nat (len - 2)) by lia.
  rewrite (block_at_nat _ _ _ Hbh), (block_at_nat _ _ _ Hbn). simpl.
  rewrite findNeighbourDirection_apart; cycle 1.
  { apply (Hsmall h); [lia|auto]. }
  { apply (Hsmall (S h)); [lia|auto]. }
  { apply (Hapart h); [lia|lia|auto|auto]. }
  simpl. rewrite set_block_nat by lia. simpl.
  set (idh := snakeHeadBlockTree _).
  set (l1 := alter (with_spriteid idh) h l).
  assert (Hc1 : cell_of <$> l1 = cell_of <$> l) by apply cells_alter_spriteid.
  assert (Hlen1 : length l1 = length l) by apply length_alter.
  destruct (sprite_loop (len - 2 - h) (S h) l1) as (l2 & Hrun & Hlen2 & Hc2 & Hout & Hin).
  { lia. }
  { lia. }
  { rewrite Hc1. intros n c Hn. apply Hsmall. lia. }
  { rewrite Hc1. intros n x y Hn. apply Hapart; lia. }
  rewrite Hrun. simpl.
  assert (Ht2 : l2 !! (len - 1)%nat = Some bt).
  { rewrite Hout by lia. unfold l1. rewrite list_lookup_alter_ne by lia. done. }
  destruct (cells_lookup_block l2 (len - 2)%nat (cell_of bp)) as (bp2 & Hbp2 & Hcp2).
  { rewrite Hc2, Hc1. auto. }
  rewrite (block_at_nat _ _ _ Ht2), (block_at_nat _ _ _ Hbp2). simpl.
  rewrite findNeighbourDirection_apart; cycle 1.
  { apply (Hsmall (len - 1)%nat); [lia|auto]. }
  { rewrite Hcp2. apply (Hsmall (len - 2)%nat); [lia|auto]. }
  { rewrite Hcp2. apply apart_sym. apply (Hapart (len - 2)%nat); [lia|lia|auto|].
    replace (S (len - 2)) with (len - 1)%nat by lia. auto. }
  simpl. rewrite set_block_nat by lia. simpl.
  set (idt := snakeTailBlockTree _).
  eexists. split; [reflexivity|].
  split; [rewrite length_alter; lia|].
  split; [rewrite cells_alter_spriteid; congruence|].
  split; [|split; [|split]].
  - intros n Hn. rewrite list_lookup_alter_ne by lia.
    rewrite Hout by lia. unfold l1. rewrite list_lookup_alter_ne by lia. done.
  - intros b v Hb Hv. rewrite list_lookup_alter_ne by lia.
    rewrite Hout by lia. unfold l1. rewrite list_lookup_alter_eq, Hbh.
    rewrite Hbh in Hb. injection Hb as <-.
    rewrite (Hcell _ _ Hbn) in Hv. injection Hv as <-. reflexivity.
  - intros n b u v Hn1 Hn2 Hb Hu Hv. rewrite list_lookup_alter_ne by lia.
    destruct (Hin n b) as (u' & v' & Hu' & Hv' & Hn').
    { lia. }
    { unfold l1. rewrite list_lookup_alter_ne by lia. done. }
    rewrite Hc1 in Hu', Hv'. rewrite Hu in Hu'. rewrite Hv in Hv'.
    injection Hu' as <-. injection Hv' as <-. exact Hn'.
  - intros b u Hb Hu. rewrite list_lookup_alter_eq, Ht2.
    rewrite Hbt in Hb. injection Hb as <-.
    rewrite (Hcell _ _ Hbp) in Hu. injection Hu as <-.
    unfold idt. rewrite Hcp2. reflexivity.
Qed.

(** ** The blocks in use *)

Lemma cells_alt p :
  cells p = take (Z.to_nat (_snakeLength p - SNAKE_HEAD_BLOCK))
                 (drop (Z.to_nat SNAKE_HEAD_BLOCK) (cell_of <$> _snake p)).
Proof. unfold cells, blocks_in_use. by rewrite fmap_take, fmap_drop. Qed.

Lemma cells_lookup p (h len n : nat) :
  SNAKE_HEAD_BLOCK = Z.of_nat h -> _snakeLength p = Z.of_nat len ->
  (h + n < len)%nat ->
  cells p !! n = (cell_of <$> _snake p) !! (h + n)%nat.
Proof.
  intros Hh Hlen Hn. rewrite cells_alt, Hh, Hlen.
  rewrite lookup_take_lt by lia. rewrite lookup_drop. f_equal. lia.
Qed.

Lemma cells_lookup_ge p (h len n : nat) :
  SNAKE_HEAD_BLOCK = Z.of_nat h -> _snakeLength p = Z.of_nat len ->
  (len <= h + n)%nat -> cells p !! n = None.
Proof.
  intros Hh Hlen Hn. rewrite cells_alt, Hh, Hlen.
  apply lookup_take_ge. lia.
Qed.

Lemma blocks_in_use_lookup p (h len n : nat) :
  SNAKE_HEAD_BLOCK = Z.of_nat h -> _snakeLength p = Z.of_nat len ->
  (h + n < len)%nat ->
  blocks_in_use p !! n = _snake p !! (h + n)%nat.
Proof.
  intros Hh Hlen Hn. unfold blocks_in_use. rewrite Hh, Hlen.
  rewrite lookup_take_lt by lia. rewrite lookup_drop. f_equal. lia.
Qed.

Lemma blocks_in_use_lookup_ge p (h len n : nat) :
  SNAKE_HEAD_BLOCK = Z.of_nat h -> _snakeLength p = Z.of_nat len ->
  (len <= h + n)%nat -> blocks_in_use p !! n = None.
Proof.
  intros Hh Hlen Hn. unfold blocks_in_use. rewrite Hh, Hlen.
  apply lookup_take_ge. lia.
Qed.

Lemma length_cells p (h len : nat) :
  SNAKE_HEAD_BLOCK = Z.of_nat h -> _snakeLength p = Z.of_nat len ->
  (len <= length (_snake p))%nat ->
  length (cells p) = (len - h)%nat.
Proof.
  intros Hh Hlen Hn. rewrite cells_alt, Hh, Hlen.
  rewrite length_take, length_drop, length_fmap. lia.
Qed.

Lemma cells_same_array p p' :
  _snakeLength p' = _snakeLength p ->
  cell_of <$> _snake p' = cell_of <$> _snake p ->
  cells p' = cells p.
Proof. intros Hlen Hc. rewrite !cells_alt. by rewrite Hlen, Hc. Qed.

Lemma chain_cons a l :
  chain (a :: l) <-> (forall b, l !! 0%nat = Some b -> apart a b) /\ chain l.
Proof.
  unfold chain. split.
  - intros Hch. split.
    + intros b Hb. by apply (Hch 0%nat). 
    + intros n x y Hx Hy. by apply (Hch (S n)).
  - intros [Hhd Htl] [|n] x y Hx Hy; simpl in *.
    + injection Hx as <-. by apply Hhd.
    + by apply (Htl n).
Qed.

Lemma chain_take k l : chain l -> chain (take k l).
Proof.
  unfold chain. intros Hch n a b Ha Hb.
  apply lookup_take_Some in Ha as [Ha _]. apply lookup_take_Some in Hb as [Hb _].
  by apply (Hch n).
Qed.

(** What [updateSnakeBlockSpriteIDs] needs of the array, from what is known
    of the cells in use. *)
Lemma array_cells_small p (h len : nat) :
  SNAKE_HEAD_BLOCK = Z.of_nat h -> _snakeLength p = Z.of_nat len ->
  Forall small (cells p) ->
  forall n c, (h <= n < len)%nat -> (cell_of <$> _snake p) !! n = Some c -> small c.
Proof.
  intros Hh Hlen Hsmall n c Hn Hc.
  apply (Forall_lookup_1 _ _ (n - h)%nat c Hsmall).
  rewrite (cells_lookup p h len) by (done || lia).
  replace (h + (n - h))%nat with n by lia. done.
Qed.

Lemma array_cells_apart p (h len : nat) :
  SNAKE_HEAD_BLOCK = Z.of_nat h -> _snakeLength p = Z.of_nat len ->
  chain (cells p) ->
  forall n x y, (h <= n)%nat -> (S n < len)%nat ->
    (cell_of <$> _snake p) !! n = Some x -> (cell_of <$> _snake p) !! S n = Some y ->
    apart x y.
Proof.
  intros Hh Hlen Hchain n x y Hn1 Hn2 Hx Hy.
  apply (Hchain (n - h)%nat).
  - rewrite (cells_lookup p h len) by (done || lia).
    replace (h + (n - h))%nat with n by lia. done.
  - rewrite (cells_lookup p h len) by (done || lia).
    replace (h + S (n - h))%nat with (S n) by lia. done.
Qed.

(** [updateSnakeBlockSpriteIDs] returns on a snake of two blocks or more
    whose neighbouring blocks are [apart]; it moves no block, touches no
    block that is not in use and gives each block in use its sprite. *)
Lemma updateSnakeBlockSpriteIDs_scene p :
  0 <= SNAKE_HEAD_BLOCK ->
  SNAKE_HEAD_BLOCK + 2 <= _snakeLength p <= Z.of_nat (length (_snake p)) ->
  Forall small (cells p) -> chain (cells p) ->
  exists l',
    updateSnakeBlockSpriteIDs p = Returns (with_snake l' p) /\
    length l' = length (_snake p) /\
    cell_of <$> l' = cell_of <$> _snake p /\
    (forall n, sprites (with_snake l' p) !! n = sprite_of (cells p) n) /\
    take (Z.to_nat SNAKE_HEAD_BLOCK) l' = take (Z.to_nat SNAKE_HEAD_BLOCK) (_snake p) /\
    drop (Z.to_nat (_snakeLength p)) l' = drop (Z.to_nat (_snakeLength p)) (_snake p).
Proof.
  intros Hh0 Hbounds Hsmall Hchain.
  set (h := Z.to_nat SNAKE_HEAD_BLOCK).
  set (len := Z.to_nat (_snakeLength p)).
  assert (Hh : SNAKE_HEAD_BLOCK = Z.of_nat h) by lia.
  assert (Hlen : _snakeLength p = Z.of_nat len) by lia.
  assert (Hl : (h + 2 <= len <= length (_snake p))%nat) by lia.
  destruct (updateSnakeBlockSpriteIDs_blocks h len p)
    as (l' & Hrun & Hl' & Hc & Hout & Hhead & Hbody & Htail); try done.
  { by apply array_cells_small. }
  { by apply array_cells_apart. }
  exists l'. split; [done|]. split; [done|]. split; [done|].
  assert (Hcs : forall n, (h + n < len)%nat ->
            cells p !! n = (cell_of <$> _snake p) !! (h + n)%nat).
  { intros n Hn. by apply (cells_lookup p h len). }
  split; [|split].
  - intros n. unfold sprites, sprite_of.
    destruct (decide (h + n < len)%nat) as [Hn|Hn].
    + rewrite list_lookup_fmap.
      rewrite (blocks_in_use_lookup (with_snake l' p) h len) by done. simpl.
      destruct (lookup_lt_is_Some_2 (_snake p) (h + n)%nat ltac:(lia)) as [b Hb].
      rewrite (Hcs n Hn), list_lookup_fmap, Hb. simpl.
      rewrite (length_cells p h len) by (done || lia).
      destruct (decide (n = 0%nat)) as [->|Hn0].
      * replace (h + 0)%nat with h in * by lia.
        destruct (lookup_lt_is_Some_2 (_snake p) (S h) ltac:(lia)) as [v Hv].
        rewrite (Hcs 1%nat) by lia. replace (h + 1)%nat with (S h) by lia.
        rewrite list_lookup_fmap, Hv. simpl.
        rewrite (Hhead b (cell_of v)); [done|done|].
        by rewrite list_lookup_fmap, Hv.
      * destruct (lookup_lt_is_Some_2 (_snake p) (h + n - 1)%nat ltac:(lia)) as [u Hu].
        rewrite (Hcs (n - 1)%nat) by lia.
        replace (h + (n - 1))%nat with (h + n - 1)%nat by lia.
        rewrite list_lookup_fmap, Hu. simpl.
        destruct (decide (S n = (len - h)%nat)) as [Hlast|Hlast].
        -- replace (h + n)%nat with (len - 1)%nat in * by lia.
           rewrite (Htail b (cell_of u)); [done|done|].
           replace (len - 2)%nat with (len - 1 - 1)%nat by lia.
           by rewrite list_lookup_fmap, Hu.
        -- destruct (lookup_lt_is_Some_2 (_snake p) (S (h + n)) ltac:(lia)) as [v Hv].
           rewrite (Hcs (S n)) by lia.
           replace (h + S n)%nat with (S (h + n)) by lia.
           rewrite list_lookup_fmap, Hv. simpl.
           rewrite (Hbody (h + n)%nat b (cell_of u) (cell_of v)); try done; try lia.
           ++ by rewrite list_lookup_fmap, Hu.
           ++ by rewrite list_lookup_fmap, Hv.
    + rewrite list_lookup_fmap.
      rewrite (blocks_in_use_lookup_ge (with_snake l' p) h len) by (done || lia).
      rewrite (cells_lookup_ge p h len n) by (done || lia). done.
  - apply list_eq. intros n. destruct (decide (n < h)%nat).
    + rewrite !lookup_take_lt by lia. apply Hout. lia.
    + rewrite !lookup_take_ge by lia. done.
  - apply list_eq. intros n. rewrite !lookup_drop. apply Hout. lia.
Qed.

(** ** [stepSnake] *)

Lemma on_board_small c : header_ok -> on_board c -> small c.
Proof.
  unfold header_ok, on_board, small, INT_MAX. intros Hok [Hr Hc]. lia.
Qed.

Lemma opposite_ne d : d <> opposite d.
Proof. by destruct d. Qed.

(** The head stays on the board and never stays where it is. *)
Lemma move_head_on_board d b :
  header_ok -> on_board (cell_of b) ->
  exists b', move_head d b = Returns b' /\
             on_board (cell_of b') /\ apart (cell_of b') (cell_of b).
Proof.
  unfold header_ok, on_board, apart, cell_of. simpl.
  intros Hok [Hr Hc]. unfold INT_MAX in Hok.
  destruct d; unfold move_head;
    rewrite int_value_Returns by (unfold INT_MIN, INT_MAX; lia); simpl;
    (eexists; split; [reflexivity|]); simpl.
  - destruct (Z.leb_spec (_y boardSize) (_row b + 1)); lia.
  - destruct (Z.ltb_spec (_row b - 1) 0); lia.
  - destruct (Z.leb_spec (_x boardSize) (_col b + 1)); lia.
  - destruct (Z.ltb_spec (_col b - 1) 0); lia.
Qed.

Lemma stepSnake_scene p :
  header_ok -> snake_ok p ->
  exists head head' p',
    blocks_in_use p !! 0%nat = Some head /\
    move_head (_currentMoveDirection p) head = Returns head' /\
    stepSnake p = Returns p' /\
    cells p' = cell_of head' :: take (length (cells p) - 1) (cells p) /\
    _snakeLength p' = _snakeLength p /\
    length (_snake p') = length (_snake p) /\
    _currentMoveDirection p' = _nextMoveDirection p /\
    _nextMoveDirection p' = _nextMoveDirection p /\
    _stepClock_s p' = _stepClock_s p /\
    snake_ok p' /\
    (forall n, sprites p' !! n = sprite_of (cells p') n).
Proof.
  intros Hok (Hbounds & Hboard & Hchain).
  assert (Hh0 : 0 <= SNAKE_HEAD_BLOCK) by (unfold header_ok in Hok; lia).
  set (h := Z.to_nat SNAKE_HEAD_BLOCK).
  set (len := Z.to_nat (_snakeLength p)).
  assert (Hh : SNAKE_HEAD_BLOCK = Z.of_nat h) by lia.
  assert (Hlen : _snakeLength p = Z.of_nat len) by lia.
  set (l := _snake p) in *.
  assert (Hl : (h + 2 <= len <= length l)%nat) by lia.
  destruct (follow_loop h (len - 1 - h) l ltac:(lia)) as (l1 & Hrun & Hlen1 & Hout1 & Hin1).
  destruct (lookup_lt_is_Some_2 l h ltac:(lia)) as [bh Hbh].
  assert (Hhead : blocks_in_use p !! 0%nat = Some bh).
  { rewrite (blocks_in_use_lookup p h len) by (done || (unfold l in *; lia)).
    replace (h + 0)%nat with h by lia. done. }
  assert (Hcells_p : forall n, (h + n < len)%nat ->
            cells p !! n = (cell_of <$> l) !! (h + n)%nat).
  { intros n Hn. by apply (cells_lookup p h len). }
  assert (Hbh_board : on_board (cell_of bh)).
  { apply (Forall_lookup_1 _ _ 0%nat _ Hboard).
    rewrite Hcells_p by lia. replace (h + 0)%nat with h by lia.
    by rewrite list_lookup_fmap, Hbh. }
  destruct (move_head_on_board (_currentMoveDirection p) bh Hok Hbh_board)
    as (bh' & Hmove & Hboard' & Hapart').
  exists bh, bh'.
  unfold stepSnake. fold l.
  replace (SNAKE_HEAD_BLOCK + 1) with (Z.of_nat h + 1) by lia.
  replace (_snakeLength p - 1 - SNAKE_HEAD_BLOCK) with (Z.of_nat (len - 1 - h)) by lia.
  rewrite Hrun. simpl. rewrite Hh.
  rewrite (block_at_nat l1 h bh) by (rewrite Hout1 by lia; done).
  simpl. rewrite Hmove. simpl.
  rewrite set_block_nat by lia. simpl.
  set (l2 := alter (fun _ => bh') h l1).
  set (p2 := with_snake l2 (with_currentMoveDirection (_nextMoveDirection p) p)).
  assert (Hlen2 : length l2 = length l) by (unfold l2; rewrite length_alter; lia).
  assert (Hcells2 : cells p2 = cell_of bh' :: take (length (cells p) - 1) (cells p)).
  { rewrite (length_cells p h len) by (done || (unfold l in *; lia)).
    apply list_eq. intros [|m].
    - rewrite (cells_lookup p2 h len) by (done || (unfold l in *; lia)). simpl.
      replace (h + 0)%nat with h by lia.
      rewrite list_lookup_fmap. unfold l2. rewrite list_lookup_alter_eq.
      rewrite Hout1 by lia. fold l. by rewrite Hbh.
    - simpl. destruct (decide (h + S m < len)%nat) as [Hm|Hm].
      + rewrite (cells_lookup p2 h len) by (done || (unfold l in *; lia)). simpl.
        rewrite lookup_take_lt by lia. rewrite Hcells_p by lia.
        rewrite !list_lookup_fmap. unfold l2.
        rewrite list_lookup_alter_ne by lia.
        destruct (lookup_lt_is_Some_2 l (h + m)%nat ltac:(lia)) as [a Ha].
        destruct (lookup_lt_is_Some_2 l (h + S m)%nat ltac:(lia)) as [b Hb].
        rewrite (Hin1 (h + S m)%nat a b); [|lia| |done].
        * rewrite Ha. done.
        * replace (h + S m - 1)%nat with (h + m)%nat by lia. done.
      + rewrite (cells_lookup_ge p2 h len) by (done || (unfold l in *; lia)).
        symmetry. apply lookup_take_ge. lia. }
  assert (Hboard2 : Forall on_board (cells p2)).
  { rewrite Hcells2. constructor; [done|]. by apply Forall_take. }
  assert (Hchain2 : chain (cells p2)).
  { rewrite Hcells2. apply chain_cons. split; [|by apply chain_take].
    intros b Hb. apply lookup_take_Some in Hb as [Hb _].
    rewrite Hcells_p in Hb by lia. replace (h + 0)%nat with h in Hb by lia.
    rewrite list_lookup_fmap, Hbh in Hb. injection Hb as <-. done. }
  destruct (updateSnakeBlockSpriteIDs_scene p2) as (l3 & Hupd & Hlen3 & Hc3 & Hspr & _).
  { done. }
  { simpl. lia. }
  { eapply Forall_impl; [exact Hboard2|]. intros c. by apply on_board_small. }
  { done. }
  simpl in Hlen3.
  exists (with_snake l3 p2). split; [done|]. split; [done|].
  split; [exact Hupd|].
  assert (Hcells3 : cells (with_snake l3 p2) = cells p2)
    by (by apply cells_same_array).
  split; [by rewrite Hcells3|].
  split; [done|]. split; [simpl; lia|].
  split; [done|]. split; [done|]. split; [done|].
  split.
  { split; [simpl; lia|]. rewrite Hcells3. done. }
  intros n. rewrite Hcells3. apply Hspr.
Qed.

(** ** [handleInput] and [onUpdate] *)

Lemma handleInput_fields lkey rkey ukey dkey p :
  _snake (handleInput lkey rkey ukey dkey p) = _snake p /\
  _snakeLength (handleInput lkey rkey ukey dkey p) = _snakeLength p /\
  _currentMoveDirection (handleInput lkey rkey ukey dkey p) = _currentMoveDirection p /\
  _stepClock_s (handleInput lkey rkey ukey dkey p) = _stepClock_s p.
Proof.
  unfold handleInput.
  destruct lkey, rkey, ukey, dkey, (_currentMoveDirection p) eqn:E; simpl; auto.
Qed.

Lemma handleInput_direction lkey rkey ukey dkey p :
  _nextMoveDirection p <> opposite (_currentMoveDirection p) ->
  _nextMoveDirection (handleInput lkey rkey ukey dkey p)
    <> opposite (_currentMoveDirection p).
Proof.
  unfold handleInput.
  destruct lkey, rkey, ukey, dkey, (_currentMoveDirection p) eqn:E; simpl;
    rewrite ?E; simpl; (done || auto).
Qed.

Lemma handleInput_scene lkey rkey ukey dkey p :
  scene_ok p -> scene_ok (handleInput lkey rkey ukey dkey p).
Proof.
  intros ((Hbounds & Hboard & Hchain) & Hspr & Hdir).
  destruct (handleInput_fields lkey rkey ukey dkey p) as (Hs & Hl & Hc & _).
  assert (Hcells : cells (handleInput lkey rkey ukey dkey p) = cells p).
  { apply cells_same_array; [done|]. by rewrite Hs. }
  assert (Hsprites : sprites (handleInput lkey rkey ukey dkey p) = sprites p).
  { unfold sprites, blocks_in_use. by rewrite Hs, Hl. }
  unfold scene_ok, snake_ok. rewrite Hcells, Hsprites, Hs, Hl, Hc.
  split; [done|]. split; [done|].
  by apply handleInput_direction.
Qed.

Lemma scene_ok_with_stepClock_s t p : scene_ok p -> scene_ok (with_stepClock_s t p).
Proof. done. Qed.

Lemma onUpdate_scene lkey rkey ukey dkey dt p :
  header_ok -> scene_ok p ->
  exists p', onUpdate lkey rkey ukey dkey dt p = Returns p' /\ scene_ok p'.
Proof.
  intros Hok Hp. unfold onUpdate.
  apply (handleInput_scene lkey rkey ukey dkey) in Hp.
  set (p1 := with_stepClock_s _ _).
  assert (Hp1 : scene_ok p1) by (by apply scene_ok_with_stepClock_s).
  destruct (fgt (_stepClock_s p1) stepPeriod_s).
  - destruct (stepSnake_scene p1 Hok (proj1 Hp1))
      as (hd & hd' & p2 & _ & _ & Hrun & _ & _ & _ & Hcur & Hnext & _ & Hp2 & Hspr).
    rewrite Hrun. simpl. eexists. split; [reflexivity|].
    apply scene_ok_with_stepClock_s. split; [done|]. split; [done|].
    rewrite Hcur, Hnext. apply opposite_ne.
  - eauto.
Qed.

(** ** [initializeSnake] and [onEnter] *)

(** The loop of [initializeSnake] over the blocks [a .. a + k - 1]. *)
Lemma spawn_loop (k : nat) : forall (a : nat) l,
  (a + k <= length l)%nat ->
  (forall n, (a <= n < a + k)%nat ->
     INT_MIN <= snakeHeadSpawnCol + Z.of_nat n <= INT_MAX) ->
  exists l',
    for_blocks (seqZ (Z.of_nat a) (Z.of_nat k)) body_spawn_block l = Returns l' /\
    length l' = length l /\
    (forall n, (n < a \/ a + k <= n)%nat -> l' !! n = l !! n) /\
    (forall n b, (a <= n < a + k)%nat -> l !! n = Some b ->
       l' !! n = Some (with_row snakeHeadSpawnRow
                         (with_col (snakeHeadSpawnCol + Z.of_nat n) b))).
Proof.
  induction k as [|k IH]; intros a l Hlen Hcol.
  - exists l. simpl. split; [done|]. split; [done|]. split; [done|].
    intros n b Hn. lia.
  - rewrite seqZ_cons by lia.
    replace (Z.succ (Z.of_nat a)) with (Z.of_nat (S a)) by lia.
    replace (Z.pred (Z.of_nat (S k))) with (Z.of_nat k) by lia.
    simpl. unfold body_spawn_block.
    rewrite int_value_Returns by (apply Hcol; lia). simpl.
    rewrite set_block_nat by lia. simpl.
    rewrite set_block_nat by (rewrite length_alter; lia). simpl.
    set (l1 := alter (with_row snakeHeadSpawnRow) a _).
    assert (Hlen1 : length l1 = length l) by (unfold l1; by rewrite !length_alter).
    destruct (IH (S a) l1) as (l' & Hrun & Hlen' & Hout & Hin).
    { lia. }
    { intros n Hn. apply Hcol. lia. }
    exists l'. split; [exact Hrun|]. split; [lia|]. split.
    + intros n Hn. rewrite Hout by lia. unfold l1.
      by rewrite !list_lookup_alter_ne by lia.
    + intros n b Hn Hb. destruct (decide (n = a)) as [->|Hne].
      * rewrite Hout by lia. unfold l1. rewrite !list_lookup_alter_eq, Hb. done.
      * apply Hin; [lia|]. unfold l1. by rewrite !list_lookup_alter_ne by lia.
Qed.

Lemma onEnter_scene p0 :
  header_ok -> babySnakeLength <= Z.of_nat (length (_snake p0)) ->
  exists p,
    onEnter p0 = Returns p /\
    cells p = (fun i => (snakeHeadSpawnRow, snakeHeadSpawnCol + i))
                <$> seqZ SNAKE_HEAD_BLOCK (babySnakeLength - SNAKE_HEAD_BLOCK) /\
    _snakeLength p = babySnakeLength /\
    length (_snake p) = length (_snake p0) /\
    _nextMoveDirection p = WEST /\ _currentMoveDirection p = WEST /\
    _stepClock_s p = fzero /\
    scene_ok p.
Proof.
  intros Hok Hcap. pose proof Hok as (Hh0 & Hbaby & Hx & Hy & Hrow & Hcol1 & Hcol2).
  unfold INT_MAX in Hx, Hy.
  set (h := Z.to_nat SNAKE_HEAD_BLOCK).
  set (len := Z.to_nat babySnakeLength).
  assert (Hh : SNAKE_HEAD_BLOCK = Z.of_nat h) by lia.
  assert (Hlen : babySnakeLength = Z.of_nat len) by lia.
  destruct (spawn_loop (len - h) h (_snake p0)) as (l1 & Hrun & Hlen1 & Hout & Hin).
  { lia. }
  { intros n Hn. unfold INT_MIN, INT_MAX. lia. }
  rewrite <- Hh in Hrun.
  set (p1 := with_snake l1 (with_snakeLength babySnakeLength
               (with_currentMoveDirection WEST
                  (with_nextMoveDirection WEST (with_stepClock_s fzero p0))))).
  assert (Hcells : cells p1 = (fun i => (snakeHeadSpawnRow, snakeHeadSpawnCol + i))
                                <$> seqZ SNAKE_HEAD_BLOCK (Z.of_nat (len - h))).
  { apply list_eq. intros n. rewrite list_lookup_fmap.
    destruct (decide (h + n < len)%nat) as [Hn|Hn].
    - rewrite (cells_lookup p1 h len) by (done || lia). simpl.
      rewrite lookup_seqZ_lt by lia. simpl.
      destruct (lookup_lt_is_Some_2 (_snake p0) (h + n)%nat ltac:(lia)) as [b Hb].
      rewrite list_lookup_fmap, (Hin (h + n)%nat b) by (done || lia). simpl.
      unfold cell_of. simpl. do 3 f_equal. lia.
    - rewrite (cells_lookup_ge p1 h len) by (done || lia).
      rewrite lookup_seqZ_ge by lia. done. }
  assert (Hboard : Forall on_board (cells p1)).
  { rewrite Hcells. apply Forall_fmap, Forall_lookup_2. intros n i Hi.
    apply lookup_seqZ in Hi as [-> Hn]. unfold on_board. simpl. lia. }
  assert (Hchain : chain (cells p1)).
  { rewrite Hcells. intros n a b. rewrite !list_lookup_fmap.
    destruct (seqZ _ _ !! n) as [i|] eqn:Hi; [|discriminate].
    destruct (seqZ _ _ !! S n) as [j|] eqn:Hj; [|discriminate].
    apply lookup_seqZ in Hi as [-> _]. apply lookup_seqZ in Hj as [-> _].
    simpl. intros [= <-] [= <-]. unfold apart. simpl. lia. }
  destruct (updateSnakeBlockSpriteIDs_scene p1) as (l2 & Hupd & Hlen2 & Hc2 & Hspr & _).
  { done. }
  { simpl. lia. }
  { eapply Forall_impl; [exact Hboard|]. intros c. by apply on_board_small. }
  { done. }
  simpl in Hlen2.
  exists (with_snake l2 p1). split.
  { unfold onEnter, initializeSnake. simpl.
    replace (babySnakeLength - SNAKE_HEAD_BLOCK) with (Z.of_nat (len - h)) by lia.
    rewrite Hrun. simpl. exact Hupd. }
  assert (Hcells2 : cells (with_snake l2 p1) = cells p1) by (by apply cells_same_array).
  split.
  { rewrite Hcells2, Hcells. do 2 f_equal. lia. }
  split; [done|]. split; [simpl; lia|].
  split; [done|]. split; [done|]. split; [done|].
  split; [|split].
  - split; [simpl; lia|]. rewrite Hcells2. done.
  - intros n. rewrite Hcells2. apply Hspr.
  - simpl. discriminate.
Qed.

(** ** What a call that returns tells about the array *)

Lemma set_block_length snake i f snake' :
  set_block snake i f = Returns snake' -> length snake' = length snake.
Proof. intros Hset. apply set_block_inv in Hset as [_ ->]. apply length_alter. Qed.

Lemma body_block_sprite_length block l l' :
  body_block_sprite block l = Returns l' -> length l' = length l.
Proof.
  unfold body_block_sprite. intros Hrun.
  repeat (apply bind_inv in Hrun as (? & _ & Hrun)).
  by apply set_block_length in Hrun.
Qed.

Lemma body_spawn_block_length block l l' :
  body_spawn_block block l = Returns l' -> length l' = length l.
Proof.
  unfold body_spawn_block. intros Hrun.
  apply bind_inv in Hrun as (c & _ & Hrun).
  apply bind_inv in Hrun as (l1 & Hl1 & Hrun).
  apply set_block_length in Hl1, Hrun. lia.
Qed.

Lemma updateSnakeBlockSpriteIDs_room p p' :
  updateSnakeBlockSpriteIDs p = Returns p' ->
  _snakeLength p <= Z.of_nat (length (_snake p)).
Proof.
  unfold updateSnakeBlockSpriteIDs. intros Hrun.
  apply bind_inv in Hrun as (b1 & _ & Hrun).
  apply bind_inv in Hrun as (b2 & _ & Hrun).
  apply bind_inv in Hrun as (d1 & _ & Hrun).
  apply bind_inv in Hrun as (l1 & Hl1 & Hrun).
  apply bind_inv in Hrun as (l2 & Hl2 & Hrun).
  apply bind_inv in Hrun as (b3 & Hb3 & _).
  apply set_block_length in Hl1.
  apply (for_blocks_length _ _ body_block_sprite_length) in Hl2.
  apply block_at_inv in Hb3 as [Hpos Hb3]. apply lookup_lt_Some in Hb3. lia.
Qed.

Lemma onEnter_room p0 p :
  onEnter p0 = Returns p -> babySnakeLength <= Z.of_nat (length (_snake p0)).
Proof.
  unfold onEnter, initializeSnake. intros Hrun.
  apply bind_inv in Hrun as (l1 & Hl1 & Hrun).
  apply (for_blocks_length _ _ body_spawn_block_length) in Hl1.
  apply updateSnakeBlockSpriteIDs_room in Hrun. simpl in *. lia.
Qed.

Lemma playing_scene_ok p : header_ok -> playing p -> scene_ok p.
Proof.
  intros Hok Hplay. induction Hplay as [p0 p Henter|lkey rkey ukey dkey dt p p' _ IH Hupd].
  - destruct (onEnter_scene p0 Hok (onEnter_room _ _ Henter)) as (p1 & Hrun & Hp1).
    rewrite Henter in Hrun. injection Hrun as <-. apply Hp1.
  - destruct (onUpdate_scene lkey rkey ukey dkey dt p Hok IH) as (p1 & Hrun & Hp1).
    rewrite Hupd in Hrun. injection Hrun as <-. exact Hp1.
Qed.

Lemma neighbour_direction_opposite a b :
  apart a b -> neighbour_direction b a = opposite (neighbour_direction a b).
Proof.
  unfold apart, neighbour_direction. intros Hapart.
  repeat (match goal with
          | |- context [decide ?P] => destruct (decide P)
          end; simpl; try lia; try reflexivity).
Qed.

Lemma updateSnakeBlockSpriteIDs_two_blocks p p' :
  updateSnakeBlockSpriteIDs p = Returns p' -> 2 <= _snakeLength p.
Proof.
  unfold updateSnakeBlockSpriteIDs. intros Hrun.
  apply bind_inv in Hrun as (b1 & _ & Hrun).
  apply bind_inv in Hrun as (b2 & _ & Hrun).
  apply bind_inv in Hrun as (d1 & _ & Hrun).
  apply bind_inv in Hrun as (l1 & _ & Hrun).
  apply bind_inv in Hrun as (l2 & _ & Hrun).
  apply bind_inv in Hrun as (b3 & _ & Hrun).
  apply bind_inv in Hrun as (b4 & Hb4 & _).
  apply block_at_inv in Hb4 as [Hpos _]. lia.
Qed.

(** The sprites of a snake that lies on a row, the head at its west end. *)
Lemma sprites_on_a_row (r c0 : Z) (k : nat) (n : nat) :
  (2 <= k)%nat ->
  sprite_of ((fun i => (r, c0 + i)) <$> seqZ 0 (Z.of_nat k)) n
    = (snakeHeadBlockTree EAST
         :: replicate (k - 2) (snakeBodyBlockTree WEST EAST)
         ++ [snakeTailBlockTree WEST]) !! n.
Proof.
  intros Hk. unfold sprite_of.
  assert (Hat : forall m, (m < k)%nat ->
            ((fun i => (r, c0 + i)) <$> seqZ 0 (Z.of_nat k)) !! m
              = Some (r, c0 + Z.of_nat m)).
  { intros m Hm. rewrite list_lookup_fmap, lookup_seqZ_lt by lia. done. }
  rewrite length_fmap, length_seqZ, Nat2Z.id.
  destruct (decide (n < k)%nat) as [Hn|Hn].
  - rewrite (Hat n Hn). simpl.
    destruct (decide (n = 0%nat)) as [->|Hn0].
    + rewrite (Hat 1%nat) by lia. simpl.
      unfold neighbour_direction. simpl.
      repeat (destruct (decide _); try lia). done.
    + rewrite (Hat (n - 1)%nat) by lia. simpl.
      destruct (decide (S n = k)) as [Hlast|Hlast].
      * destruct n as [|n]; [done|]. simpl.
        rewrite lookup_app_r by (rewrite length_replicate; lia).
        rewrite length_replicate. replace (n - (k - 2))%nat with 0%nat by lia.
        simpl. unfold neighbour_direction. simpl.
        repeat (destruct (decide _); try lia). done.
      * rewrite (Hat (S n)) by lia. simpl.
        destruct n as [|n]; [done|]. simpl.
        rewrite lookup_app_l by (rewrite length_replicate; lia).
        rewrite lookup_replicate_2 by lia.
        unfold neighbour_direction. simpl.
        repeat (destruct (decide _); try lia). done.
  - assert (Hge : ((fun i => (r, c0 + i)) <$> seqZ 0 (Z.of_nat k)) !! n = None).
    { rewrite list_lookup_fmap, lookup_seqZ_ge by lia. done. }
    rewrite Hge. simpl.
    symmetry. apply lookup_ge_None_2. simpl.
    rewrite length_app, length_replicate. simpl. lia.
Qed.

(** ** Properties of the scene functions *)

(** X17.  With coordinates whose differences are [int]s,
    [findNeighbourDirection] fails its first assertion exactly when the row
    difference equals the column difference (the same cell, or a diagonal
    line of slope one); otherwise it returns, rows first, and none of its
    three later assertions can fail. *)
Theorem findNeighbourDirection_returns self neighbour
    (Hrows : INT_MIN <= _row self - _row neighbour <= INT_MAX)
    (Hcols : INT_MIN <= _col self - _col neighbour <= INT_MAX) :
  (_row self - _row neighbour = _col self - _col neighbour /\
   findNeighbourDirection self neighbour = Fails AssertionFailed) \/
  (_row self - _row neighbour <> _col self - _col neighbour /\
   findNeighbourDirection self neighbour
     = Returns (neighbour_direction (cell_of self) (cell_of neighbour))).
Proof.
  rewrite findNeighbourDirection_cells by done.
  destruct (decide (apart (cell_of self) (cell_of neighbour))) as [Hap|Hap];
    unfold apart, cell_of in Hap; simpl in Hap.
  - right. done.
  - left. split; [lia|done].
Qed.

(** X18.  Seen from the other block the direction is the opposite one: if
    [findNeighbourDirection] returns [d] for a block and its neighbour, it
    returns [opposite d] for the neighbour and the block. *)
Theorem findNeighbourDirection_opposite self neighbour d
    (Hself : small (cell_of self)) (Hneighbour : small (cell_of neighbour))
    (Hfound : findNeighbourDirection self neighbour = Returns d) :
  findNeighbourDirection neighbour self = Returns (opposite d).
Proof.
  destruct Hself as [Hr1 Hc1], Hneighbour as [Hr2 Hc2]. simpl in *.
  rewrite findNeighbourDirection_cells in Hfound
    by (unfold INT_MIN, INT_MAX in *; lia).
  rewrite findNeighbourDirection_cells by (unfold INT_MIN, INT_MAX in *; lia).
  destruct (decide (apart (cell_of self) (cell_of neighbour))) as [Hap|Hap];
    [|discriminate].
  injection Hfound as <-.
  rewrite decide_True by (by apply apart_sym).
  by rewrite neighbour_direction_opposite.
Qed.

(** X19.  [handleInput] never asks for a step back onto the neck: when the
    next direction is not the opposite of the current one before the call,
    it is not afterwards, whatever keys are down; the call changes nothing
    but the next direction, and nothing at all when two keys or more are
    down. *)
Theorem handleInput_never_reverses lkey rkey ukey dkey p
    (Hdir : _nextMoveDirection p <> opposite (_currentMoveDirection p)) :
  let p' := handleInput lkey rkey ukey dkey p in
  _nextMoveDirection p' <> opposite (_currentMoveDirection p') /\
  p' = with_nextMoveDirection (_nextMoveDirection p') p /\
  (1 < Z.b2z lkey + Z.b2z rkey + Z.b2z ukey + Z.b2z dkey -> p' = p).
Proof.
  cbv zeta.
  destruct (handleInput_fields lkey rkey ukey dkey p) as (Hs & Hl & Hc & Ht).
  split; [|split].
  - rewrite Hc. by apply handleInput_direction.
  - destruct (handleInput lkey rkey ukey dkey p); simpl in *.
    unfold with_nextMoveDirection. by rewrite Hs, Hl, Hc, Ht.
  - intros Hkeys. unfold handleInput.
    destruct (Z.ltb_spec 1 (Z.b2z lkey + Z.b2z rkey + Z.b2z ukey + Z.b2z dkey));
      [done|lia].
Qed.

(** X20.  On a snake of two blocks or more inside the array, with
    non-negative coordinates and each block [apart] from the next,
    [updateSnakeBlockSpriteIDs] returns; it moves no block, leaves the blocks
    that are not in use as they are, and gives the head, the tail and every
    block between them the sprite of [sprite_of]. *)
Theorem updateSnakeBlockSpriteIDs_sprites p
    (Hhead : 0 <= SNAKE_HEAD_BLOCK)
    (Hroom : SNAKE_HEAD_BLOCK + 2 <= _snakeLength p <= Z.of_nat (length (_snake p)))
    (Hsmall : Forall small (cells p))
    (Hchain : chain (cells p)) :
  exists p',
    updateSnakeBlockSpriteIDs p = Returns p' /\
    p' = with_snake (_snake p') p /\
    cells p' = cells p /\
    (forall n, sprites p' !! n = sprite_of (cells p) n) /\
    length (_snake p') = length (_snake p) /\
    take (Z.to_nat SNAKE_HEAD_BLOCK) (_snake p')
      = take (Z.to_nat SNAKE_HEAD_BLOCK) (_snake p) /\
    drop (Z.to_nat (_snakeLength p)) (_snake p')
      = drop (Z.to_nat (_snakeLength p)) (_snake p).
Proof.
  destruct (updateSnakeBlockSpriteIDs_scene p Hhead Hroom Hsmall Hchain)
    as (l' & Hrun & Hlen & Hc & Hspr & Htake & Hdrop).
  exists (with_snake l' p). split; [done|]. split; [done|].
  split; [by apply cells_same_array|]. done.
Qed.

(** X21.  [stepSnake] on a snake that is on the board: it returns; the head
    goes where the [switch] on the current direction puts it and every other
    block takes the cell of the block ahead of it, so the last cell is left;
    the length is kept, the current direction becomes the next one, and the
    snake is again on the board, each block [apart] from the next and with
    the sprite for its new neighbours. *)
Theorem stepSnake_moves p (Hheader : header_ok) (Hsnake : snake_ok p) :
  exists head head' p',
    blocks_in_use p !! 0%nat = Some head /\
    move_head (_currentMoveDirection p) head = Returns head' /\
    stepSnake p = Returns p' /\
    cells p' = cell_of head' :: take (length (cells p) - 1) (cells p) /\
    _snakeLength p' = _snakeLength p /\
    _currentMoveDirection p' = _nextMoveDirection p /\
    _nextMoveDirection p' = _nextMoveDirection p /\
    snake_ok p' /\
    (forall n, sprites p' !! n = sprite_of (cells p') n).
Proof.
  destruct (stepSnake_scene p Hheader Hsnake)
    as (hd & hd' & p' & H1 & H2 & H3 & H4 & H5 & H6 & H7 & H8 & H9 & H10 & H11).
  exists hd, hd', p'. done.
Qed.

(** X22.  The four wraps of [stepSnake].  Going NORTH from the last row the
    head lands on row 0 and going SOUTH from row 0 on the last row,
    [boardSize._y - 1]; going EAST from column [boardSize._x - 1] it lands on
    column 0, but going WEST from column 0 it lands on column [boardSize._x],
    one past the column EAST wraps from. *)
Theorem stepSnake_wraps p r c (Hheader : header_ok) (Hsnake : snake_ok p)
    (Hhead : cells p !! 0%nat = Some (r, c)) :
  exists p',
    stepSnake p = Returns p' /\
    (_currentMoveDirection p = NORTH -> r = _y boardSize - 1 ->
       cells p' !! 0%nat = Some (0, c)) /\
    (_currentMoveDirection p = SOUTH -> r = 0 ->
       cells p' !! 0%nat = Some (_y boardSize - 1, c)) /\
    (_currentMoveDirection p = EAST -> c = _x boardSize - 1 ->
       cells p' !! 0%nat = Some (r, 0)) /\
    (_currentMoveDirection p = WEST -> c = 0 ->
       cells p' !! 0%nat = Some (r, _x boardSize)).
Proof.
  destruct (stepSnake_scene p Hheader Hsnake)
    as (hd & hd' & p' & Hhd & Hmove & Hrun & Hcells & _).
  exists p'. split; [exact Hrun|].
  assert (Hcell : cell_of hd = (r, c)).
  { pose proof Hhead as Hhd0. unfold cells in Hhd0.
    rewrite list_lookup_fmap, Hhd in Hhd0. simpl in Hhd0. congruence. }
  unfold cell_of in Hcell. injection Hcell as Hr Hc.
  destruct Hsnake as (_ & Hboard & _).
  pose proof (Forall_lookup_1 _ _ _ _ Hboard Hhead) as [Hrb Hcb]. simpl in Hrb, Hcb.
  pose proof Hheader as (_ & _ & Hx & Hy & _). unfold INT_MAX in Hx, Hy.
  rewrite Hcells. simpl.
  repeat split; intros Hd Hedge; rewrite Hd in Hmove; unfold move_head in Hmove;
    rewrite int_value_Returns in Hmove by (unfold INT_MIN, INT_MAX; lia);
    simpl in Hmove; injection Hmove as <-; unfold cell_of; simpl;
    rewrite ?Hr, ?Hc; do 2 f_equal.
  - destruct (Z.leb_spec (_y boardSize) (r + 1)); lia.
  - destruct (Z.ltb_spec (r - 1) 0); lia.
  - destruct (Z.leb_spec (_x boardSize) (c + 1)); lia.
  - destruct (Z.ltb_spec (c - 1) 0); lia.
Qed.


(** X24.  [onEnter] returns exactly when the array has room for
    [babySnakeLength] blocks.  The snake then lies on the spawn row, the head
    on column [snakeHeadSpawnCol + SNAKE_HEAD_BLOCK] and each block one
    column east of the block ahead; the head has the sprite for a tail to
    the EAST, the tail the sprite for a head to the WEST and the blocks
    between them the sprite for WEST and EAST; both directions are WEST and
    the clock is zero. *)
Theorem onEnter_lays_out p0 (Hheader : header_ok) :
  ((exists p, onEnter p0 = Returns p)
     <-> babySnakeLength <= Z.of_nat (length (_snake p0))) /\
  forall p, onEnter p0 = Returns p ->
    cells p = (fun i => (snakeHeadSpawnRow, snakeHeadSpawnCol + i))
                <$> seqZ SNAKE_HEAD_BLOCK (babySnakeLength - SNAKE_HEAD_BLOCK) /\
    sprites p = snakeHeadBlockTree EAST
                  :: replicate (Z.to_nat (babySnakeLength - SNAKE_HEAD_BLOCK - 2))
                               (snakeBodyBlockTree WEST EAST)
                  ++ [snakeTailBlockTree WEST] /\
    _snakeLength p = babySnakeLength /\
    _nextMoveDirection p = WEST /\ _currentMoveDirection p = WEST /\
    _stepClock_s p = fzero.
Proof.
  split; [split|].
  - intros [p Hp]. by eapply onEnter_room.
  - intros Hroom. destruct (onEnter_scene p0 Hheader Hroom) as (p & Hp & _). eauto.
  - intros p Hp.
    destruct (onEnter_scene p0 Hheader (onEnter_room _ _ Hp))
      as (p1 & Hrun & Hcells & Hlen & _ & Hnext & Hcur & Hclock & _ & Hspr & _).
    rewrite Hp in Hrun. injection Hrun as <-.
    split; [done|]. split; [|done].
    pose proof Hheader as (Hh0 & Hbaby & _).
    set (k := Z.to_nat (babySnakeLength - SNAKE_HEAD_BLOCK)).
    assert (Hrow : cells p
              = (fun i => (snakeHeadSpawnRow, snakeHeadSpawnCol + SNAKE_HEAD_BLOCK + i))
                  <$> seqZ 0 (Z.of_nat k)).
    { rewrite Hcells. apply list_eq. intros n. rewrite !list_lookup_fmap.
      destruct (decide (n < k)%nat).
      - rewrite !lookup_seqZ_lt by lia. simpl. do 2 f_equal. lia.
      - rewrite !lookup_seqZ_ge by lia. done. }
    apply list_eq. intros n. rewrite Hspr, Hrow.
    replace (Z.to_nat (babySnakeLength - SNAKE_HEAD_BLOCK - 2)) with (k - 2)%nat
      by (unfold k; lia).
    apply sprites_on_a_row. unfold k. lia.
Qed.

(** X25.  The snake never turns straight back: while the scene plays, the
    current direction after an [onUpdate] is never the opposite of the
    current direction before it. *)
Theorem onUpdate_never_turns_back lkey rkey ukey dkey dt p p'
    (Hheader : header_ok) (Hplaying : playing p)
    (Hupdate : onUpdate lkey rkey ukey dkey dt p = Returns p') :
  _currentMoveDirection p' <> opposite (_currentMoveDirection p).
Proof.
  pose proof (playing_scene_ok p Hheader Hplaying) as Hp.
  pose proof (handleInput_scene lkey rkey ukey dkey p Hp) as Hp1.
  pose proof (handleInput_direction lkey rkey ukey dkey p (proj2 (proj2 Hp))) as Hdir.
  destruct (handleInput_fields lkey rkey ukey dkey p) as (_ & _ & Hcur & _).
  unfold onUpdate in Hupdate.
  set (p1 := with_stepClock_s _ _) in Hupdate.
  destruct (fgt (_stepClock_s p1) stepPeriod_s).
  - destruct (stepSnake_scene p1 Hheader (proj1 Hp1))
      as (hd & hd' & p2 & _ & _ & Hrun & _ & _ & _ & Hcur2 & _).
    rewrite Hrun in Hupdate. simpl in Hupdate. injection Hupdate as <-.
    simpl. rewrite Hcur2. exact Hdir.
  - injection Hupdate as <-.
    change (_currentMoveDirection p1)
      with (_currentMoveDirection (handleInput lkey rkey ukey dkey p)).
    rewrite Hcur. apply opposite_ne.
Qed.

(** X26.  A snake of fewer than two blocks cannot be drawn or stepped:
    [updateSnakeBlockSpriteIDs], and with it [stepSnake], reads
    [_snake[_snakeLength - 2]] and never returns when [_snakeLength] is below
    2, as it is in the scene as constructed, before [onEnter]. *)
Theorem snake_of_fewer_than_two_blocks p (Hshort : _snakeLength p < 2) :
  (forall p', updateSnakeBlockSpriteIDs p <> Returns p') /\
  (forall p', stepSnake p <> Returns p').
Proof.
  split; intros p' Hrun.
  - apply updateSnakeBlockSpriteIDs_two_blocks in Hrun. lia.
  - unfold stepSnake in Hrun.
    apply bind_inv in Hrun as (l1 & _ & Hrun).
    apply bind_inv in Hrun as (b1 & _ & Hrun).
    apply bind_inv in Hrun as (b2 & _ & Hrun).
    apply bind_inv in Hrun as (l2 & _ & Hrun).
    apply updateSnakeBlockSpriteIDs_two_blocks in Hrun. simpl in Hrun. lia.
Qed.

End Scene_properties.

(* ===================================================================== *)
(** * Runs of the play scene *)
(* ===================================================================== *)

Section Scene_runs.
#[local] Existing Instance example_header.

Lemma example_header_ok : header_ok.
Proof. unfold header_ok, INT_MAX. simpl. lia. Qed.

Lemma scene_entered_playing : playing scene_entered.
Proof. apply (playing_onEnter scene_new). vm_compute. reflexivity. Qed.

Lemma scene_entered_snake_ok : snake_ok scene_entered.
Proof. apply (playing_scene_ok _ example_header_ok scene_entered_playing). Qed.

(** A block at (3, 7) and its neighbour at (3, 8): the neighbour is to the
    EAST. *)
Lemma findNeighbourDirection_returns_witness :
  findNeighbourDirection {| _row := 3; _col := 7; _spriteid := 0 |}
                         {| _row := 3; _col := 8; _spriteid := 0 |}
    = Returns EAST.
Proof.
  destruct (findNeighbourDirection_returns
              {| _row := 3; _col := 7; _spriteid := 0 |}
              {| _row := 3; _col := 8; _spriteid := 0 |})
    as [[Heq _]|[_ Hrun]].
  - vm_compute. split; discriminate.
  - vm_compute. split; discriminate.
  - vm_compute in Heq. discriminate.
  - exact Hrun.
Defined.

Lemma findNeighbourDirection_opposite_witness :
  findNeighbourDirection {| _row := 3; _col := 8; _spriteid := 0 |}
                         {| _row := 3; _col := 7; _spriteid := 0 |}
    = Returns WEST.
Proof.
  apply (findNeighbourDirection_opposite
           {| _row := 3; _col := 7; _spriteid := 0 |}
           {| _row := 3; _col := 8; _spriteid := 0 |} EAST).
  - vm_compute. repeat split; discriminate.
  - vm_compute. repeat split; discriminate.
  - vm_compute. reflexivity.
Defined.

(** The right key while moving WEST is ignored. *)
Lemma handleInput_never_reverses_witness :
  _nextMoveDirection scene_entered <> opposite (_currentMoveDirection scene_entered) /\
  handleInput false true false false scene_entered
    = with_nextMoveDirection
        (_nextMoveDirection (handleInput false true false false scene_entered))
        scene_entered.
Proof.
  assert (Hdir : _nextMoveDirection scene_entered
                   <> opposite (_currentMoveDirection scene_entered))
    by (vm_compute; discriminate).
  split; [exact Hdir|].
  exact (proj1 (proj2 (handleInput_never_reverses false true false false
                         scene_entered Hdir))).
Defined.

Lemma updateSnakeBlockSpriteIDs_sprites_witness :
  exists p', updateSnakeBlockSpriteIDs scene_entered = Returns p' /\
             cells p' = cells scene_entered.
Proof.
  destruct (updateSnakeBlockSpriteIDs_sprites scene_entered)
    as (p' & Hrun & _ & Hcells & _).
  - vm_compute. discriminate.
  - vm_compute. split; discriminate.
  - eapply Forall_impl; [apply scene_entered_snake_ok|].
    intros c Hc. exact (on_board_small c example_header_ok Hc).
  - apply scene_entered_snake_ok.
  - eauto.
Defined.

Lemma stepSnake_moves_witness :
  exists p', stepSnake scene_entered = Returns p' /\
             cells p' = [(15, 19); (15, 20); (15, 21); (15, 22)].
Proof.
  destruct (stepSnake_moves scene_entered example_header_ok scene_entered_snake_ok)
    as (hd & hd' & p' & Hhd & Hmove & Hrun & Hcells & _).
  exists p'. split; [exact Hrun|]. rewrite Hcells.
  vm_compute in Hhd. injection Hhd as <-.
  vm_compute in Hmove. injection Hmove as <-. vm_compute. reflexivity.
Defined.

Lemma scene_at_west_edge_snake_ok : snake_ok scene_at_west_edge.
Proof.
  split; [vm_compute; split; discriminate|]. split.
  - vm_compute. repeat constructor; discriminate.
  - intros [|[|[|[|n]]]] a b Ha Hb; vm_compute in Ha, Hb; try discriminate;
      injection Ha as <-; injection Hb as <-; vm_compute; discriminate.
Qed.

(** Going WEST from column 0 the head lands on column 40, [boardSize._x]. *)
Lemma stepSnake_wraps_witness :
  exists p', stepSnake scene_at_west_edge = Returns p' /\
             cells p' !! 0%nat = Some (15, 40).
Proof.
  destruct (stepSnake_wraps scene_at_west_edge 15 0 example_header_ok
              scene_at_west_edge_snake_ok)
    as (p' & Hrun & _ & _ & _ & Hwest).
  - vm_compute. reflexivity.
  - exists p'. split; [exact Hrun|]. apply Hwest; reflexivity.
Defined.


Lemma onEnter_lays_out_witness :
  cells scene_entered = [(15, 20); (15, 21); (15, 22); (15, 23)] /\
  sprites scene_entered = [2; 18; 18; 23].
Proof.
  destruct (proj2 (onEnter_lays_out scene_new example_header_ok) scene_entered)
    as (Hcells & Hsprites & _).
  - vm_compute. reflexivity.
  - split; [rewrite Hcells|rewrite Hsprites]; vm_compute; reflexivity.
Defined.

(** The right key while moving WEST, in a frame that steps. *)
Lemma onUpdate_never_turns_back_witness :
  exists p', onUpdate false true false false dt_long scene_entered = Returns p' /\
             _currentMoveDirection p' <> EAST.
Proof.
  destruct (onUpdate false true false false dt_long scene_entered) as [p'|f] eqn:Hrun.
  - exists p'. split; [reflexivity|].
    apply (onUpdate_never_turns_back false true false false dt_long scene_entered p'
             example_header_ok scene_entered_playing Hrun).
  - vm_compute in Hrun. discriminate.
Defined.

(** In the scene as constructed no block is in use: a step reads
    [_snake[-1]]. *)
Lemma snake_of_fewer_than_two_blocks_witness :
  stepSnake scene_new = Fails UndefinedBehaviour /\
  forall p', stepSnake scene_new <> Returns p'.
Proof.
  split; [vm_compute; reflexivity|].
  apply (snake_of_fewer_than_two_blocks scene_new). vm_compute. reflexivity.
Defined.

End Scene_runs.
